(** * sphinx-js: renderers, directives and the automodules generator

    A shallow embedding of the list, string and file manipulating parts of
    [sphinx_js/renderers.py], [sphinx_js/directives.py] and
    [sphinx_js/generator.py], together with the properties their
    documentation states.

    Conventions.
    - A Python [str] is a [string]; every character is read as the code point
      of its number (0..255).  Python compares strings code point by code
      point, lists and tuples lexicographically.
    - A Python [set] of strings is a [gset string], a [dict] used as a map a
      [gmap].
    - A call that may raise returns in [option] or in [result]. *)

From Stdlib Require Import Ascii String.
From stdpp Require Import base option list sorting gmap strings pretty.

Local Open Scope string_scope.
Local Open Scope list_scope.
Local Open Scope stdpp_scope.

(** ** Python's ordering of built-in values *)

(** Three-way comparison, from which [<] and [==] of the built-in types are
    read off. *)
Class PyOrd (A : Type) := py_cmp : A → A → comparison.
Global Hint Mode PyOrd ! : typeclass_instances.

Class PyOrdLaws (A : Type) `{PyOrd A} := {
  py_cmp_eq (x y : A) : py_cmp x y = Eq ↔ x = y;
  py_cmp_opp (x y : A) : py_cmp y x = CompOpp (py_cmp x y);
  py_cmp_lt_trans (x y z : A) :
    py_cmp x y = Lt → py_cmp y z = Lt → py_cmp x z = Lt
}.
Global Hint Mode PyOrdLaws ! - : typeclass_instances.

(** [x < y] *)
Definition py_lt {A} `{PyOrd A} (x y : A) : bool :=
  match py_cmp x y with Lt => true | _ => false end.

(** [x <= y], for documentation of sortedness. *)
Definition py_le {A} `{PyOrd A} (x y : A) : Prop := py_cmp x y ≠ Gt.

(** [False < True]. *)
Global Instance bool_PyOrd : PyOrd bool := λ a b,
  match a, b with
  | false, true => Lt
  | true, false => Gt
  | _, _ => Eq
  end.

Global Instance nat_PyOrd : PyOrd nat := Nat.compare.

(** Characters compare by code point. *)
Global Instance ascii_PyOrd : PyOrd ascii := λ a b,
  N.compare (N_of_ascii a) (N_of_ascii b).

(** Sequences compare lexicographically: the first differing position
    decides, a proper prefix is smaller. *)
Fixpoint list_cmp {A} `{PyOrd A} (l1 l2 : list A) : comparison :=
  match l1, l2 with
  | [], [] => Eq
  | [], _ :: _ => Lt
  | _ :: _, [] => Gt
  | x :: l1', y :: l2' =>
      match py_cmp x y with
      | Eq => list_cmp l1' l2'
      | c => c
      end
  end.
Global Instance list_PyOrd {A} `{PyOrd A} : PyOrd (list A) := list_cmp.

Fixpoint str_cmp (s1 s2 : string) : comparison :=
  match s1, s2 with
  | EmptyString, EmptyString => Eq
  | EmptyString, String _ _ => Lt
  | String _ _, EmptyString => Gt
  | String a s1', String b s2' =>
      match py_cmp a b with
      | Eq => str_cmp s1' s2'
      | c => c
      end
  end.
Global Instance string_PyOrd : PyOrd string := str_cmp.

(** Tuples of length two. *)
Global Instance pair_PyOrd {A B} `{PyOrd A, PyOrd B} : PyOrd (A * B) := λ p q,
  match py_cmp p.1 q.1 with
  | Eq => py_cmp p.2 q.2
  | c => c
  end.

(** ** [sorted] and [list.sort]: a stable sort on a key

    Python's sort is stable, compares keys with [<] only, and computes every
    key before it moves an element.  A stable sort has one possible result,
    so it is embedded as the insertion sort that does the same. *)
Section stable_sort.
Context {A K : Type} `{PyOrd K} (key : A → K).

Fixpoint insert_by (x : A) (l : list A) : list A :=
  match l with
  | [] => [x]
  | y :: l' =>
      if py_lt (key y) (key x) then y :: insert_by x l' else x :: l
  end.

(** [sorted(l, key=key)]; elements are inserted from the right, each in
    front of the first element that is not smaller, so that equal keys keep
    their order. *)
Definition sorted (l : list A) : list A := foldr insert_by [] l.

(** Sortedness on the key. *)
Definition key_le (a b : A) : Prop := py_le (key a) (key b).
End stable_sort.

(** [l.sort(key=key)] where computing a key may raise: the keys are computed
    first, left to right, and the first failure is the failure of the call. *)
Definition sort_by_key {A K} `{PyOrd K} (key : A → option K) (l : list A)
  : option (list A) :=
  ks ← mapM key l;
  Some ((sorted fst (zip ks l)).*2).

(** [l.index(x)]: the first position of [x], [ValueError] (here [None]) when
    [x] does not occur. *)
Fixpoint py_index (x : string) (l : list string) : option nat :=
  match l with
  | [] => None
  | y :: l' => if decide (y = x) then Some 0 else S <$> py_index x l'
  end.

(** ** The part of the IR that member selection reads

    The IR classes live in [sphinx_js/ir.py]; member selection looks at a
    member's class (is it a [Function]), its [name], its [path.segments] and,
    in the callers, [is_private]. *)
Inductive ir_class := Attribute | Function | Class | Interface | Namespace.

Global Instance ir_class_eq_dec : EqDecision ir_class.
Proof. solve_decision. Defined.

Record Member := {
  cls : ir_class;
  name : string;
  path_segments : list string;
  is_private : bool
}.

Global Instance Member_eq_dec : EqDecision Member.
Proof. solve_decision. Defined.

(** [isinstance(obj, Function)] *)
Definition isinstance_Function (m : Member) : bool :=
  bool_decide (cls m = Function).

(** An object with members (a class, a namespace, a module). *)
Record Obj := { obj_name : string; members : list Member }.

(** Truth value of the [include] argument: [None] and the empty list are
    false. *)
Definition py_bool_list {A} (l : option (list A)) : bool :=
  match l with
  | None | Some [] => false
  | Some (_ :: _) => true
  end.

(** ** [renderers._members_to_include] *)

Definition sort_attributes_first_then_by_path (obj : Member)
  : bool * list string :=
  (isinstance_Function obj, path_segments obj).

Definition _members_to_include (obj : Obj) (include : option (list string))
  : option (list Member) :=
  let members := members obj in
  if negb (py_bool_list include) then
    Some (sorted sort_attributes_first_then_by_path members)
  else
    let include := default [] include in
    let included_set : gset string := list_to_set include in
    '(include, included_set) ←
      (if decide ("*" ∈ included_set) then
         star_index ← py_index "*" include;
         let sorted_not_included_members :=
           sorted sort_attributes_first_then_by_path
             (filter (λ m, name m ∉ included_set) members) in
         let not_included := name <$> sorted_not_included_members in
         Some (take star_index include ++ not_included
                 ++ drop (star_index + 1) include,
               included_set ∪ list_to_set not_included)
       else Some (include, included_set));
    let included_members := filter (λ m, name m ∈ included_set) members in
    sort_by_key (λ m, py_index (name m) include) included_members.

(** A public member, for the examples. *)
Definition mk (c : ir_class) (n : string) (p : list string) : Member :=
  {| cls := c; name := n; path_segments := p; is_private := false |}.

(** The elements of key [k], in their order in [l]. *)
Definition bucket {A} (key : A → nat) (l : list A) (k : nat) : list A :=
  filter (λ x, key x = k) l.

(** *** Vocabulary for the statements about member selection *)

(** Kind, then path: members that are not functions come first, and within
    a kind the path segments decide. *)
Definition member_le (a b : Member) : Prop :=
  (isinstance_Function a = false ∧ isinstance_Function b = true) ∨
  (isinstance_Function a = isinstance_Function b ∧
   py_le (path_segments a) (path_segments b)).

(** [a] is named in [l] no later than [b] is. *)
Definition listed_before (l : list string) (a b : Member) : Prop :=
  ∀ i j, py_index (name a) l = Some i → py_index (name b) l = Some j →
         (i ≤ j)%nat.

(** Position of a member's name in [l], for members that are named there. *)
Definition position_in (l : list string) (m : Member) : nat :=
  default 0 (py_index (name m) l).

(** The members named in [l], name after name in the order of [l]; members
    of the same name stay in the order of [ms]. *)
Definition by_first_position (l : list string) (ms : list Member)
  : list Member :=
  seq 0 (length l) ≫= λ k, filter (λ m, py_index (name m) l = Some k) ms.

(** A class with a static and an instance member of the same short name. *)
Definition example_class : Obj :=
  {| obj_name := "C";
     members := [mk Function "foo" ["C."; "foo"];
                 mk Function "bar" ["C."; "bar"];
                 mk Attribute "foo" ["C#"; "foo"];
                 mk Attribute "zed" ["C#"; "zed"]] |}.

(** ** Python string operations *)

(** The double quote character as a string. *)
Definition dquote : string := String (ascii_of_nat 34) EmptyString.

(** [c.isspace()] for the code points 0..255; the same characters are the
    class [\s] of [re] and what [strip] removes. *)
Definition is_space (c : ascii) : bool :=
  let n := nat_of_ascii c in
  ((9 <=? n)%nat && (n <=? 13)%nat) || ((28 <=? n)%nat && (n <=? 32)%nat)
  || (n =? 133)%nat || (n =? 160)%nat.

Definition LF : ascii := ascii_of_nat 10.
Definition CR : ascii := ascii_of_nat 13.
Definition TAB : ascii := ascii_of_nat 9.

(** [s.lstrip()] *)
Fixpoint lstrip (s : string) : string :=
  match s with
  | EmptyString => EmptyString
  | String c s' => if is_space c then lstrip s' else s
  end.

(** [s.rstrip()] *)
Fixpoint rstrip (s : string) : string :=
  match s with
  | EmptyString => EmptyString
  | String c s' =>
      match rstrip s' with
      | EmptyString => if is_space c then EmptyString else String c EmptyString
      | r => String c r
      end
  end.

(** [s.strip()] *)
Definition strip (s : string) : string := rstrip (lstrip s).

(** Made of characters of the class [p] only. *)
Definition all_of (p : ascii → bool) (s : string) : Prop :=
  Forall (λ c, p c = true) (list_ascii_of_string s).

(** Made of white space only. *)
Definition all_space (s : string) : Prop := all_of is_space s.

(** Empty, or starting with a character outside the class [p]. *)
Definition starts_outside (p : ascii → bool) (s : string) : Prop :=
  match s with
  | EmptyString => True
  | String c _ => p c = false
  end.

(** [s.split(sep)] for a separator of one character: never empty, one more
    field than there are separators. *)
Fixpoint split (sep : ascii) (s : string) : list string :=
  match s with
  | EmptyString => [EmptyString]
  | String c s' =>
      if decide (c = sep) then EmptyString :: split sep s'
      else match split sep s' with
           | [] => [String c EmptyString]
           | field :: fields => String c field :: fields
           end
  end.

(** [sep.join(l)] *)
Fixpoint join (sep : string) (l : list string) : string :=
  match l with
  | [] => EmptyString
  | [s] => s
  | s :: l' => s +:+ sep +:+ join sep l'
  end.

(** [c in s] for a character. *)
Fixpoint contains (c : ascii) (s : string) : bool :=
  match s with
  | EmptyString => false
  | String d s' => bool_decide (d = c) || contains c s'
  end.

(** [s.startswith(p)] *)
Definition startswith (p s : string) : bool := String.prefix p s.

(** [s[n:]] *)
Fixpoint str_drop (n : nat) (s : string) : string :=
  match n, s with
  | S n', String _ s' => str_drop n' s'
  | _, _ => s
  end.

(** Length of the longest prefix of [s] made of characters in the class
    [p]: what a greedy [p*] consumes. *)
Fixpoint count_while (p : ascii → bool) (s : string) : nat :=
  match s with
  | String c s' => if p c then S (count_while p s') else 0
  | EmptyString => 0
  end.

(** Truth value of an optional string: [None] and [''] are false. *)
Definition py_bool_str (s : option string) : bool :=
  match s with
  | None | Some EmptyString => false
  | Some (String _ _) => true
  end.

(** ** [directives._members_to_exclude] *)

Definition _members_to_exclude (arg : option string) : gset string :=
  list_to_set (strip <$> split ","
                 (if py_bool_str arg then default EmptyString arg
                  else EmptyString)).

(** ** [renderers.unwrapped] *)

(** The classes [[ \t]] and [[\r\n]]. *)
Definition is_blank (c : ascii) : bool :=
  bool_decide (c = " "%char) || bool_decide (c = TAB).
Definition is_line_break (c : ascii) : bool :=
  bool_decide (c = CR) || bool_decide (c = LF).

(** Length of the match of [[ \t]*[\r\n]+[ \t]*] at the start of [s].  The
    three classes are disjoint, so each greedy repetition takes its longest
    run and there is nothing to backtrack into. *)
Definition unwrap_match (s : string) : option nat :=
  let a := count_while is_blank s in
  let s1 := str_drop a s in
  let b := count_while is_line_break s1 in
  if (b =? 0)%nat then None
  else Some (a + b + count_while is_blank (str_drop b s1)).

(** [re.sub(pattern, ' ', text)] for that pattern: at every position from
    the left the pattern is tried; a match (never empty) is replaced by a
    space and the scan goes on behind it ([skip] counts the characters of
    the match still to pass), otherwise the character is kept. *)
Fixpoint unwrap_from (skip : nat) (s : string) : string :=
  match s with
  | EmptyString => EmptyString
  | String c s' =>
      match skip with
      | S k => unwrap_from k s'
      | 0 =>
          match unwrap_match s with
          | Some n => String " " (unwrap_from (n - 1) s')
          | None => String c (unwrap_from 0 s')
          end
      end
  end.

Definition unwrapped (text : string) : string := unwrap_from 0 text.

(** ** [renderers.JsRenderer._fields] and the field formatters *)

(** What the formatters read of a [@param], [@property], [@throws] or
    [@returns] block of the IR: [type] may be [None], the others are
    strings. *)
Module Doclet.
Record t := {
  name : string;
  type : option string;
  description : string;
  is_optional : bool;
  optional : string
}.
End Doclet.

(** An object with info fields; an attribute the object lacks is read as the
    empty list ([getattr(obj, collection_attr, [])]). *)
Module FieldsOf.
Record t := {
  params : option (list Doclet.t);
  properties : option (list Doclet.t);
  exceptions : option (list Doclet.t);
  returns : option (list Doclet.t)
}.
End FieldsOf.

Inductive attr_name := params | properties | exceptions | returns.

Definition getattr (obj : FieldsOf.t) (a : attr_name) : list Doclet.t :=
  default []
    match a with
    | params => FieldsOf.params obj
    | properties => FieldsOf.properties obj
    | exceptions => FieldsOf.exceptions obj
    | returns => FieldsOf.returns obj
    end.

Section fields.
(** [sphinx.util.rst.escape], which belongs to the host framework. *)
Variable rst_escape : string → string.

(** Derive heads and tail from [@returns] blocks. *)
Definition _return_formatter (return_ : Doclet.t)
  : option (list string * string) :=
  let tail :=
    if py_bool_str (Doclet.type return_)
    then "**" +:+ rst_escape (default EmptyString (Doclet.type return_))
         +:+ "** -- "
    else EmptyString in
  Some (["returns"], tail +:+ Doclet.description return_).

(** Derive heads and tail from [@param] blocks. *)
Definition _param_formatter (param : Doclet.t)
  : option (list string * string) :=
  if negb (py_bool_str (Doclet.type param))
     && negb (py_bool_str (Some (Doclet.description param)))
  then None
  else
    let heads := ["param"] in
    let heads :=
      if py_bool_str (Doclet.type param)
      then heads ++ [default EmptyString (Doclet.type param)] else heads in
    let heads := heads ++ [Doclet.name param] in
    Some (heads, Doclet.description param).

(** Generate types for function parameters specified in field. *)
Definition _param_type_formatter (param : Doclet.t)
  : option (list string * string) :=
  if negb (py_bool_str (Doclet.type param)) then None
  else
    let heads := ["type"; Doclet.name param] in
    let tail := [rst_escape (default EmptyString (Doclet.type param))] in
    let tail :=
      if Doclet.is_optional param then tail ++ [Doclet.optional param]
      else tail in
    Some (heads, join ", " tail).

(** Derive heads and tail from [@throws] blocks. *)
Definition _exception_formatter (exception : Doclet.t)
  : option (list string * string) :=
  let heads := ["throws"] in
  let heads :=
    if py_bool_str (Doclet.type exception)
    then heads ++ [default EmptyString (Doclet.type exception)] else heads in
  Some (heads, Doclet.description exception).

Definition FIELD_TYPES
  : list (attr_name * (Doclet.t → option (list string * string))) :=
  [(params, _param_formatter);
   (params, _param_type_formatter);
   (properties, _param_formatter);
   (properties, _param_type_formatter);
   (exceptions, _exception_formatter);
   (returns, _return_formatter)].

(** The fields in the order the generator yields them. *)
Definition _fields (obj : FieldsOf.t) : list (list string * string) :=
  mbind (M:=list)
    (λ '((collection_attr, callback)
         : attr_name * (Doclet.t → option (list string * string))),
       mbind (M:=list)
         (λ instance : Doclet.t,
            match callback instance with
            | Some (heads, tail) => [(rst_escape <$> heads, unwrapped tail)]
            | None => []
            end)
         (getattr obj collection_attr))
    FIELD_TYPES.
End fields.

(** The text has no carriage return and no newline. *)
Definition single_line (s : string) : Prop :=
  contains CR s = false ∧ contains LF s = false.

(** ** Exceptions *)

Inductive exception :=
  | SuffixNotFound (segments : list string)
  | SuffixAmbiguous (segments : list string) (next_possible_keys : list string)
  | SphinxError (message : string)
  | FileNotFoundError (filename : string)
  | TypeError.

Inductive result (A : Type) :=
  | Ok (a : A)
  | Raise (e : exception).
Global Arguments Ok {A} a.
Global Arguments Raise {A} e.

Global Instance result_ret : MRet result := λ A a, Ok a.
Global Instance result_bind : MBind result := λ A B f r,
  match r with
  | Ok a => f a
  | Raise e => Raise e
  end.

(** ** [renderers.JsRenderer.rst_nodes] *)

(** What [rst_nodes] reads of the renderer, its directive and the build
    environment. *)
Module JsRenderer.
Record t := {
  _partial_path : list string;
  _renderer_type : string;
  _options : gset string;
  docname : string;
  directive_name : string;
  content_offset : nat
}.
End JsRenderer.

Section rst_nodes.
(** The analyzer, which lives in another module of the package, and the
    docutils and Jinja calls. *)
Context {ir_object node : Type}.
Variable ir_name : ir_object → string.
Variable get_object : list string → string → result ir_object.
Variable rst : JsRenderer.t → list string → ir_object → bool → result string.
Variable parse : string → string → result (list node).
(** [str] of the candidate keys the analyzer reports. *)
Variable str_keys : list string → string.

Definition rst_nodes (self : JsRenderer.t) : result (list node) :=
  match get_object (JsRenderer._partial_path self)
          (JsRenderer._renderer_type self) with
  | Raise (SuffixNotFound segments) =>
      Raise (SphinxError
               ("No documentation was found for object " +:+ dquote
                +:+ join EmptyString segments +:+ dquote
                +:+ " or any path ending with that."))
  | Raise (SuffixAmbiguous segments next_possible_keys) =>
      Raise (SphinxError
               ("More than one object matches the path suffix " +:+ dquote
                +:+ join EmptyString segments +:+ dquote
                +:+ ". Candidate paths have these segments in front: "
                +:+ str_keys next_possible_keys))
  | Raise e => Raise e
  | Ok obj =>
      text ← rst self (JsRenderer._partial_path self) obj
               (bool_decide ("short-name" ∈ JsRenderer._options self));
      let doc_name := JsRenderer.docname self in
      let directive_name := JsRenderer.directive_name self in
      let line := JsRenderer.content_offset self in
      parse text
        (doc_name +:+ ":" +:+ directive_name +:+ "::" +:+ ir_name obj
         +:+ "(" +:+ pretty line +:+ ")")
  end.
End rst_nodes.

Definition example_renderer : JsRenderer.t :=
  {| JsRenderer._partial_path := ["#bar"];
     JsRenderer._renderer_type := "function";
     JsRenderer._options := ∅;
     JsRenderer.docname := "index";
     JsRenderer.directive_name := "js:autofunction";
     JsRenderer.content_offset := 3 |}.

(** ** More string operations, for the generator *)

(** [s[:n]] *)
Fixpoint str_take (n : nat) (s : string) : string :=
  match n, s with
  | S n', String c s' => String c (str_take n' s')
  | _, _ => EmptyString
  end.

(** [p in s] for strings. *)
Fixpoint substring_of (p s : string) : bool :=
  startswith p s
  || match s with
     | EmptyString => false
     | String _ s' => substring_of p s'
     end.

Definition SLASH : ascii := "/"%char.

(** [s.rstrip('/')] *)
Fixpoint rstrip_sep (s : string) : string :=
  match s with
  | EmptyString => EmptyString
  | String c s' =>
      match rstrip_sep s' with
      | EmptyString =>
          if decide (c = SLASH) then EmptyString else String c EmptyString
      | r => String c r
      end
  end.

(** [p[:p.rfind('/') + 1]] *)
Fixpoint upto_last_sep (p : string) : string :=
  match p with
  | EmptyString => EmptyString
  | String c p' =>
      if contains SLASH p' then String c (upto_last_sep p')
      else if decide (c = SLASH) then String c EmptyString else EmptyString
  end.

(** [os.path.dirname], as [posixpath] has it. *)
Definition os_path_dirname (p : string) : string :=
  let head := upto_last_sep p in
  if bool_decide (head ≠ EmptyString)
     && bool_decide (rstrip_sep head ≠ EmptyString)
  then rstrip_sep head else head.

(** [os.path.join] of two paths, as [posixpath] has it. *)
Definition os_path_join (a b : string) : string :=
  if startswith "/" b then b
  else if bool_decide (a = EmptyString)
          || bool_decide (rstrip_sep a ≠ a)
       then a +:+ b
       else a +:+ "/" +:+ b.

(** Line boundaries of [str.splitlines] among the code points 0..255. *)
Definition is_line_boundary (c : ascii) : bool :=
  let n := nat_of_ascii c in
  ((10 <=? n)%nat && (n <=? 13)%nat) || ((28 <=? n)%nat && (n <=? 30)%nat)
  || (n =? 133)%nat.

(** [s.splitlines()]; [after_cr] says that the character before was a
    carriage return, whose line feed belongs to the same boundary. *)
Fixpoint splitlines_from (after_cr : bool) (s : string) : list string :=
  match s with
  | EmptyString => []
  | String c s' =>
      if after_cr && bool_decide (c = LF) then splitlines_from false s'
      else if is_line_boundary c
           then EmptyString :: splitlines_from (bool_decide (c = CR)) s'
           else match splitlines_from false s' with
                | [] => [String c EmptyString]
                | line :: lines => String c line :: lines
                end
  end.
Definition splitlines (s : string) : list string := splitlines_from false s.

(** ** [generator]: finding the automodules entries *)

(** Values of the local [private_members]: it starts as [False], a
    directive line sets it to [None], the option to a string. *)
Inductive py_value := PyFalse | PyNone | PyStr (s : string).

Global Instance py_value_eq_dec : EqDecision py_value.
Proof. solve_decision. Defined.

Module AutomodulesEntry.
Record t := {
  name : string;
  path : option string;
  members : option string;
  exclude_members : string;
  private_members : py_value
}.
End AutomodulesEntry.

Global Instance AutomodulesEntry_eq_dec : EqDecision AutomodulesEntry.t.
Proof. solve_decision. Defined.

(** The classes [[_a-zA-Z]] and [[a-zA-Z0-9_./]]. *)
Definition is_letter (c : ascii) : bool :=
  let n := nat_of_ascii c in
  ((65 <=? n)%nat && (n <=? 90)%nat) || ((97 <=? n)%nat && (n <=? 122)%nat).
Definition is_name_start (c : ascii) : bool :=
  bool_decide (c = "_"%char) || is_letter c.
Definition is_name_char (c : ascii) : bool :=
  let n := nat_of_ascii c in
  is_letter c || ((48 <=? n)%nat && (n <=? 57)%nat)
  || bool_decide (c = "_"%char) || bool_decide (c = "."%char)
  || bool_decide (c = "/"%char).

(** [automodules_re.match(line)], giving group 1.  The pattern is, with
    blanks between its parts, [^ ( \s* ) \.\. \s+ js:automodules:: \s*].
    White space cannot stand for the literal that follows it, so each greedy
    run of white space is the longest one. *)
Definition automodules_re (line : string) : option string :=
  let n := count_while is_space line in
  let r := str_drop n line in
  if startswith ".." r then
    let r1 := str_drop 2 r in
    let k := count_while is_space r1 in
    if (0 <? k)%nat && startswith "js:automodules::" (str_drop k r1)
    then Some (str_take n line) else None
  else None.

(** [automodules_item_re.match(line)], giving group 1.  The pattern is, with
    blanks between its parts, [^ \s+ ( ~? [_a-zA-Z] [a-zA-Z0-9_./]* ) \s* .*?]:
    after the leading white space an optional tilde, a letter or underscore,
    and the longest run of name characters; what follows always matches. *)
Definition automodules_item_re (line : string) : option string :=
  let n := count_while is_space line in
  let r := str_drop n line in
  if (0 <? n)%nat then
    let t := if startswith "~" r then 1 else 0 in
    match str_drop t r with
    | String c r2 =>
        if is_name_start c
        then Some (str_take (t + 1 + count_while is_name_char r2) r)
        else None
    | EmptyString => None
    end
  else None.

(** The four option patterns, [^ \s+ :opt: \s* ( .*? ) \s* $] with blanks
    between the parts, matched against [line] and giving group 1, for the
    option name [opt].  After the option name the pattern asks for white
    space, a shortest run of characters other than newline, white space, and
    the end: the group is what is left of the rest when the white space at
    both ends is taken away, and there is a match when that has no newline
    in it. *)
Definition arg_re (opt : string) (line : string) : option string :=
  let n := count_while is_space line in
  let r := str_drop n line in
  let key := ":" +:+ opt +:+ ":" in
  if (0 <? n)%nat && startswith key r then
    let group := strip (str_drop (String.length key) r) in
    if contains LF group then None else Some group
  else None.

Definition toctree_arg_re := arg_re "toctree".
Definition members_arg_re := arg_re "members".
Definition exclude_members_arg_re := arg_re "exclude-members".
Definition private_members_arg_re := arg_re "private-members".

(** The local variables of [find_automodules_in_lines]. *)
Module Locals.
Record t := {
  documented : list AutomodulesEntry.t;
  toctree : option string;
  members : option string;
  exclude_members : string;
  private_members : py_value;
  in_automodules : bool;
  base_indent : string
}.
End Locals.

(** Their values before the loop. *)
Definition locals_init : Locals.t :=
  {| Locals.documented := [];
     Locals.toctree := None;
     Locals.members := None;
     Locals.exclude_members := EmptyString;
     Locals.private_members := PyFalse;
     Locals.in_automodules := false;
     Locals.base_indent := EmptyString |}.

(** The end of the loop body: a directive line opens a block and resets
    the options. *)
Definition open_block (st : Locals.t) (line : string) : Locals.t :=
  match automodules_re line with
  | Some group1 =>
      {| Locals.documented := Locals.documented st;
         Locals.toctree := Some "_automodules";
         Locals.members := None;
         Locals.exclude_members := EmptyString;
         Locals.private_members := PyNone;
         Locals.in_automodules := true;
         Locals.base_indent := group1 |}
  | None => st
  end.

(** One turn of the loop over the lines. *)
Definition scan_line (filename : option string) (st : Locals.t)
    (line : string) : Locals.t :=
  if Locals.in_automodules st then
    match toctree_arg_re line with
    | Some group1 =>
        let toctree :=
          if py_bool_str filename
          then os_path_join
                 (os_path_dirname (default EmptyString filename)) group1
          else group1 in
        {| Locals.documented := Locals.documented st;
           Locals.toctree := Some toctree;
           Locals.members := Locals.members st;
           Locals.exclude_members := Locals.exclude_members st;
           Locals.private_members := Locals.private_members st;
           Locals.in_automodules := true;
           Locals.base_indent := Locals.base_indent st |}
    | None =>
    match members_arg_re line with
    | Some group1 =>
        {| Locals.documented := Locals.documented st;
           Locals.toctree := Locals.toctree st;
           Locals.members := Some (strip group1);
           Locals.exclude_members := Locals.exclude_members st;
           Locals.private_members := Locals.private_members st;
           Locals.in_automodules := true;
           Locals.base_indent := Locals.base_indent st |}
    | None =>
    match exclude_members_arg_re line with
    | Some group1 =>
        {| Locals.documented := Locals.documented st;
           Locals.toctree := Locals.toctree st;
           Locals.members := Locals.members st;
           Locals.exclude_members := strip group1;
           Locals.private_members := Locals.private_members st;
           Locals.in_automodules := true;
           Locals.base_indent := Locals.base_indent st |}
    | None =>
    match private_members_arg_re line with
    | Some group1 =>
        {| Locals.documented := Locals.documented st;
           Locals.toctree := Locals.toctree st;
           Locals.members := Locals.members st;
           Locals.exclude_members := Locals.exclude_members st;
           Locals.private_members := PyStr (strip group1);
           Locals.in_automodules := true;
           Locals.base_indent := Locals.base_indent st |}
    | None =>
    if startswith ":" (strip line) then st
    else
    match automodules_item_re line with
    | Some group1 =>
        let name := strip group1 in
        {| Locals.documented :=
             Locals.documented st
             ++ [{| AutomodulesEntry.name := name;
                    AutomodulesEntry.path := Locals.toctree st;
                    AutomodulesEntry.members := Locals.members st;
                    AutomodulesEntry.exclude_members :=
                      Locals.exclude_members st;
                    AutomodulesEntry.private_members :=
                      Locals.private_members st |}];
           Locals.toctree := Locals.toctree st;
           Locals.members := Locals.members st;
           Locals.exclude_members := Locals.exclude_members st;
           Locals.private_members := Locals.private_members st;
           Locals.in_automodules := true;
           Locals.base_indent := Locals.base_indent st |}
    | None =>
    if bool_decide (strip line = EmptyString)
       || startswith (Locals.base_indent st +:+ " ") line
    then st
    else
      open_block
        {| Locals.documented := Locals.documented st;
           Locals.toctree := Locals.toctree st;
           Locals.members := Locals.members st;
           Locals.exclude_members := Locals.exclude_members st;
           Locals.private_members := Locals.private_members st;
           Locals.in_automodules := false;
           Locals.base_indent := Locals.base_indent st |}
        line
    end end end end end
  else open_block st line.

(** [find_automodules_in_lines(lines, module, filename)] *)
Definition find_automodules_in_lines (lines : list string)
    (module : option string) (filename : option string)
  : list AutomodulesEntry.t :=
  Locals.documented (foldl (scan_line filename) locals_init lines).

(** The names the item pattern accepts: an optional tilde, a letter or an
    underscore, then name characters. *)
Definition is_item_name (item : string) : Prop :=
  ∃ c s, (item = String c s ∨ item = String "~" (String c s))
         ∧ is_name_start c = true ∧ all_of is_name_char s.

(** *** The lines as the loop keeps them

    The loop tests a line for the options, for a leading colon and for an
    item before it looks at the indentation.  [stays_in_block] and
    [entries_by_stay] put that order of the tests into one reading of the
    lines; they serve the proofs below and are no part of what is claimed
    about the blocks. *)

(** The lines after which the loop leaves [in_automodules] on: a line
    that starts with a colon after its indentation (the option lines are
    such lines), a line the item pattern matches, a blank line, or a line
    indented by more than [base]. *)
Definition stays_in_block (base : string) (line : string) : bool :=
  startswith ":" (strip line)
  || bool_decide (is_Some (automodules_item_re line))
  || bool_decide (strip line = EmptyString)
  || startswith (base +:+ " ") line.

(** The value of the last line of [earlier] that the pattern [re] matches,
    [absent] when there is none. *)
Definition last_option {A} (re : string → option string)
    (value : string → A) (absent : A) (earlier : list string) : A :=
  default absent (last (omap (λ line, value <$> re line) earlier)).

(** The entry of an item line, from the lines of its block before it.
    [toctree_value] says how the text after [:toctree:] becomes the path
    the entry carries. *)
Definition entry_of (toctree_value : string → string)
    (earlier : list string) (item : string) : AutomodulesEntry.t :=
  {| AutomodulesEntry.name := item;
     AutomodulesEntry.path :=
       Some (last_option toctree_arg_re toctree_value "_automodules" earlier);
     AutomodulesEntry.members :=
       last_option members_arg_re (λ v, Some v) None earlier;
     AutomodulesEntry.exclude_members :=
       last_option exclude_members_arg_re id EmptyString earlier;
     AutomodulesEntry.private_members :=
       last_option private_members_arg_re PyStr PyNone earlier |}.

(** The entries along the lines that the loop keeps.  [block] is [None]
    when [in_automodules] is off; otherwise it holds the base indentation
    and the lines kept so far since the directive line. *)
Fixpoint entries_by_stay (toctree_value : string → string)
    (block : option (string * list string)) (lines : list string)
  : list AutomodulesEntry.t :=
  match lines with
  | [] => []
  | line :: lines' =>
      let outside :=
        entries_by_stay toctree_value
          ((λ base, (base, [])) <$> automodules_re line) lines' in
      match block with
      | Some (base, earlier) =>
          if stays_in_block base line then
            match automodules_item_re line with
            | Some item => [entry_of toctree_value earlier item]
            | None => []
            end
            ++ entries_by_stay toctree_value
                 (Some (base, earlier ++ [line])) lines'
          else outside
      | None => outside
      end
  end.

(** *** The block structure of the lines, as the documentation describes it

    These definitions do not follow the loop of the source.  They read the
    lines the way the directive is documented: the block of a directive is
    made of the lines under it that are blank or indented by more than the
    directive; the options and items are looked for in the block only. *)

(** A line that belongs to the block of a directive of indentation
    [base]: a blank line, or a line that starts with [base] and one more
    space. *)
Definition in_block (base : string) (line : string) : bool :=
  bool_decide (strip line = EmptyString) || startswith (base +:+ " ") line.

(** Reading the lines block by block.  [block] is [None] outside a block
    and inside one holds the base indentation and the lines of the block
    read so far.  A block is opened by a directive line outside any block
    and goes on as long as the lines belong to it; every item line in it
    gives one entry. *)
Fixpoint entries_by_block (toctree_value : string → string)
    (block : option (string * list string)) (lines : list string)
  : list AutomodulesEntry.t :=
  match lines with
  | [] => []
  | line :: lines' =>
      let outside :=
        entries_by_block toctree_value
          ((λ base, (base, [])) <$> automodules_re line) lines' in
      match block with
      | Some (base, earlier) =>
          if in_block base line then
            match automodules_item_re line with
            | Some item => [entry_of toctree_value earlier item]
            | None => []
            end
            ++ entries_by_block toctree_value
                 (Some (base, earlier ++ [line])) lines'
          else outside
      | None => outside
      end
  end.

(** The lines keep to their blocks: the line that ends a block, being
    neither blank nor indented by more than the directive, does not start
    with a colon after white space and is no line that the item pattern
    matches.  [block] is the base indentation of the block that is open,
    [None] outside a block. *)
Fixpoint keeps_to_blocks (block : option string) (lines : list string)
  : bool :=
  match lines with
  | [] => true
  | line :: lines' =>
      match block with
      | Some base =>
          if in_block base line then keeps_to_blocks (Some base) lines'
          else negb (startswith ":" (strip line))
               && bool_decide (automodules_item_re line = None)
               && keeps_to_blocks (automodules_re line) lines'
      | None => keeps_to_blocks (automodules_re line) lines'
      end
  end.

(** The path an entry carries for the text [value] after [:toctree:]:
    with a file name it is taken relative to the directory of the file. *)
Definition toctree_path (filename : option string) (value : string)
  : string :=
  if py_bool_str filename
  then os_path_join (os_path_dirname (default EmptyString filename)) value
  else value.

(** The local variables agree with a position in the lines as the loop
    keeps them: the flag is off for [None]; otherwise the flag is on, the
    base indentation is that of the directive line, and every option
    variable holds what the lines kept so far say. *)
Definition in_state (toctree_value : string → string) (st : Locals.t)
    (block : option (string * list string)) : Prop :=
  match block with
  | None => Locals.in_automodules st = false
  | Some (base, earlier) =>
      Locals.in_automodules st = true
      ∧ Locals.base_indent st = base
      ∧ Locals.toctree st
        = Some (last_option toctree_arg_re toctree_value "_automodules"
                  earlier)
      ∧ Locals.members st
        = last_option members_arg_re (λ v, Some v) None earlier
      ∧ Locals.exclude_members st
        = last_option exclude_members_arg_re id EmptyString earlier
      ∧ Locals.private_members st
        = last_option private_members_arg_re PyStr PyNone earlier
  end.

(** ** [generator]: writing the stub files *)

Inductive level := INFO | WARNING.

(** What the generator changes: the regular files with their text, the
    directories it makes, the log, and the application attribute
    [generated_automodules_docs]. *)
Module World.
Record t := {
  files : gmap string string;
  dirs : gset string;
  log : list (level * string);
  generated_automodules_docs : list (string * string * string * string)
}.
End World.

(** What the generator reads of the application object: the build
    environment, the configuration, the registry of parsers (suffix to the
    formats its parser supports) and the analyzer. *)
Module Sphinx.
Record t := {
  found_docs : list string;
  doc2path : string → bool → string;
  srcdir : string;
  source_suffix : list string;
  source_parsers : gmap string (list string);
  source_encoding : string;
  resolve_name : string → list Obj
}.
End Sphinx.

(** What comes from the interpreter and the host framework: the path made
    absolute, [str] of an entry, the template of a module stub, and the
    log prefix in bold. *)
Class Host := {
  os_path_abspath : string → string;
  str_entry : AutomodulesEntry.t → string;
  template_rst : list string → AutomodulesEntry.t → bool → string;
  prefix : string
}.

Definition logger (lvl : level) (msg : string) (w : World.t) : World.t :=
  {| World.files := World.files w;
     World.dirs := World.dirs w;
     World.log := World.log w ++ [(lvl, msg)];
     World.generated_automodules_docs := World.generated_automodules_docs w |}.

(** [open(filename, 'w').write(content)] *)
Definition write (filename content : string) (w : World.t) : World.t :=
  {| World.files := <[filename := content]> (World.files w);
     World.dirs := World.dirs w;
     World.log := World.log w;
     World.generated_automodules_docs := World.generated_automodules_docs w |}.

Definition ensuredir (path : string) (w : World.t) : World.t :=
  {| World.files := World.files w;
     World.dirs := {[ path ]} ∪ World.dirs w;
     World.log := World.log w;
     World.generated_automodules_docs := World.generated_automodules_docs w |}.

Definition set_generated (docs : list (string * string * string * string))
    (w : World.t) : World.t :=
  {| World.files := World.files w;
     World.dirs := World.dirs w;
     World.log := World.log w;
     World.generated_automodules_docs := docs |}.

(** [os.path.isfile] *)
Definition isfile (filename : string) (w : World.t) : bool :=
  bool_decide (is_Some (World.files w !! filename)).

Definition get_supported_format (app : Sphinx.t) (suffix : string)
  : list string :=
  match Sphinx.source_parsers app !! suffix with
  | None => ["restructuredtext"]
  | Some supported => supported
  end.

(** The loop of [get_rst_suffix] over the configured suffixes. *)
Fixpoint first_rst_suffix (app : Sphinx.t) (suffixes : list string)
  : option string :=
  match suffixes with
  | [] => None
  | suffix :: suffixes' =>
      if decide ("restructuredtext" ∈ get_supported_format app suffix)
      then Some suffix
      else first_rst_suffix app suffixes'
  end.

Definition get_rst_suffix (app : Sphinx.t) : option string :=
  first_rst_suffix app (Sphinx.source_suffix app).

(** Find out what items are documented in the files. *)
Fixpoint find_automodules_in_files (filenames : list string) (w : World.t)
  : result (list AutomodulesEntry.t) :=
  match filenames with
  | [] => Ok []
  | filename :: filenames' =>
      match World.files w !! filename with
      | None => Raise (FileNotFoundError filename)
      | Some text =>
          let lines := splitlines text in
          rest ← find_automodules_in_files filenames' w;
          Ok (find_automodules_in_lines lines None (Some filename) ++ rest)
      end
  end.

(** The documents of the build environment that are files, as paths
    relative to the source directory. *)
Definition found_sources (app : Sphinx.t) (w : World.t) : list string :=
  (λ x, Sphinx.doc2path app x false)
  <$> filter (λ x, isfile (Sphinx.doc2path app x true) w = true)
        (Sphinx.found_docs app).

Section generate.
Context `{Host}.

(** The body of the loop over the modules of an entry.  A stub file is a
    regular file of the world: [os.path.isfile(filename)] holds when the
    world has a text for [filename], which is then what reading it gives. *)
Definition generate_stub (suffix : string) (overwrite : bool)
    (entry : AutomodulesEntry.t) (path : string)
    (w : World.t) (module : Obj) : World.t :=
  if substring_of (obj_name module) (AutomodulesEntry.exclude_members entry)
  then w
  else
    let content := template_rst [obj_name module] entry true in
    let filename := os_path_join path (obj_name module +:+ suffix) in
    let doc := (filename, path, obj_name module, suffix) in
    let append w :=
      set_generated (World.generated_automodules_docs w ++ [doc]) w in
    let generated w :=
      logger INFO
        (prefix +:+ "generated automodule stub file: "
         +:+ obj_name module +:+ suffix)
        (append w) in
    match World.files w !! filename with
    | Some old_content =>
        if decide (content = old_content) then
          logger INFO
            (prefix +:+ "automodule stub file " +:+ obj_name module
             +:+ suffix +:+ " is already up-to-date")
            (append w)
        else if overwrite then generated (write filename content w)
        else generated w
    | None => generated (write filename content w)
    end.

(** The body of the loop over the entries. *)
Definition generate_entry (app : Sphinx.t) (suffix : string)
    (overwrite : bool) (w : World.t) (entry : AutomodulesEntry.t)
  : result World.t :=
  match AutomodulesEntry.path entry with
  | None => Raise TypeError
  | Some entry_path =>
      let path := os_path_abspath entry_path in
      let w := ensuredir path w in
      let modules := Sphinx.resolve_name app (AutomodulesEntry.name entry) in
      Ok (foldl (generate_stub suffix overwrite entry path) w modules)
  end.

Fixpoint generate_entries (app : Sphinx.t) (suffix : string)
    (overwrite : bool) (entries : list AutomodulesEntry.t) (w : World.t)
  : result World.t :=
  match entries with
  | [] => Ok w
  | entry :: entries' =>
      w' ← generate_entry app suffix overwrite w entry;
      generate_entries app suffix overwrite entries' w'
  end.

Definition generate_automodules_docs (sources : list string)
    (suffix : string) (base_path : option string) (app : Sphinx.t)
    (overwrite : bool) (encoding : string) (w : World.t) : result World.t :=
  let showed_sources := sorted id sources in
  let showed_sources :=
    if (20 <? length showed_sources)%nat
    then take 10 showed_sources ++ ["..."]
         ++ drop (length showed_sources - 10) showed_sources
    else showed_sources in
  let w :=
    logger INFO
      (prefix +:+ "generating automodules for: "
       +:+ join ", " showed_sources) w in
  let sources :=
    match base_path with
    | Some base => os_path_join base <$> sources
    | None => sources
    end in
  items ← find_automodules_in_files sources w;
  let w := set_generated [] w in
  generate_entries app suffix overwrite
    (sorted str_entry (remove_dups items)) w.

Definition process_automodules (app : Sphinx.t) (w : World.t)
  : result World.t :=
  let sources := found_sources app w in
  if bool_decide (sources = []) then Ok w
  else
    match get_rst_suffix app with
    | None =>
        Ok (logger WARNING
              (prefix +:+ "automodules generats .rst files internally. "
               +:+ "But your source_suffix does not contain .rst. Skipped.")
              w)
    | Some suffix =>
        generate_automodules_docs sources suffix (Some (Sphinx.srcdir app))
          app true (Sphinx.source_encoding app) w
    end.
End generate.

(** The warning of [process_automodules]. *)
Definition no_rst_warning `{Host} : level * string :=
  (WARNING,
   prefix +:+ "automodules generats .rst files internally. "
   +:+ "But your source_suffix does not contain .rst. Skipped.").

(** *** Examples *)

Definition example_host : Host :=
  {| os_path_abspath p := os_path_join "/project" p;
     str_entry := AutomodulesEntry.name;
     template_rst names entry use_short_name :=
       ".. js:automodule:: " +:+ join "." names;
     prefix := "Sphinx-js [Automodules]: " |}.

(** A project whose only source suffix belongs to a Markdown parser. *)
Definition markdown_app (docs : list string) : Sphinx.t :=
  {| Sphinx.found_docs := docs;
     Sphinx.doc2path docname base :=
       (if base then "/project/" else EmptyString) +:+ docname +:+ ".md";
     Sphinx.srcdir := "/project";
     Sphinx.source_suffix := [".md"];
     Sphinx.source_parsers := {[ ".md" := ["markdown"] ]};
     Sphinx.source_encoding := "utf-8";
     Sphinx.resolve_name n := [] |}.

Definition example_world (files : gmap string string) : World.t :=
  {| World.files := files;
     World.dirs := ∅;
     World.log := [];
     World.generated_automodules_docs := [] |}.

Definition example_entry (exclude : string) : AutomodulesEntry.t :=
  {| AutomodulesEntry.name := "lib";
     AutomodulesEntry.path := Some "_automodules";
     AutomodulesEntry.members := None;
     AutomodulesEntry.exclude_members := exclude;
     AutomodulesEntry.private_members := PyNone |}.

Definition example_module : Obj := {| obj_name := "util"; members := [] |}.


(** * More of the package *)

(** ** Vocabulary for the statements about the generator *)

(** The suffix has no registered parser, or one that reads
    reStructuredText. *)
Definition supports_rst (app : Sphinx.t) (suffix : string) : Prop :=
  "restructuredtext" ∈ get_supported_format app suffix.

(** The record of a stub in [generated_automodules_docs]. *)
Definition stub_doc (suffix path : string) (module : Obj)
  : string * string * string * string :=
  (os_path_join path (obj_name module +:+ suffix), path, obj_name module,
   suffix).

(** The module is not skipped by the entry's [exclude_members]. *)
Definition not_skipped (entry : AutomodulesEntry.t) (module : Obj) : Prop :=
  substring_of (obj_name module) (AutomodulesEntry.exclude_members entry)
  = false.

(** The entries of one source file of the world, [[]] when it is missing. *)
Definition entries_of_file (w : World.t) (filename : string)
  : list AutomodulesEntry.t :=
  match World.files w !! filename with
  | Some text =>
      find_automodules_in_lines (splitlines text) None (Some filename)
  | None => []
  end.

Global Instance not_skipped_dec (entry : AutomodulesEntry.t) (module : Obj) :
  Decision (not_skipped entry module).
Proof. unfold not_skipped. apply _. Defined.

(** The text of the stub of a module. *)
Definition stub_content `{Host} (entry : AutomodulesEntry.t) (module : Obj)
  : string :=
  template_rst [obj_name module] entry true.

(** The file name of the stub of a module. *)
Definition stub_filename (suffix path : string) (module : Obj) : string :=
  os_path_join path (obj_name module +:+ suffix).

(** A record of [generated_automodules_docs] is well formed in a world:
    its file is there, and its file name is made of its path, its module
    name and its suffix, which is [suffix]. *)
Definition recorded_stub (suffix : string) (w : World.t)
    (doc : string * string * string * string) : Prop :=
  let '(filename, path, name, doc_suffix) := doc in
  is_Some (World.files w !! filename)
  ∧ filename = os_path_join path (name +:+ doc_suffix)
  ∧ doc_suffix = suffix.

(** The records of the stubs of an entry: those of the modules its name
    resolves to that are not skipped, under the absolute path of the
    entry. *)
Definition entry_stubs `{Host} (app : Sphinx.t) (suffix : string)
    (entry : AutomodulesEntry.t)
  : list (string * string * string * string) :=
  match AutomodulesEntry.path entry with
  | Some entry_path =>
      stub_doc suffix (os_path_abspath entry_path)
      <$> filter (not_skipped entry)
            (Sphinx.resolve_name app (AutomodulesEntry.name entry))
  | None => []
  end.

(** The sources as [generate_automodules_docs] opens them. *)
Definition based_sources (base_path : option string) (sources : list string)
  : list string :=
  match base_path with
  | Some base => os_path_join base <$> sources
  | None => sources
  end.

(** A project with one reStructuredText source that asks for the stubs of
    the modules under [lib]. *)
Definition rst_app : Sphinx.t :=
  {| Sphinx.found_docs := ["index"];
     Sphinx.doc2path docname base :=
       (if base then "/project/" else EmptyString) +:+ docname +:+ ".rst";
     Sphinx.srcdir := "/project";
     Sphinx.source_suffix := [".rst"];
     Sphinx.source_parsers := ∅;
     Sphinx.source_encoding := "utf-8";
     Sphinx.resolve_name n := [example_module] |}.

Definition rst_world : World.t :=
  example_world
    {[ "/project/index.rst" :=
         ".. js:automodules::" +:+ String LF "   :toctree: api"
         +:+ String LF (String LF "   lib") ]}.

(** The world a run returns, the given one when it raises. *)
Definition world_after (run : result World.t) (w : World.t) : World.t :=
  match run with
  | Ok w' => w'
  | Raise _ => w
  end.

(** ** [renderers.JsRenderer._formal_params] *)

(** What [_formal_params] reads of a parameter of the IR. *)
Module Param.
Record t := {
  name : string;
  is_variadic : bool;
  has_default : bool;
  default : string
}.
End Param.

(** The name under which a parameter is listed: the part of its name in
    front of the first dot, with three dots in front when it is variadic. *)
Definition formal_name (param : Param.t) : string :=
  let name := hd EmptyString (split "." (Param.name param)) in
  if Param.is_variadic param then "..." +:+ name else name.

(** The text of a listed parameter. *)
Definition formal_text (param : Param.t) : string :=
  if negb (Param.has_default param) then formal_name param
  else formal_name param +:+ "=" +:+ Param.default param.

(** One turn of the loop over [obj.params], on [formals] and
    [used_names]. *)
Definition formal_params_step (acc : list string * gset string)
    (param : Param.t) : list string * gset string :=
  let '(formals, used_names) := acc in
  let name := formal_name param in
  if decide (name ∉ used_names)
  then (formals ++ [formal_text param], {[ name ]} ∪ used_names)
  else acc.

Definition _formal_params (_explicit_formal_params : string)
    (params : list Param.t) : string :=
  if py_bool_str (Some _explicit_formal_params) then _explicit_formal_params
  else
    let '(formals, used_names) := foldl formal_params_step ([], ∅) params in
    "(" +:+ join ", " formals +:+ ")".

(** The parameters that are listed: of each name the first parameter. *)
Fixpoint first_of_each_name (seen : gset string) (params : list Param.t)
  : list Param.t :=
  match params with
  | [] => []
  | param :: params' =>
      if decide (formal_name param ∉ seen)
      then param
           :: first_of_each_name ({[ formal_name param ]} ∪ seen) params'
      else first_of_each_name seen params'
  end.

(** ** The [members] option of the directives *)

(** The converter of the option [members] in [directives.py]. *)
Definition members_option (members : option string) : option (list string) :=
  if py_bool_str members
  then Some (strip <$> split "," (default EmptyString members))
  else None.

(** ** [renderers.JsRenderer._prepare_see_alsos] *)

(** [s.split(sep)] for a separator that is not empty: the separators are
    found from the left and do not overlap; [skip] counts the characters of
    a separator still to pass. *)
Fixpoint split_str_from (skip : nat) (sep s : string) : list string :=
  match s with
  | EmptyString => [EmptyString]
  | String c s' =>
      match skip with
      | S k => split_str_from k sep s'
      | 0 =>
          if startswith sep s
          then EmptyString :: split_str_from (String.length sep - 1) sep s'
          else match split_str_from 0 sep s' with
               | [] => [String c EmptyString]
               | field :: fields => String c field :: fields
               end
      end
  end.
Definition split_str (sep s : string) : list string := split_str_from 0 sep s.

(** [s[1:-1]] *)
Definition inner (s : string) : string :=
  str_take (String.length s - 2) (str_drop 1 s).

Module SeeAlsos.
Record t := { internal : list string; external : list string }.
End SeeAlsos.

Definition link_synonmys : list string := ["@linkplain"; "@linkcode"; "@link"].

(** The loop over the synonyms for a reference: the text it appends to the
    external links at the first synonym found in [ref], [None] when it ends
    without one. *)
Fixpoint external_reference (ref : string) (synonyms : list string)
  : option string :=
  match synonyms with
  | [] => None
  | synonym :: synonyms' =>
      if negb (substring_of synonym ref)
      then external_reference ref synonyms'
      else Some (strip (inner (join EmptyString (split_str synonym ref))))
  end.

Definition see_alsos_step (map_see_alsos : SeeAlsos.t) (ref : option string)
  : SeeAlsos.t :=
  match ref with
  | None => map_see_alsos
  | Some ref =>
      if substring_of (default EmptyString (last link_synonmys)) ref then
        match external_reference ref link_synonmys with
        | Some reference =>
            {| SeeAlsos.internal := SeeAlsos.internal map_see_alsos;
               SeeAlsos.external :=
                 SeeAlsos.external map_see_alsos ++ [reference] |}
        | None => map_see_alsos
        end
      else
        {| SeeAlsos.internal := SeeAlsos.internal map_see_alsos ++ [ref];
           SeeAlsos.external := SeeAlsos.external map_see_alsos |}
  end.

Definition _prepare_see_alsos (see_alsos : list (option string))
  : SeeAlsos.t :=
  foldl see_alsos_step
    {| SeeAlsos.internal := []; SeeAlsos.external := [] |} see_alsos.

(** A reference is an inline link. *)
Definition is_link (ref : string) : Prop := substring_of "@link" ref = true.

Global Instance is_link_dec (ref : string) : Decision (is_link ref).
Proof. unfold is_link. apply _. Defined.

(** A name as it stands in a list of names: not empty, without comma and
    without white space around it. *)
Definition plain_name (n : string) : Prop :=
  n ≠ EmptyString ∧ contains "," n = false ∧ strip n = n.

(** ** [renderers.JsRenderer._default_options] *)

(** The values of the options of a directive, as the converters of
    [directives.py] give them: [None] for a flag and for a [members]
    without names, a list of names for [members], a set of names for
    [exclude-members], and the text as it is written for [toctree] and
    [template]. *)
Inductive option_value :=
  | OptNone
  | OptList (names : list string)
  | OptSet (names : gset string)
  | OptStr (text : string).

(** The values of [js_autodoc_default_options] in the configuration, as
    far as the method tells them apart: [None], a truth value, a whole
    number, a text, a list. *)
Inductive config_value :=
  | CfgNone
  | CfgBool (b : bool)
  | CfgInt (n : Z)
  | CfgStr (text : string)
  | CfgList (names : list string).

(** [val in [True, None, '1']], with the equality of Python, for which the
    number one equals [True]. *)
Definition turns_on (val : config_value) : bool :=
  match val with
  | CfgNone => true
  | CfgBool b => b
  | CfgInt n => bool_decide (n = 1%Z)
  | CfgStr text => bool_decide (text = "1")
  | CfgList _ => false
  end.

(** One turn of the loop over [options], on the dictionary
    [options_active]. *)
Definition default_options_step
    (config_default_options : gmap string config_value)
    (extendable_options : list string)
    (options_active : gmap string option_value) (name : string)
  : gmap string option_value :=
  match config_default_options !! name with
  | None => options_active
  | Some val =>
      match options_active !! name with
      | Some active =>
          match val, active with
          | CfgStr text, OptList names =>
              if decide (name ∈ extendable_options)
              then <[name := OptList (names ++ (strip <$> split "," text))]>
                     options_active
              else options_active
          | _, _ => options_active
          end
      | None =>
          if turns_on val then <[name := OptNone]> options_active
          else options_active
      end
  end.

Definition _default_options
    (config_default_options : gmap string config_value)
    (_options : gmap string option_value) : gmap string option_value :=
  let options := ["members"; "private-members"] in
  let extendable_options := ["members"] in
  foldl (default_options_step config_default_options extendable_options)
    _options options.

(** ** [renderers.AutoModulesRenderer.render_toc] *)

Inductive toc_exception :=
  | AttributeError (attribute : string)
  | KeyError (key : string)
  | NotIterable
  | UnboundLocalError (variable : string).

Inductive outcome (A : Type) :=
  | Returns (a : A)
  | Raises (e : toc_exception).
Global Arguments Returns {A} a.
Global Arguments Raises {A} e.

Module Toctree.
Record t := {
  includefiles : list string;
  entries : list (option string * string);
  maxdepth : Z;
  glob : option bool
}.
End Toctree.

(** The node that is returned: a comment node around the toctree. *)
Inductive toc_node :=
  | automodulestoctree (rawsource text : string) (child : Toctree.t).

(** What [render_toc] reads of the renderer and of the build
    environment. *)
Module AutoModulesRenderer.
Record t := {
  _content : list string;
  _options : gmap string option_value;
  docname : string
}.
End AutoModulesRenderer.

(** [x in v] for the value of an option; [None] is no container
    ([TypeError], here [None]). *)
Definition py_in (x : string) (v : option_value) : option bool :=
  match v with
  | OptNone => None
  | OptList names => Some (bool_decide (x ∈ names))
  | OptSet names => Some (bool_decide (x ∈ names))
  | OptStr text => Some (substring_of x text)
  end.

(** The list comprehension that filters the generated stub files; the
    second test is made only when the first holds. *)
Fixpoint select_docs (modules : list string) (excluded : option_value)
    (docs : list (string * string * string * string))
  : outcome (list (string * string * string * string)) :=
  match docs with
  | [] => Returns []
  | doc :: docs' =>
      let kept : option bool :=
        if decide (doc.1.2 ∈ modules)
        then negb <$> py_in doc.1.2 excluded
        else Some false in
      match kept with
      | None => Raises NotIterable
      | Some kept =>
          match select_docs modules excluded docs' with
          | Raises e => Raises e
          | Returns rest =>
              Returns (if kept : bool then doc :: rest else rest)
          end
      end
  end.

Section render_toc.
(** [posixpath.normpath], the log prefix of [renderers.py] and the
    translation [__] of the host. *)
Variable normpath : string → string.
Variable renderers_prefix : string.
Variable translated : string → string.

(** The document name of a stub. *)
Definition stub_docname (dirname tree_prefix name : string) : string :=
  normpath (os_path_join dirname (os_path_join tree_prefix name)).

(** One turn of the loop over the stub files, on the calls of
    [logger.warning], each with its two arguments, and on [docnames]. *)
Definition toc_step (found_docs : list string) (dirname tree_prefix : string)
    (acc : list (string * string) * list string)
    (doc : string * string * string * string)
  : list (string * string) * list string :=
  let '(warnings, docnames) := acc in
  let '(path, dirpath, name, suffix) := doc in
  let docname := os_path_join tree_prefix name in
  let docname := normpath (os_path_join dirname docname) in
  if decide (docname ∉ found_docs) then
    let msg :=
      translated ("automodule: stub file not found " +:+ name +:+ ".") in
    (warnings ++ [(renderers_prefix, msg)], docnames)
  else (warnings, docnames ++ [docname]).

(** [generated_automodules_docs] is the attribute of the application,
    [None] when the generator has not set it.  The result is the list of
    the calls of [logger.warning] and what the method returns or raises. *)
Definition render_toc (app : Sphinx.t)
    (generated_automodules_docs
       : option (list (string * string * string * string)))
    (self : AutoModulesRenderer.t)
  : list (string * string) * outcome (list toc_node) :=
  match generated_automodules_docs with
  | None => ([], Raises (AttributeError "generated_automodules_docs"))
  | Some docs =>
      let content := AutoModulesRenderer._content self in
      let excluded :=
        default (OptStr EmptyString)
          (AutoModulesRenderer._options self !! "exclude-members") in
      let modules :=
        content ≫= λ module_spec,
          obj_name <$> Sphinx.resolve_name app module_spec in
      match select_docs modules excluded docs with
      | Raises e => ([], Raises e)
      | Returns docs =>
          let dirname := os_path_dirname (AutoModulesRenderer.docname self) in
          match AutoModulesRenderer._options self !! "toctree" with
          | None => ([], Raises (KeyError "toctree"))
          | Some (OptStr text) =>
              let tree_prefix := strip text in
              let '(warnings, docnames) :=
                foldl (toc_step (Sphinx.found_docs app) dirname tree_prefix)
                  ([], []) docs in
              match docnames with
              | _ :: _ =>
                  let tocnode :=
                    {| Toctree.includefiles := docnames;
                       Toctree.entries :=
                         (λ docn, (None, docn)) <$> sorted id docnames;
                       Toctree.maxdepth := (-1)%Z;
                       Toctree.glob := None |} in
                  (warnings,
                   Returns [automodulestoctree EmptyString EmptyString
                              tocnode])
              | [] => (warnings, Raises (UnboundLocalError "tocnode"))
              end
          | Some _ => ([], Raises (AttributeError "strip"))
          end
      end
  end.
End render_toc.

(** The value that [render_toc] takes for [excluded], and the names of the
    modules it resolves from the content. *)
Definition excluded_of (self : AutoModulesRenderer.t) : option_value :=
  default (OptStr EmptyString)
    (AutoModulesRenderer._options self !! "exclude-members").

Definition modules_of (app : Sphinx.t) (self : AutoModulesRenderer.t)
  : list string :=
  AutoModulesRenderer._content self ≫= λ module_spec,
    obj_name <$> Sphinx.resolve_name app module_spec.

(** The stub files that [render_toc] lists: those of the modules that the
    content names, without the excluded ones. *)
Definition listed_stub (modules : list string) (excluded : option_value)
    (doc : string * string * string * string) : Prop :=
  doc.1.2 ∈ modules ∧ py_in doc.1.2 excluded = Some false.

Global Instance listed_stub_dec modules excluded doc :
  Decision (listed_stub modules excluded doc).
Proof. unfold listed_stub. apply _. Defined.

(** The stub file has a document of the build environment. *)
Definition found_stub (normpath : string → string) (found_docs : list string)
    (dirname tree_prefix : string)
    (doc : string * string * string * string) : Prop :=
  stub_docname normpath dirname tree_prefix doc.1.2 ∈ found_docs.

Global Instance found_stub_dec normpath found_docs dirname tree_prefix doc :
  Decision (found_stub normpath found_docs dirname tree_prefix doc).
Proof. unfold found_stub. apply _. Defined.

(** The call of [logger.warning] for a stub file without a document. *)
Definition stub_warning (renderers_prefix : string)
    (translated : string → string)
    (doc : string * string * string * string) : string * string :=
  (renderers_prefix,
   translated ("automodule: stub file not found " +:+ doc.1.2 +:+ ".")).

(** A project with the document of the stub of [example_module] under
    [api], the record of the stub, and directives in the document
    [index]. *)
Definition toc_app : Sphinx.t :=
  {| Sphinx.found_docs := ["index"; "api/util"];
     Sphinx.doc2path docname base :=
       (if base then "/project/" else EmptyString) +:+ docname +:+ ".rst";
     Sphinx.srcdir := "/project";
     Sphinx.source_suffix := [".rst"];
     Sphinx.source_parsers := ∅;
     Sphinx.source_encoding := "utf-8";
     Sphinx.resolve_name n := [example_module] |}.

Definition toc_docs : list (string * string * string * string) :=
  [("/project/api/util.rst", "/project/api", "util", ".rst")].

Definition toc_renderer (_options : gmap string option_value)
  : AutoModulesRenderer.t :=
  {| AutoModulesRenderer._content := ["lib"];
     AutoModulesRenderer._options := _options;
     AutoModulesRenderer.docname := "index" |}.

(** ** Vocabulary for the statements about the info fields *)

(** There is something to say about a parameter: it has a type or a
    description. *)
Definition worth_saying (param : Doclet.t) : Prop :=
  py_bool_str (Doclet.type param) = true
  ∨ py_bool_str (Some (Doclet.description param)) = true.

Global Instance worth_saying_dec (param : Doclet.t) :
  Decision (worth_saying param).
Proof. unfold worth_saying. apply _. Defined.

(** The object without the parameters and properties about which there is
    nothing to say. *)
Definition without_silent (obj : FieldsOf.t) : FieldsOf.t :=
  {| FieldsOf.params := filter worth_saying <$> FieldsOf.params obj;
     FieldsOf.properties := filter worth_saying <$> FieldsOf.properties obj;
     FieldsOf.exceptions := FieldsOf.exceptions obj;
     FieldsOf.returns := FieldsOf.returns obj |}.
(** * Properties *)

(** ** Laws of the ordering *)

Lemma py_lt_iff {A} `{PyOrd A} (x y : A) : py_lt x y = true ↔ py_cmp x y = Lt.
Proof. unfold py_lt. destruct (py_cmp x y); split; congruence. Qed.

Global Instance bool_PyOrdLaws : PyOrdLaws bool.
Proof.
  split.
  - intros [] []; split; intros E; try reflexivity; discriminate E.
  - intros [] []; reflexivity.
  - intros [] [] []; intros E1 E2; try discriminate E1; try discriminate E2;
      reflexivity.
Qed.

Global Instance nat_PyOrdLaws : PyOrdLaws nat.
Proof.
  split; unfold py_cmp, nat_PyOrd.
  - intros x y. apply Nat.compare_eq_iff.
  - intros x y. apply Nat.compare_antisym.
  - intros x y z. rewrite !Nat.compare_lt_iff. lia.
Qed.

Global Instance ascii_PyOrdLaws : PyOrdLaws ascii.
Proof.
  split; unfold py_cmp, ascii_PyOrd.
  - intros x y. rewrite N.compare_eq_iff. split; [|congruence].
    intros E. rewrite <- (ascii_N_embedding x), <- (ascii_N_embedding y).
    congruence.
  - intros x y. apply N.compare_antisym.
  - intros x y z. rewrite !N.compare_lt_iff. lia.
Qed.

Section lexicographic.
Context {A : Type} `{PyOrdLaws A}.

Lemma py_cmp_refl (x : A) : py_cmp x x = Eq.
Proof. by apply py_cmp_eq. Qed.

Lemma py_cmp_gt_lt (x y : A) : py_cmp x y = Gt ↔ py_cmp y x = Lt.
Proof.
  rewrite (py_cmp_opp x y). destruct (py_cmp x y); simpl; split; congruence.
Qed.

Lemma py_le_refl (x : A) : py_le x x.
Proof. unfold py_le. rewrite py_cmp_refl. discriminate. Qed.

Lemma py_le_trans (x y z : A) : py_le x y → py_le y z → py_le x z.
Proof.
  unfold py_le. intros Hxy Hyz.
  destruct (py_cmp x y) eqn:Exy; [| |done].
  - apply py_cmp_eq in Exy. by subst.
  - destruct (py_cmp y z) eqn:Eyz; [| |done].
    + apply py_cmp_eq in Eyz. subst. by rewrite Exy.
    + by rewrite (py_cmp_lt_trans x y z).
Qed.

Lemma py_le_antisym (x y : A) : py_le x y → py_le y x → x = y.
Proof.
  unfold py_le. rewrite (py_cmp_opp x y). intros Hxy Hyx.
  apply py_cmp_eq. destruct (py_cmp x y); simpl in *; done.
Qed.

Lemma py_lt_le (x y : A) : py_lt x y = true → py_le x y.
Proof. rewrite py_lt_iff. unfold py_le. congruence. Qed.

Lemma py_not_lt_le (x y : A) : py_lt y x = false → py_le x y.
Proof.
  unfold py_lt, py_le. rewrite py_cmp_gt_lt.
  destruct (py_cmp y x); congruence.
Qed.

Lemma list_cmp_eq (l1 l2 : list A) : list_cmp l1 l2 = Eq ↔ l1 = l2.
Proof.
  revert l2. induction l1 as [|x l1 IH]; intros [|y l2]; simpl; try done.
  destruct (py_cmp x y) eqn:E.
  - apply py_cmp_eq in E. subst. rewrite IH. split; congruence.
  - split; [done|]. intros [= -> _]. by rewrite py_cmp_refl in E.
  - split; [done|]. intros [= -> _]. by rewrite py_cmp_refl in E.
Qed.

Lemma list_cmp_opp (l1 l2 : list A) : list_cmp l2 l1 = CompOpp (list_cmp l1 l2).
Proof.
  revert l2. induction l1 as [|x l1 IH]; intros [|y l2]; simpl; try done.
  rewrite (py_cmp_opp x y). destruct (py_cmp x y); simpl; auto.
Qed.

Lemma list_cmp_lt_trans (l1 l2 l3 : list A) :
  list_cmp l1 l2 = Lt → list_cmp l2 l3 = Lt → list_cmp l1 l3 = Lt.
Proof.
  revert l2 l3.
  induction l1 as [|x l1 IH]; intros [|y l2] [|z l3]; simpl; try done.
  destruct (py_cmp x y) eqn:Exy; [| |done].
  - apply py_cmp_eq in Exy. subst y.
    destruct (py_cmp x z); [|done..]. apply IH.
  - intros _. destruct (py_cmp y z) eqn:Eyz; [| |done].
    + apply py_cmp_eq in Eyz. subst z. by rewrite Exy.
    + by rewrite (py_cmp_lt_trans x y z).
Qed.

Global Instance list_PyOrdLaws : PyOrdLaws (list A).
Proof.
  split; [apply list_cmp_eq | apply list_cmp_opp | apply list_cmp_lt_trans].
Qed.
End lexicographic.

(** A string compares as the list of its characters. *)
Lemma str_cmp_list (s1 s2 : string) :
  str_cmp s1 s2 = list_cmp (list_ascii_of_string s1) (list_ascii_of_string s2).
Proof.
  revert s2. induction s1 as [|a s1 IH]; intros [|b s2]; simpl; try done.
  by rewrite IH.
Qed.

Lemma list_ascii_of_string_inj (s1 s2 : string) :
  list_ascii_of_string s1 = list_ascii_of_string s2 → s1 = s2.
Proof.
  intros E. rewrite <- (string_of_list_ascii_of_string s1),
    <- (string_of_list_ascii_of_string s2). by rewrite E.
Qed.

Global Instance string_PyOrdLaws : PyOrdLaws string.
Proof.
  split; unfold py_cmp, string_PyOrd; intros *; rewrite !str_cmp_list.
  - rewrite list_cmp_eq. split; [apply list_ascii_of_string_inj | congruence].
  - apply list_cmp_opp.
  - apply list_cmp_lt_trans.
Qed.

Global Instance pair_PyOrdLaws {A B} `{PyOrdLaws A, PyOrdLaws B} :
  PyOrdLaws (A * B).
Proof.
  split; unfold py_cmp, pair_PyOrd.
  - intros [a1 b1] [a2 b2]; simpl. destruct (py_cmp a1 a2) eqn:E.
    + apply py_cmp_eq in E. subst. rewrite py_cmp_eq. split; congruence.
    + split; [done|]. intros [= -> _]. by rewrite py_cmp_refl in E.
    + split; [done|]. intros [= -> _]. by rewrite py_cmp_refl in E.
  - intros [a1 b1] [a2 b2]; simpl. rewrite (py_cmp_opp a1 a2).
    destruct (py_cmp a1 a2); simpl; auto. apply py_cmp_opp.
  - intros [a1 b1] [a2 b2] [a3 b3]; simpl.
    destruct (py_cmp a1 a2) eqn:E12; [| |done].
    + apply py_cmp_eq in E12. subst a2.
      destruct (py_cmp a1 a3); [|done..]. apply py_cmp_lt_trans.
    + intros _. destruct (py_cmp a2 a3) eqn:E23; [| |done].
      * apply py_cmp_eq in E23. subst a3. by rewrite E12.
      * by rewrite (py_cmp_lt_trans a1 a2 a3).
Qed.

(** ** The stable sort *)

Section stable_sort_facts.
Context {A K : Type} `{PyOrdLaws K} (key : A → K).

Lemma insert_by_Permutation (x : A) (l : list A) :
  insert_by key x l ≡ₚ x :: l.
Proof.
  induction l as [|y l IH]; simpl; [done|].
  destruct (py_lt (key y) (key x)); [|done].
  rewrite IH. apply Permutation_swap.
Qed.

Lemma sorted_Permutation (l : list A) : sorted key l ≡ₚ l.
Proof.
  induction l as [|x l IH]; simpl; [done|].
  by rewrite insert_by_Permutation, IH.
Qed.

Lemma insert_by_StronglySorted (x : A) (l : list A) :
  StronglySorted (key_le key) l →
  StronglySorted (key_le key) (insert_by key x l).
Proof.
  induction 1 as [|y l Hl IH Hy]; simpl; [by repeat constructor|].
  destruct (py_lt (key y) (key x)) eqn:E.
  - constructor; [done|]. rewrite insert_by_Permutation.
    constructor; [|done]. by apply py_lt_le.
  - apply py_not_lt_le in E.
    constructor; [by constructor|]. constructor; [done|].
    eapply Forall_impl; [exact Hy|]. intros z Hz.
    by apply (py_le_trans _ (key y)).
Qed.

Lemma sorted_StronglySorted (l : list A) :
  StronglySorted (key_le key) (sorted key l).
Proof.
  induction l as [|x l IH]; simpl; [constructor|].
  by apply insert_by_StronglySorted.
Qed.

(** Elements that satisfy [P] and are never strictly ordered among
    themselves keep their order. *)
Lemma insert_by_filter (P : A → Prop) `{∀ x, Decision (P x)} x l :
  (∀ y, y ∈ l → P x → P y → py_lt (key y) (key x) = false) →
  filter P (insert_by key x l) = filter P (x :: l).
Proof.
  induction l as [|y l IH]; intros Hl; simpl; [done|].
  destruct (py_lt (key y) (key x)) eqn:E; [|done].
  rewrite (filter_cons _ y), IH, !filter_cons.
  - destruct (decide (P x)) as [Hx|]; [|done].
    destruct (decide (P y)) as [Hy|]; [|done].
    rewrite Hl in E; [done|by left|done..].
  - intros z Hz. apply Hl. by right.
Qed.

Lemma sorted_filter_stable (P : A → Prop) `{∀ x, Decision (P x)} l :
  (∀ x y, x ∈ l → y ∈ l → P x → P y → py_lt (key y) (key x) = false) →
  filter P (sorted key l) = filter P l.
Proof.
  induction l as [|x l IH]; intros Hl; simpl; [done|].
  rewrite insert_by_filter.
  - rewrite !filter_cons, IH; [done|].
    intros y z Hy Hz. apply Hl; by right.
  - intros y Hy. apply Hl; [by left|].
    right. by rewrite <- (sorted_Permutation l).
Qed.

Lemma insert_by_app (x : A) (l1 l2 : list A) :
  Forall (λ y, py_lt (key y) (key x) = true) l1 →
  insert_by key x (l1 ++ l2) = l1 ++ insert_by key x l2.
Proof.
  induction 1 as [|y l1 Hy _ IH]; simpl; [done|]. by rewrite Hy, IH.
Qed.

Lemma insert_by_head (x : A) (l : list A) :
  Forall (λ y, py_lt (key y) (key x) = false) l →
  insert_by key x l = x :: l.
Proof. destruct 1 as [|y l Hy _]; simpl; [done|]. by rewrite Hy. Qed.
End stable_sort_facts.

(** Sorting pairs of a key and an element on the key is sorting the elements
    on the function that gives the key. *)
Lemma sorted_decorate {A K} `{PyOrd K} (f : A → K) (l : list A) :
  sorted fst (zip (f <$> l) l) = (λ x, (f x, x)) <$> sorted f l.
Proof.
  unfold sorted. induction l as [|x l IH]; csimpl; [done|]. rewrite IH.
  generalize (foldr (insert_by f) [] l). intros s.
  induction s as [|y s IHs]; csimpl; [done|].
  destruct (py_lt (f y) (f x)); csimpl; [by rewrite IHs|done].
Qed.

Lemma sort_by_key_total {A K} `{PyOrd K} (key : A → option K) (f : A → K) l :
  (∀ x, x ∈ l → key x = Some (f x)) →
  sort_by_key key l = Some (sorted f l).
Proof.
  intros Hl. unfold sort_by_key.
  assert (mapM key l = Some (f <$> l)) as ->.
  { apply mapM_Some. induction l as [|x l IH]; simpl; constructor.
    - apply Hl. by left.
    - apply IH. intros y Hy. apply Hl. by right. }
  cbn [mbind option_bind]. rewrite sorted_decorate, <- list_fmap_compose.
  f_equal. apply list_fmap_id.
Qed.

Lemma bucket_nil {A} (key : A → nat) (ks : list nat) :
  ks ≫= bucket key [] = [].
Proof. induction ks as [|k ks IH]; csimpl; [done|]. by rewrite IH. Qed.

Lemma bucket_fresh {A} (key : A → nat) (x : A) (l : list A) (ks : list nat) :
  key x ∉ ks → ks ≫= bucket key (x :: l) = ks ≫= bucket key l.
Proof.
  induction ks as [|k ks IH]; csimpl; [done|].
  rewrite not_elem_of_cons. intros [Hk Hks]. rewrite IH by done.
  unfold bucket at 1. rewrite filter_cons. by destruct (decide (key x = k)).
Qed.

Lemma bucket_keys {A} (key : A → nat) (l : list A) (ks : list nat) (y : A) :
  y ∈ ks ≫= bucket key l → key y ∈ ks.
Proof.
  intros Hy. apply list_elem_of_bind in Hy as (k & Hy & Hk).
  apply list_elem_of_filter in Hy as [-> _]. done.
Qed.

Lemma sorted_buckets_from {A} (key : A → nat) (l : list A) (a n : nat) :
  (∀ x, x ∈ l → a ≤ key x < a + n) →
  sorted key l = seq a n ≫= bucket key l.
Proof.
  revert a n. induction l as [|x l IH]; intros a n Hl.
  { by rewrite bucket_nil. }
  change (sorted key (x :: l)) with (insert_by key x (sorted key l)).
  rewrite (IH a n) by (intros y Hy; apply Hl; by right).
  assert (a ≤ key x < a + n) as Hx by (apply Hl; by left).
  clear IH Hl. revert a Hx.
  induction n as [|n IHn]; intros a Hx; [lia|].
  cbn [seq]. rewrite !bind_cons. unfold bucket at 3. rewrite filter_cons.
  destruct (decide (key x = a)) as [Ea|Na].
  - rewrite bucket_fresh by (rewrite elem_of_seq; lia).
    apply insert_by_head, Forall_forall. intros y Hy.
    assert (key y ∈ a :: seq (S a) n) as Hk.
    { apply (bucket_keys key l). by rewrite bind_cons. }
    apply elem_of_cons in Hk. rewrite elem_of_seq in Hk.
    unfold py_lt, py_cmp, nat_PyOrd.
    destruct (Nat.compare_spec (key y) (key x)); [done|lia|done].
  - rewrite insert_by_app.
    + f_equal. apply IHn. lia.
    + apply Forall_forall. intros y Hy.
      apply list_elem_of_filter in Hy as [Hy _].
      apply py_lt_iff. apply Nat.compare_lt_iff. lia.
Qed.

Lemma sorted_buckets {A} (key : A → nat) (l : list A) (n : nat) :
  (∀ x, x ∈ l → key x < n) →
  sorted key l = seq 0 n ≫= bucket key l.
Proof.
  intros Hl. apply sorted_buckets_from. intros x Hx. specialize (Hl x Hx). lia.
Qed.

Lemma StronglySorted_weaken {A} (R1 R2 : relation A) (l : list A) :
  (∀ x y, x ∈ l → y ∈ l → R1 x y → R2 x y) →
  StronglySorted R1 l → StronglySorted R2 l.
Proof.
  intros HR Hl. induction Hl as [|x l Hl IH Hx]; constructor.
  - apply IH. intros y z Hy Hz. apply HR; by right.
  - apply Forall_forall. intros y Hy. apply HR; [by left|by right|].
    rewrite Forall_forall in Hx. by apply Hx.
Qed.

(** ** [list.index] *)

Lemma py_index_Some (x : string) (l : list string) (i : nat) :
  py_index x l = Some i → l !! i = Some x ∧ i < length l.
Proof.
  revert i. induction l as [|y l IH]; intros i; simpl; [done|].
  destruct (decide (y = x)) as [->|].
  - intros [= <-]. simpl. split; [done|lia].
  - destruct (py_index x l) as [j|]; [|done]. intros [= <-]. simpl.
    destruct (IH j eq_refl). split; [done|lia].
Qed.

Lemma py_index_None (x : string) (l : list string) :
  py_index x l = None ↔ x ∉ l.
Proof.
  induction l as [|y l IH]; simpl.
  - split; [|done]. intros _. apply not_elem_of_nil.
  - rewrite not_elem_of_cons. destruct (decide (y = x)) as [->|Hne].
    + split; [done|]. by intros [? _].
    + destruct (py_index x l); simpl.
      * split; [done|]. intros [_ Hx]. by apply IH in Hx.
      * split; [|done]. intros _. split; [done|]. by apply IH.
Qed.

Lemma py_index_elem_of (x : string) (l : list string) :
  x ∈ l ↔ is_Some (py_index x l).
Proof.
  rewrite <- not_eq_None_Some, py_index_None.
  split; [tauto|]. apply dec_stable.
Qed.

Lemma py_index_app (x : string) (l1 l2 : list string) :
  py_index x (l1 ++ l2) =
    match py_index x l1 with
    | Some i => Some i
    | None => Nat.add (length l1) <$> py_index x l2
    end.
Proof.
  induction l1 as [|y l1 IH]; simpl.
  - by destruct (py_index x l2).
  - destruct (decide (y = x)); [done|]. rewrite IH.
    destruct (py_index x l1); [done|]. by destruct (py_index x l2).
Qed.

Lemma position_in_Some (l : list string) (m : Member) (i : nat) :
  py_index (name m) l = Some i → position_in l m = i.
Proof. unfold position_in. by intros ->. Qed.

Lemma position_in_lt (l : list string) (m : Member) :
  name m ∈ l → py_index (name m) l = Some (position_in l m)
                ∧ position_in l m < length l.
Proof.
  intros [i Hi]%py_index_elem_of. rewrite (position_in_Some l m i Hi).
  split; [done|]. by apply py_index_Some in Hi as [_ ?].
Qed.

(** ** Member selection *)

Lemma sort_key_le (a b : Member) :
  key_le sort_attributes_first_then_by_path a b ↔ member_le a b.
Proof.
  unfold key_le, member_le, py_le, sort_attributes_first_then_by_path.
  unfold py_cmp at 1, pair_PyOrd; simpl.
  destruct (isinstance_Function a), (isinstance_Function b); simpl;
    intuition congruence.
Qed.

(** C10: without a list of names ([None] or the empty list) every member is
    returned exactly once, members that are not functions before functions,
    each kind ordered by path segments. *)
Theorem members_to_include_none (obj : Obj) (include : option (list string)) :
  include = None ∨ include = Some [] →
  ∃ r, _members_to_include obj include = Some r
       ∧ r ≡ₚ members obj
       ∧ StronglySorted member_le r.
Proof.
  intros Hinc. exists (sorted sort_attributes_first_then_by_path (members obj)).
  split; [by destruct Hinc as [-> | ->]|]. split.
  - apply sorted_Permutation.
  - eapply StronglySorted_weaken; [|apply sorted_StronglySorted].
    intros a b _ _. apply sort_key_le.
Qed.

Lemma members_to_include_none_witness :
  ∃ r, _members_to_include example_class None = Some r
       ∧ r ≡ₚ members example_class
       ∧ StronglySorted member_le r.
Proof. apply (members_to_include_none example_class None). by left. Defined.

(** Without the placeholder the list of names is used as it is written. *)
Lemma members_to_include_plain (obj : Obj) (include : list string) :
  include ≠ [] → "*" ∉ include →
  _members_to_include obj (Some include) =
    Some (sorted (position_in include)
            (filter (λ m, name m ∈ include) (members obj))).
Proof.
  intros Hne Hstar. unfold _members_to_include.
  destruct include as [|n include]; [done|].
  cbn [py_bool_list negb default from_option id].
  case_decide as Hin; [by apply elem_of_list_to_set in Hin|].
  cbn [mbind option_bind].
  rewrite (list_filter_iff _ (λ m, name m ∈ n :: include))
    by (intros m; apply elem_of_list_to_set).
  apply sort_by_key_total. intros m [Hm _]%list_elem_of_filter.
  by apply position_in_lt in Hm as [-> _].
Qed.

(** C2: with a non-empty list of names without the placeholder, the result
    consists of exactly the members whose name is listed, it is ordered by
    the position of the names in the list, and members of one name keep the
    order they have in [obj.members]. *)
Theorem members_to_include_listed (obj : Obj) (include : list string) :
  include ≠ [] → "*" ∉ include →
  ∃ r, _members_to_include obj (Some include) = Some r
       ∧ r ≡ₚ filter (λ m, name m ∈ include) (members obj)
       ∧ StronglySorted (listed_before include) r
       ∧ ∀ n, n ∈ include →
           filter (λ m, name m = n) r = filter (λ m, name m = n) (members obj).
Proof.
  intros Hne Hstar. eexists. split; [by apply members_to_include_plain|].
  split; [apply sorted_Permutation|]. split.
  - eapply StronglySorted_weaken; [|apply sorted_StronglySorted].
    intros a b _ _ Hab i j Hi Hj.
    unfold key_le, py_le, py_cmp, nat_PyOrd in Hab.
    rewrite (position_in_Some _ _ _ Hi), (position_in_Some _ _ _ Hj) in Hab.
    by apply Nat.compare_le_iff.
  - intros n Hn. rewrite sorted_filter_stable.
    + rewrite list_filter_filter. apply list_filter_iff. intros m.
      split; [tauto|]. intros ->. done.
    + intros x y _ _ Hx Hy. unfold position_in. rewrite Hx, Hy.
      unfold py_lt. by rewrite py_cmp_refl.
Qed.

Lemma members_to_include_listed_witness :
  ∃ r, _members_to_include example_class (Some ["zed"; "foo"]) = Some r
       ∧ r ≡ₚ filter (λ m, name m ∈ ["zed"; "foo"]) (members example_class)
       ∧ StronglySorted (listed_before ["zed"; "foo"]) r
       ∧ ∀ n, n ∈ ["zed"; "foo"] →
           filter (λ m, name m = n) r
           = filter (λ m, name m = n) (members example_class).
Proof.
  apply (members_to_include_listed example_class ["zed"; "foo"]).
  - discriminate.
  - rewrite !not_elem_of_cons. repeat split; try discriminate.
    apply not_elem_of_nil.
Defined.

Lemma filter_ext_elem {A} (P Q : A → Prop)
    `{!∀ x, Decision (P x), !∀ x, Decision (Q x)} (l : list A) :
  (∀ x, x ∈ l → P x ↔ Q x) → filter P l = filter Q l.
Proof.
  induction l as [|x l IH]; intros HPQ; [done|].
  rewrite !filter_cons, IH by (intros y Hy; apply HPQ; by right).
  destruct (decide (P x)) as [HP|HP], (decide (Q x)) as [HQ|HQ]; try done;
    (apply HPQ in HP || apply HPQ in HQ); done || by left.
Qed.

(** Sorting members on the position of their names lists them name after
    name. *)
Lemma sorted_by_first_position (l : list string) (ms : list Member) :
  (∀ m, m ∈ ms → name m ∈ l) →
  sorted (position_in l) ms = by_first_position l ms.
Proof.
  intros Hms. rewrite (sorted_buckets _ _ (length l)).
  - unfold by_first_position. apply Forall_bind_ext, Forall_forall.
    intros k _. apply filter_ext_elem. intros m Hm.
    destruct (position_in_lt l m (Hms m Hm)) as [-> _]. split; congruence.
  - intros m Hm. by apply position_in_lt, Hms.
Qed.

Lemma by_first_position_app (l1 l2 : list string) (ms : list Member) :
  by_first_position (l1 ++ l2) ms =
    by_first_position l1 ms
    ++ by_first_position l2 (filter (λ m, name m ∉ l1) ms).
Proof.
  unfold by_first_position.
  rewrite length_app, seq_app, bind_app. f_equal.
  - apply Forall_bind_ext, Forall_forall. intros k Hk%elem_of_seq.
    apply list_filter_iff. intros m. rewrite py_index_app.
    destruct (py_index (name m) l1) as [i|]; [done|].
    destruct (py_index (name m) l2); simpl; split; try done.
    intros [= <-]. lia.
  - rewrite <- (Nat.add_0_r (0 + length l1)), <- fmap_add_seq, list_fmap_bind.
    apply Forall_bind_ext, Forall_forall. intros k _. simpl.
    rewrite list_filter_filter. apply list_filter_iff. intros m.
    rewrite py_index_app, <- py_index_None.
    destruct (py_index (name m) l1) as [i|] eqn:Hi.
    + apply py_index_Some in Hi as [_ Hi]. split; [|by intros [_ ?]].
      intros [= ->]. lia.
    + destruct (py_index (name m) l2) as [j|]; simpl.
      * split; [|by intros [[= ->] _]].
        intros [= E]. split; [|done]. f_equal. lia.
      * split; [done|by intros [? _]].
Qed.

(** Members that are not named in [l] do not matter. *)
Lemma by_first_position_filter (P : Member → Prop) `{!∀ m, Decision (P m)}
    (l : list string) (ms : list Member) :
  (∀ m, m ∈ ms → name m ∈ l → P m) →
  by_first_position l (filter P ms) = by_first_position l ms.
Proof.
  intros HP. unfold by_first_position.
  apply Forall_bind_ext, Forall_forall. intros k _.
  rewrite list_filter_filter. apply filter_ext_elem. intros m Hm.
  split; [tauto|]. intros Hk. split; [done|]. apply HP; [done|].
  apply py_index_elem_of. by rewrite Hk.
Qed.

Lemma filter_all {A} (P : A → Prop) `{!∀ x, Decision (P x)} (l : list A) :
  (∀ x, x ∈ l → P x) → filter P l = l.
Proof.
  induction l as [|x l IH]; intros HP; [done|].
  rewrite filter_cons, IH by (intros y Hy; apply HP; by right).
  rewrite decide_True; [done|]. apply HP. by left.
Qed.

(** With the placeholder, the names of the remaining members take its place
    in the list of names, and the members are ordered by that list. *)
Lemma members_to_include_expand (obj : Obj) (include : list string) (i : nat) :
  py_index "*" include = Some i →
  (∀ m, m ∈ members obj → name m ≠ "*") →
  _members_to_include obj (Some include) =
    Some (by_first_position
            (take i include
             ++ (name <$> sorted sort_attributes_first_then_by_path
                            (filter (λ m, name m ∉ include) (members obj)))
             ++ drop (i + 1) include)
            (members obj)).
Proof.
  intros Hi Hstar. unfold _members_to_include.
  assert ("*" ∈ include) as Hin by (apply py_index_elem_of; by rewrite Hi).
  destruct include as [|n include]; [by apply elem_of_nil in Hin|].
  cbn [py_bool_list negb default from_option id].
  case_decide as Hset; [|by rewrite elem_of_list_to_set in Hset].
  rewrite Hi. cbn [mbind option_bind].
  rewrite (list_filter_iff _ (λ m, name m ∉ n :: include))
    by (intros m; by rewrite elem_of_list_to_set).
  set (rest := sorted sort_attributes_first_then_by_path
                 (filter (λ m, name m ∉ n :: include) (members obj))).
  set (include' := take i (n :: include) ++ (name <$> rest)
                     ++ drop (i + 1) (n :: include)).
  assert (∀ m, m ∈ members obj → name m ∈ include') as Hall.
  { intros m Hm. unfold include'. rewrite !elem_of_app.
    destruct (decide (name m ∈ n :: include)) as [Hl|Hl].
    - apply py_index_Some in Hi as [Hi _].
      rewrite <- (take_drop_middle _ _ _ Hi), elem_of_app, elem_of_cons in Hl.
      rewrite Nat.add_1_r.
      destruct Hl as [?|[E|?]]; [by left| |by right; right].
      by apply Hstar in E.
    - right; left. apply list_elem_of_fmap. exists m. split; [done|].
      unfold rest. rewrite sorted_Permutation. by apply list_elem_of_filter. }
  rewrite filter_all.
  - rewrite (sort_by_key_total _ (position_in include')).
    + by rewrite sorted_by_first_position.
    + intros m Hm. by apply position_in_lt, Hall.
  - intros m Hm. rewrite elem_of_union, !elem_of_list_to_set.
    destruct (decide (name m ∈ n :: include)) as [Hl|Hl]; [by left|right].
    apply list_elem_of_fmap. exists m. split; [done|].
    unfold rest. rewrite sorted_Permutation. by apply list_elem_of_filter.
Qed.

Lemma py_index_NoDup (l : list string) (i : nat) (x : string) :
  NoDup l → l !! i = Some x → py_index x l = Some i.
Proof.
  intros Hl Hi. destruct (py_index x l) as [j|] eqn:Hj.
  - apply py_index_Some in Hj as [Hj _]. f_equal. by eapply NoDup_lookup.
  - apply py_index_None in Hj. destruct Hj. by eapply list_elem_of_lookup_2.
Qed.

Lemma StronglySorted_lookup_2 {A} (R : relation A) (l : list A) :
  (∀ i j x y, i < j → l !! i = Some x → l !! j = Some y → R x y) →
  StronglySorted R l.
Proof.
  induction l as [|x l IH]; intros HR; constructor.
  - apply IH. intros i j y z Hij Hy Hz. apply (HR (S i) (S j)); [lia|done..].
  - apply Forall_forall. intros y [j Hj]%list_elem_of_lookup.
    apply (HR 0 (S j)); [lia|done..].
Qed.

(** When the names of [s] are pairwise distinct, listing a rearrangement of
    [s] name after name gives [s] back. *)
Lemma by_first_position_NoDup (s ms : list Member) :
  NoDup (name <$> s) → s ≡ₚ ms → by_first_position (name <$> s) ms = s.
Proof.
  intros Hnd Hperm.
  assert (∀ k m, s !! k = Some m → py_index (name m) (name <$> s) = Some k)
    as Hpos.
  { intros k m Hk. apply py_index_NoDup; [done|].
    by rewrite list_lookup_fmap, Hk. }
  rewrite <- sorted_by_first_position.
  - apply (StronglySorted_unique_strong (key_le (position_in (name <$> s)))).
    + intros x y Hx [b Hb]%list_elem_of_lookup Hxy Hyx.
      rewrite sorted_Permutation, <- Hperm in Hx.
      apply list_elem_of_lookup in Hx as [a Ha].
      unfold key_le in Hxy, Hyx.
      rewrite (position_in_Some _ _ _ (Hpos _ _ Ha)),
        (position_in_Some _ _ _ (Hpos _ _ Hb)) in Hxy, Hyx.
      assert (a = b) as -> by (by apply (py_le_antisym (A:=nat))).
      congruence.
    + apply sorted_StronglySorted.
    + apply StronglySorted_lookup_2. intros a b x y Hab Ha Hb. unfold key_le.
      rewrite (position_in_Some _ _ _ (Hpos _ _ Ha)),
        (position_in_Some _ _ _ (Hpos _ _ Hb)).
      apply (py_lt_le (A:=nat)), py_lt_iff, Nat.compare_lt_iff, Hab.
    + by rewrite sorted_Permutation.
  - intros m Hm. apply list_elem_of_fmap. exists m. by rewrite Hperm.
Qed.

(** What the code returns with the placeholder in the list, when no member
    is named like the placeholder: three runs.  First the members named
    before the placeholder, in the order of their names in the list; then
    all members that are not named in the list; then the members named
    after the placeholder only.  The middle run is in kind-then-path order
    when its members have pairwise distinct names; otherwise the final
    sort on the position of the names groups it by name. *)
Lemma members_to_include_three_runs (obj : Obj) (include : list string)
    (i : nat) :
  py_index "*" include = Some i →
  (∀ m, m ∈ members obj → name m ≠ "*") →
  let rest := sorted sort_attributes_first_then_by_path
                (filter (λ m, name m ∉ include) (members obj)) in
  _members_to_include obj (Some include) =
    Some (by_first_position (take i include) (members obj)
          ++ by_first_position (name <$> rest) (members obj)
          ++ by_first_position (drop (i + 1) include)
               (filter (λ m, name m ∉ take i include) (members obj)))
  ∧ (NoDup (name <$> rest) →
     by_first_position (name <$> rest) (members obj) = rest).
Proof.
  intros Hi Hstar rest.
  assert (∀ m, name m ∈ name <$> rest → name m ∉ include) as Hrest.
  { intros m (m' & E & Hm')%list_elem_of_fmap. unfold rest in Hm'.
    rewrite sorted_Permutation in Hm'.
    apply list_elem_of_filter in Hm' as [Hm' _]. by rewrite E. }
  split.
  - rewrite (members_to_include_expand obj include i Hi Hstar). fold rest.
    rewrite !by_first_position_app. do 3 f_equal.
    + apply by_first_position_filter. intros m _ Hm Hin.
      apply Hrest in Hm. apply Hm. by eapply subseteq_take.
    + apply by_first_position_filter. intros m _ Hm Hin.
      apply Hrest in Hin. apply Hin. by eapply subseteq_drop.
  - intros Hnd.
    rewrite <- (by_first_position_filter (λ m, name m ∉ include))
      by (intros m _; apply Hrest).
    apply by_first_position_NoDup; [done|]. apply sorted_Permutation.
Qed.

(** C1: with the list [*] alone, the members that are not named in the
    list are to stand in kind-then-path order, which is the order the code
    computes for them in [sorted_not_included_members].  On a class with a
    static and an instance member of one name it returns another order:
    the final sort on the position of the names keeps the two members
    named [foo] together, a function in front of attributes. *)
Theorem members_to_include_wildcard_same_name :
  sorted sort_attributes_first_then_by_path
    (filter (λ m, name m ∉ ["*"]) (members example_class))
  = [mk Attribute "foo" ["C#"; "foo"]; mk Attribute "zed" ["C#"; "zed"];
     mk Function "bar" ["C."; "bar"]; mk Function "foo" ["C."; "foo"]]
  ∧ _members_to_include example_class (Some ["*"])
    = Some [mk Function "foo" ["C."; "foo"]; mk Attribute "foo" ["C#"; "foo"];
            mk Attribute "zed" ["C#"; "zed"]; mk Function "bar" ["C."; "bar"]]
  ∧ ¬ StronglySorted member_le
        [mk Function "foo" ["C."; "foo"]; mk Attribute "foo" ["C#"; "foo"];
         mk Attribute "zed" ["C#"; "zed"]; mk Function "bar" ["C."; "bar"]].
Proof.
  split; [reflexivity|]. split; [reflexivity|].
  intros Hs. apply StronglySorted_inv in Hs as [_ Hs].
  apply Forall_cons in Hs as [[[E _]|[E _]] _]; discriminate E.
Qed.

(** A member that is itself named like the placeholder is looked up in a
    list from which the placeholder has been taken out: [include.index]
    raises. *)
Example members_to_include_star_member :
  _members_to_include
    {| obj_name := "C"; members := [mk Attribute "*" ["C#"; "*"]] |}
    (Some ["*"])
  = None.
Proof. reflexivity. Qed.


(** ** Strings *)

Lemma split_not_nil (sep : ascii) (s : string) : split sep s ≠ [].
Proof.
  destruct s as [|c s]; simpl; [done|].
  destruct (decide (c = sep)); [done|]. by destruct (split sep s).
Qed.

Lemma join_cons_char (sep : string) (c : ascii) (field : string)
    (fields : list string) :
  join sep (String c field :: fields) = String c (join sep (field :: fields)).
Proof. by destruct fields. Qed.

(** Splitting loses nothing: joining the fields with the separator gives
    the text back, and no field contains the separator. *)
Lemma join_split (sep : ascii) (s : string) :
  join (String sep EmptyString) (split sep s) = s.
Proof.
  induction s as [|c s IH]; simpl; [done|].
  destruct (decide (c = sep)) as [->|].
  - pose proof (split_not_nil sep s) as Hne.
    destruct (split sep s) as [|field fields]; [done|].
    simpl in *. by rewrite IH.
  - destruct (split sep s) as [|field fields] eqn:E.
    + by apply split_not_nil in E.
    + by rewrite join_cons_char, IH.
Qed.

Lemma split_fields (sep : ascii) (s : string) :
  Forall (λ field, contains sep field = false) (split sep s).
Proof.
  induction s as [|c s IH]; simpl; [by repeat constructor|].
  destruct (decide (c = sep)) as [->|Hne]; [by constructor|].
  destruct (split sep s) as [|field fields]; simpl.
  - repeat constructor. simpl. by rewrite bool_decide_eq_false_2.
  - apply Forall_cons in IH as [Hf Hfs]. constructor; [|done].
    simpl. by rewrite bool_decide_eq_false_2.
Qed.

Lemma append_String (c : ascii) (a b : string) :
  String c a +:+ b = String c (a +:+ b).
Proof. reflexivity. Qed.

Lemma append_empty (b : string) : EmptyString +:+ b = b.
Proof. reflexivity. Qed.

(** [strip] removes white space at both ends and nothing else. *)
Lemma lstrip_spec (s : string) :
  ∃ a, s = a +:+ lstrip s ∧ all_space a
       ∧ match lstrip s with
         | String c _ => is_space c = false
         | EmptyString => True
         end.
Proof.
  induction s as [|c s (a & E & Ha & Hc)]; simpl.
  - exists EmptyString. repeat split. constructor.
  - destruct (is_space c) eqn:Ec.
    + exists (String c a). rewrite append_String, <- E.
      split; [done|]. split; [|done]. by constructor.
    + exists EmptyString. repeat split; [constructor|done].
Qed.

Lemma rstrip_spec (s : string) :
  ∃ b, s = rstrip s +:+ b ∧ all_space b
       ∧ (rstrip s = EmptyString
          ∨ ∃ r c, rstrip s = r +:+ String c EmptyString
                   ∧ is_space c = false).
Proof.
  induction s as [|c s (b & E & Hb & Hr)]; simpl.
  - exists EmptyString. repeat split; [constructor|by left].
  - destruct (rstrip s) as [|d r] eqn:Er.
    + rewrite append_empty in E. subst b. destruct (is_space c) eqn:Ec.
      * exists (String c s). rewrite append_empty.
        split; [done|]. split; [by constructor|by left].
      * exists s. rewrite append_String, append_empty. split; [done|].
        split; [done|]. right. by exists EmptyString, c.
    + exists b. rewrite append_String, <- E. split; [done|]. split; [done|].
      right. destruct Hr as [|(r' & e & Hr & He)]; [done|].
      exists (String c r'), e. by rewrite append_String, <- Hr.
Qed.

(** ** [_members_to_exclude] *)

Lemma members_to_exclude_eq (arg : option string) :
  _members_to_exclude arg =
    list_to_set (strip <$> split "," (default EmptyString arg)).
Proof. by destruct arg as [[|c s]|]. Qed.

(** C8: the result is the set of the stripped fields between the commas of
    the argument; for [None] and for the empty string it is the set that
    holds the empty string only; it is never empty, and an empty option
    excludes no member with a non-empty name. *)
Theorem members_to_exclude_tokens (arg : option string) :
  (∀ x, x ∈ _members_to_exclude arg
        ↔ ∃ field, field ∈ split "," (default EmptyString arg)
                   ∧ x = strip field)
  ∧ join "," (split "," (default EmptyString arg)) = default EmptyString arg
  ∧ Forall (λ field, contains "," field = false)
      (split "," (default EmptyString arg))
  ∧ _members_to_exclude arg ≠ ∅
  ∧ _members_to_exclude None = {[ EmptyString ]}
  ∧ _members_to_exclude (Some EmptyString) = {[ EmptyString ]}
  ∧ ∀ n, n ≠ EmptyString
         → (n ∉ _members_to_exclude None)
           ∧ (n ∉ _members_to_exclude (Some EmptyString)).
Proof.
  assert (_members_to_exclude None = {[ EmptyString ]}) as HNone.
  { unfold _members_to_exclude. simpl. set_solver. }
  assert (_members_to_exclude (Some EmptyString) = {[ EmptyString ]}) as HE.
  { unfold _members_to_exclude. simpl. set_solver. }
  split; [|split; [|split; [|split; [|split; [|split]]]]]; try done.
  - intros x. rewrite members_to_exclude_eq, elem_of_list_to_set.
    rewrite list_elem_of_fmap. split.
    + intros (field & -> & Hf). by exists field.
    + intros (field & Hf & ->). by exists field.
  - apply (join_split ",").
  - apply split_fields.
  - rewrite members_to_exclude_eq.
    pose proof (split_not_nil "," (default EmptyString arg)) as Hne.
    destruct (split "," (default EmptyString arg)) as [|field fields];
      [done|]. csimpl. set_solver.
  - intros n Hn. rewrite HNone, HE. set_solver.
Qed.

Lemma members_to_exclude_tokens_witness :
  ("foo" ∉ _members_to_exclude None)
  ∧ ("foo" ∉ _members_to_exclude (Some EmptyString)).
Proof.
  apply (members_to_exclude_tokens None). discriminate.
Defined.

(** ** [unwrapped] and the info fields *)

(** Where the pattern does not match, the text does not start with a line
    break. *)
Lemma unwrap_match_None (c : ascii) (s : string) :
  unwrap_match (String c s) = None → is_line_break c = false.
Proof.
  unfold unwrap_match. destruct (is_line_break c) eqn:Ec; [|done].
  assert (is_blank c = false) as Hb.
  { unfold is_line_break, is_blank in *.
    apply orb_true_iff in Ec as [Ec|Ec]; apply bool_decide_eq_true in Ec;
      subst c; reflexivity. }
  simpl. rewrite Hb. simpl. by rewrite Ec.
Qed.

Lemma unwrap_from_contains (b : ascii) (s : string) (skip : nat) :
  is_line_break b = true → contains b (unwrap_from skip s) = false.
Proof.
  intros Hb. revert skip. induction s as [|c s IH]; intros skip; [done|].
  cbn [unwrap_from]. destruct skip as [|k]; [|apply IH].
  destruct (unwrap_match (String c s)) as [n|] eqn:E; cbn [contains].
  - rewrite IH, bool_decide_eq_false_2; [done|].
    intros <-. by vm_compute in Hb.
  - apply unwrap_match_None in E.
    rewrite IH, bool_decide_eq_false_2; [done|]. congruence.
Qed.

Lemma unwrapped_single_line (text : string) : single_line (unwrapped text).
Proof. split; by apply unwrap_from_contains. Qed.

(** A text without line breaks is left as it is. *)
Lemma unwrap_match_single_line (s : string) :
  single_line s → unwrap_match s = None.
Proof.
  intros [Hcr Hlf]. unfold unwrap_match.
  assert (count_while is_line_break (str_drop (count_while is_blank s) s) = 0)
    as ->; [|done].
  induction s as [|c s IH]; [done|]. simpl in Hcr, Hlf.
  apply orb_false_iff in Hcr as [Hc1 Hcr], Hlf as [Hc2 Hlf].
  cbn [count_while]. destruct (is_blank c); cbn [str_drop].
  - by apply IH.
  - cbn [count_while]. unfold is_line_break. by rewrite Hc1, Hc2.
Qed.

Lemma unwrapped_id (text : string) : single_line text → unwrapped text = text.
Proof.
  unfold unwrapped. induction text as [|c s IH]; intros Hs; [done|].
  cbn [unwrap_from]. rewrite (unwrap_match_single_line _ Hs). f_equal.
  apply IH. destruct Hs as [Hcr Hlf]. simpl in Hcr, Hlf.
  apply orb_false_iff in Hcr as [_ Hcr], Hlf as [_ Hlf]. by split.
Qed.

Lemma length_append (a b : string) :
  String.length (a +:+ b) = String.length a + String.length b.
Proof.
  induction a as [|c a IH]; [done|].
  rewrite append_String. simpl. by rewrite IH.
Qed.

Lemma append_assoc (a b c : string) : (a +:+ b) +:+ c = a +:+ b +:+ c.
Proof.
  induction a as [|d a IH]; [done|]. rewrite !append_String. by rewrite IH.
Qed.

Lemma count_while_app (p : ascii → bool) (a b : string) :
  all_of p a → starts_outside p b →
  count_while p (a +:+ b) = String.length a.
Proof.
  unfold all_of. induction a as [|c a IH]; simpl.
  - intros _. by destruct b as [|d b]; simpl; [|intros ->].
  - intros [Hc Ha]%Forall_cons Hb. rewrite ?append_String. simpl.
    by rewrite Hc, IH.
Qed.

Lemma str_drop_app (a b : string) : str_drop (String.length a) (a +:+ b) = b.
Proof. induction a as [|c a IH]; simpl; [by destruct b|done]. Qed.

Lemma unwrap_from_skip (a b : string) :
  unwrap_from (String.length a) (a +:+ b) = unwrap_from 0 b.
Proof. induction a as [|c a IH]; simpl; [done|]. by rewrite ?append_String. Qed.

Lemma starts_outside_app (p q : ascii → bool) (a b : string) :
  (∀ c, q c = true → p c = false) →
  all_of q a → starts_outside p b → starts_outside p (a +:+ b).
Proof.
  unfold all_of. intros Hpq Ha Hb. destruct a as [|c a]; [done|].
  simpl in *. apply Forall_cons in Ha as [Hc _]. by apply Hpq.
Qed.

Lemma blank_not_line_break (c : ascii) :
  is_blank c = true → is_line_break c = false.
Proof.
  unfold is_blank, is_line_break.
  intros [Hc|Hc]%orb_true_iff; apply bool_decide_eq_true in Hc; by subst.
Qed.

Lemma line_break_not_blank (c : ascii) :
  is_line_break c = true → is_blank c = false.
Proof.
  unfold is_blank, is_line_break.
  intros [Hc|Hc]%orb_true_iff; apply bool_decide_eq_true in Hc; by subst.
Qed.

(** A run of line breaks with the blanks around it, at the start of the
    text, gives one space. *)
Lemma unwrapped_run (blanks1 breaks blanks2 rest : string) :
  all_of is_blank blanks1 → all_of is_line_break breaks →
  breaks ≠ EmptyString → all_of is_blank blanks2 →
  starts_outside is_blank rest → starts_outside is_line_break rest →
  unwrapped (blanks1 +:+ breaks +:+ blanks2 +:+ rest)
  = String " " (unwrapped rest).
Proof.
  intros H1 Hb Hne H2 Hr1 Hr2. unfold unwrapped.
  assert (starts_outside is_line_break (blanks2 +:+ rest)) as Hs2.
  { apply (starts_outside_app _ is_blank);
      [apply blank_not_line_break|done..]. }
  assert (starts_outside is_blank (breaks +:+ blanks2 +:+ rest)) as Hs1.
  { destruct breaks as [|c b]; [done|]. rewrite append_String.
    apply Forall_cons in Hb as [Hc _]. by apply line_break_not_blank. }
  assert (unwrap_match (blanks1 +:+ breaks +:+ blanks2 +:+ rest)
          = Some (String.length blanks1 + String.length breaks
                  + String.length blanks2)) as Hm.
  { unfold unwrap_match.
    rewrite (count_while_app is_blank blanks1), str_drop_app by done.
    rewrite (count_while_app is_line_break breaks), str_drop_app by done.
    rewrite (count_while_app is_blank blanks2) by done.
    by destruct breaks. }
  assert (∃ c s', blanks1 +:+ breaks +:+ blanks2 +:+ rest = String c s'
            ∧ s' = str_drop 1 (blanks1 +:+ breaks +:+ blanks2 +:+ rest))
    as (c & s' & Hcs & Hs').
  { destruct blanks1 as [|c b1]; [destruct breaks as [|c b]; [done|]|];
      by eexists _, _. }
  rewrite Hcs in Hm |- *. cbn [unwrap_from]. rewrite Hm. f_equal.
  rewrite <- (unwrap_from_skip (str_drop 1 (blanks1 +:+ breaks +:+ blanks2))
                rest).
  f_equal.
  - destruct blanks1 as [|c1 b1]; [destruct breaks as [|c2 b]; [done|]|];
      rewrite ?append_empty, !append_String; cbn [str_drop String.length];
      rewrite ?length_append; cbn [String.length]; lia.
  - rewrite Hs'.
    destruct blanks1 as [|c1 b1]; [destruct breaks as [|c2 b]; [done|]|];
      rewrite ?append_empty, !append_String; cbn [str_drop];
      by rewrite ?append_assoc.
Qed.

Example unwrapped_example :
  unwrapped ("first  " +:+ String CR (String LF "   second")
             +:+ String LF (String LF "third"))
  = "first second third".
Proof. reflexivity. Qed.

(** C9: [unwrapped] returns a text without carriage return and without
    newline: a run of line breaks with the blanks around it becomes one
    space, every other character is kept; and the tail of every field that
    [_fields] yields is such a text. *)
Theorem unwrapped_no_line_breaks :
  (∀ text, contains CR (unwrapped text) = false
           ∧ contains LF (unwrapped text) = false)
  ∧ (∀ blanks1 breaks blanks2 rest,
       all_of is_blank blanks1 → all_of is_line_break breaks →
       breaks ≠ EmptyString → all_of is_blank blanks2 →
       starts_outside is_blank rest → starts_outside is_line_break rest →
       unwrapped (blanks1 +:+ breaks +:+ blanks2 +:+ rest)
       = String " " (unwrapped rest))
  ∧ (∀ c text, unwrap_match (String c text) = None →
       unwrapped (String c text) = String c (unwrapped text))
  ∧ (∀ rst_escape obj,
       Forall (λ field, single_line field.2) (_fields rst_escape obj)).
Proof.
  split; [apply unwrapped_single_line|].
  split; [apply unwrapped_run|].
  split; [intros c text Hm; unfold unwrapped; cbn [unwrap_from]; by rewrite Hm|].
  intros rst_escape obj. unfold _fields.
  apply Forall_forall. intros field Hf.
  apply list_elem_of_bind in Hf as ([attr callback] & Hf & _).
  apply list_elem_of_bind in Hf as (instance & Hf & _).
  destruct (callback instance) as [[heads tail]|].
  - apply list_elem_of_singleton in Hf as ->. apply unwrapped_single_line.
  - by apply elem_of_nil in Hf.
Qed.

Lemma unwrapped_no_line_breaks_witness :
  unwrapped ("  " +:+ String CR (String LF EmptyString) +:+ " " +:+ "x")
  = String " " (unwrapped "x").
Proof.
  apply (proj1 (proj2 unwrapped_no_line_breaks)
           "  " (String CR (String LF EmptyString)) " " "x").
  - by repeat constructor.
  - by repeat constructor.
  - discriminate.
  - by repeat constructor.
  - reflexivity.
  - reflexivity.
Defined.

(** ** [rst_nodes] *)

(** C3: when the analyzer raises [SuffixNotFound], [rst_nodes] raises a
    [SphinxError] that says no documentation was found for the joined
    segments; when it raises [SuffixAmbiguous], a [SphinxError] that names
    the joined segments and the candidate keys; in both cases the analyzer's
    exception itself does not leave [rst_nodes]. *)
Theorem rst_nodes_converts_suffix_errors {ir_object node : Type}
    (ir_name : ir_object → string)
    (get_object : list string → string → result ir_object)
    (rst : JsRenderer.t → list string → ir_object → bool → result string)
    (parse : string → string → result (list node))
    (str_keys : list string → string) (self : JsRenderer.t) :
  let raised := get_object (JsRenderer._partial_path self)
                  (JsRenderer._renderer_type self) in
  let nodes := rst_nodes ir_name get_object rst parse str_keys self in
  (∀ segments, raised = Raise (SuffixNotFound segments) →
     nodes = Raise (SphinxError
                      ("No documentation was found for object " +:+ dquote
                       +:+ join EmptyString segments +:+ dquote
                       +:+ " or any path ending with that.")))
  ∧ (∀ segments keys, raised = Raise (SuffixAmbiguous segments keys) →
     nodes = Raise (SphinxError
                      ("More than one object matches the path suffix "
                       +:+ dquote +:+ join EmptyString segments +:+ dquote
                       +:+ ". Candidate paths have these segments in front: "
                       +:+ str_keys keys)))
  ∧ ((∃ segments, raised = Raise (SuffixNotFound segments))
     ∨ (∃ segments keys, raised = Raise (SuffixAmbiguous segments keys)) →
     ∀ segments keys,
       nodes ≠ Raise (SuffixNotFound segments)
       ∧ nodes ≠ Raise (SuffixAmbiguous segments keys)).
Proof.
  intros raised nodes. subst nodes. unfold rst_nodes. fold raised.
  split; [|split].
  - by intros segments ->.
  - by intros segments keys ->.
  - by intros [[s ->]|(s & k & ->)] segments keys.
Qed.

Lemma rst_nodes_converts_suffix_errors_witness :
  rst_nodes (ir_object:=Obj) (node:=string) obj_name
    (λ _ _, Raise (SuffixNotFound ["Foo"; "#bar"]))
    (λ _ _ _ _, Ok EmptyString) (λ _ _, Ok []) (join ", ") example_renderer
  = Raise (SphinxError
             ("No documentation was found for object " +:+ dquote
              +:+ "Foo#bar" +:+ dquote +:+ " or any path ending with that.")).
Proof.
  exact (proj1 (rst_nodes_converts_suffix_errors (ir_object:=Obj)
                  (node:=string) obj_name
                  (λ _ _, Raise (SuffixNotFound ["Foo"; "#bar"]))
                  (λ _ _ _ _, Ok EmptyString) (λ _ _, Ok []) (join ", ")
                  example_renderer)
           ["Foo"; "#bar"] eq_refl).
Defined.

(** ** The generator *)

(** C4 (as the code has it): when no configured suffix supports
    reStructuredText, [process_automodules] returns without an exception,
    writes no file and records no stub; it logs the warning exactly when
    the build environment has a document that is a file, and logs nothing
    otherwise. *)
Theorem process_automodules_no_rst_suffix `{Host} (app : Sphinx.t)
    (w : World.t) :
  get_rst_suffix app = None →
  ∃ w', process_automodules app w = Ok w'
        ∧ World.files w' = World.files w
        ∧ World.dirs w' = World.dirs w
        ∧ World.generated_automodules_docs w'
          = World.generated_automodules_docs w
        ∧ World.log w' =
            if bool_decide (found_sources app w = []) then World.log w
            else World.log w ++ [no_rst_warning].
Proof.
  intros Hsuffix. unfold process_automodules. rewrite Hsuffix.
  destruct (bool_decide (found_sources app w = [])); eexists; done.
Qed.

Lemma process_automodules_no_rst_suffix_witness :
  let app := markdown_app ["index"] in
  let w := example_world {[ "/project/index.md" := "hello" ]} in
  ∃ w', process_automodules (H:=example_host) app w = Ok w'
        ∧ World.files w' = World.files w
        ∧ World.dirs w' = World.dirs w
        ∧ World.generated_automodules_docs w'
          = World.generated_automodules_docs w
        ∧ World.log w' =
            if bool_decide (found_sources app w = []) then World.log w
            else World.log w ++ [no_rst_warning (H:=example_host)].
Proof.
  intros app w.
  apply (process_automodules_no_rst_suffix (H:=example_host) app w).
  reflexivity.
Defined.

(** C4 as it is worded fails: without a document that is a file the
    function returns before it looks at the suffixes, and logs nothing. *)
Lemma process_automodules_no_rst_suffix_counterexample :
  get_rst_suffix (markdown_app []) = None
  ∧ ∃ w', process_automodules (H:=example_host) (markdown_app [])
            (example_world ∅) = Ok w'
          ∧ World.log w' = [].
Proof. split; [reflexivity|]. eexists. split; reflexivity. Qed.




(** ** Facts about the patterns of the generator *)

Lemma startswith_cons (a : ascii) (p s : string) :
  startswith (String a p) s = true →
  ∃ s', s = String a s' ∧ startswith p s' = true.
Proof.
  unfold startswith. destruct s as [|b s]; simpl; [done|].
  destruct (ascii_dec a b) as [->|]; [|done]. by exists s.
Qed.

Lemma lstrip_drop (s : string) :
  lstrip s = str_drop (count_while is_space s) s.
Proof.
  induction s as [|c s IH]; simpl; [done|]. by destruct (is_space c).
Qed.

Lemma rstrip_cons (c : ascii) (s : string) :
  is_space c = false → ∃ r, rstrip (String c s) = String c r.
Proof.
  intros Hc. simpl. destruct (rstrip s) as [|d r].
  - rewrite Hc. by exists EmptyString.
  - by exists (String d r).
Qed.

Lemma rstrip_idem (s : string) : rstrip (rstrip s) = rstrip s.
Proof.
  induction s as [|c s IH]; simpl; [done|].
  destruct (rstrip s) as [|d r] eqn:E.
  - destruct (is_space c) eqn:Ec; simpl; [done|]. by rewrite Ec.
  - cbn [rstrip] in *. by rewrite IH.
Qed.

(** The text left by [lstrip] is empty or starts with a character that is
    not white space, and so does what [rstrip] leaves of it. *)
Lemma lstrip_fixed (s : string) :
  match s with
  | String c _ => is_space c = false
  | EmptyString => True
  end → lstrip s = s.
Proof. destruct s as [|c s]; simpl; [done|]. by intros ->. Qed.

Lemma strip_head (s : string) :
  match strip s with
  | String c _ => is_space c = false
         ∧ ∃ r, lstrip s = String c r
  | EmptyString => True
  end.
Proof.
  unfold strip. destruct (lstrip_spec s) as (a & _ & _ & Hc).
  destruct (lstrip s) as [|c y]; [done|].
  destruct (rstrip_cons c y Hc) as [r ->]. split; [done|]. by exists y.
Qed.

Lemma strip_idem (s : string) : strip (strip s) = strip s.
Proof.
  pose proof (strip_head s) as Hh. unfold strip at 1.
  rewrite lstrip_fixed.
  - unfold strip. apply rstrip_idem.
  - destruct (strip s); [done|]. by destruct Hh.
Qed.

Lemma startswith_char (a c : ascii) (x : string) :
  startswith (String a EmptyString) (String c x)
  = if ascii_dec a c then true else false.
Proof.
  unfold startswith. simpl. destruct (ascii_dec a c); [|done]. by destruct x.
Qed.

Lemma startswith_colon_strip (line : string) :
  startswith ":" (strip line)
  = startswith ":" (str_drop (count_while is_space line) line).
Proof.
  rewrite <- lstrip_drop. unfold strip.
  destruct (lstrip_spec line) as (_ & _ & _ & Hc).
  destruct (lstrip line) as [|c y]; [done|].
  destruct (rstrip_cons c y Hc) as [r ->]. by rewrite !startswith_char.
Qed.

(** A text without white space is left as it is by [strip]. *)
Lemma rstrip_no_space (s : string) :
  Forall (λ c, is_space c = false) (list_ascii_of_string s) → rstrip s = s.
Proof.
  induction s as [|c s IH]; simpl; [done|].
  intros [Hc Hs]%Forall_cons. rewrite (IH Hs).
  destruct s; [by rewrite Hc|done].
Qed.

Lemma strip_no_space (s : string) :
  Forall (λ c, is_space c = false) (list_ascii_of_string s) → strip s = s.
Proof.
  intros Hs. unfold strip. rewrite lstrip_fixed; [by apply rstrip_no_space|].
  destruct s as [|c s]; [done|]. simpl in Hs.
  by apply Forall_cons in Hs as [? _].
Qed.

Lemma take_count_while (p : ascii → bool) (s : string) :
  Forall (λ c, p c = true)
    (list_ascii_of_string (str_take (count_while p s) s)).
Proof.
  induction s as [|c s IH]; simpl; [constructor|].
  destruct (p c) eqn:Ec; simpl; [|constructor]. by constructor.
Qed.

Lemma name_start_no_space (c : ascii) :
  is_name_start c = true → is_space c = false.
Proof. by destruct c as [[] [] [] [] [] [] [] []]. Qed.

Lemma name_char_no_space (c : ascii) :
  is_name_char c = true → is_space c = false.
Proof. by destruct c as [[] [] [] [] [] [] [] []]. Qed.

Lemma arg_re_Some (opt line group : string) :
  arg_re opt line = Some group →
  startswith (":" +:+ opt +:+ ":")
    (str_drop (count_while is_space line) line) = true
  ∧ strip group = group.
Proof.
  unfold arg_re.
  destruct ((0 <? count_while is_space line)%nat) eqn:Hn; [|done].
  destruct (startswith _ _) eqn:Hkey; [|done]. simpl.
  destruct (contains LF _); [done|]. intros [= <-].
  split; [done|apply strip_idem].
Qed.

(** An option line starts with a colon after its indentation. *)
Lemma arg_re_colon (opt line group : string) :
  arg_re opt line = Some group → startswith ":" (strip line) = true.
Proof.
  intros [Hkey _]%arg_re_Some. rewrite startswith_colon_strip.
  apply startswith_cons in Hkey as (r & -> & _). by rewrite startswith_char.
Qed.

(** Such a line is not an item line. *)
Lemma colon_not_item (line : string) :
  startswith ":" (strip line) = true → automodules_item_re line = None.
Proof.
  rewrite startswith_colon_strip. unfold automodules_item_re.
  intros (r & -> & _)%startswith_cons.
  destruct ((0 <? count_while is_space line)%nat); [|done].
  rewrite startswith_char. by destruct (ascii_dec "~" ":").
Qed.

(** The name of an item has no white space around it. *)
Lemma item_strip (line item : string) :
  automodules_item_re line = Some item → strip item = item.
Proof.
  unfold automodules_item_re.
  destruct ((0 <? count_while is_space line)%nat); [|done].
  generalize (str_drop (count_while is_space line) line). intros r.
  assert (∀ c r2, is_name_start c = true →
            strip (str_take (1 + count_while is_name_char r2) (String c r2))
            = str_take (1 + count_while is_name_char r2) (String c r2))
    as Hname.
  { intros c r2 Hc. apply strip_no_space. simpl. constructor.
    - by apply name_start_no_space.
    - eapply Forall_impl; [apply take_count_while|].
      apply name_char_no_space. }
  destruct r as [|a r]; [done|]. rewrite startswith_char.
  destruct (ascii_dec "~" a) as [<-|_].
  - cbn [str_drop]. destruct r as [|c r2]; [done|].
    destruct (is_name_start c) eqn:Hc; [|done]. intros [= <-].
    apply strip_no_space. specialize (Hname c r2 Hc).
    cbn [str_take Nat.add list_ascii_of_string] in *. constructor; [done|].
    constructor; [by apply name_start_no_space|].
    eapply Forall_impl; [apply take_count_while|]. apply name_char_no_space.
  - cbn [str_drop]. destruct (is_name_start a) eqn:Hc; [|done].
    intros [= <-]. by apply Hname.
Qed.

(** What the hand-written matchers accept, said without them. *)
Lemma take_drop_str (n : nat) (s : string) : str_take n s +:+ str_drop n s = s.
Proof.
  revert n. induction s as [|c s IH]; intros [|n]; simpl; try done.
  by rewrite append_String, IH.
Qed.

Lemma drop_count_while (p : ascii → bool) (s : string) :
  starts_outside p (str_drop (count_while p s) s).
Proof.
  induction s as [|c s IH]; simpl; [done|].
  by destruct (p c) eqn:Ec; simpl.
Qed.

Lemma take_count_while_ne (p : ascii → bool) (s : string) :
  (0 <? count_while p s)%nat = true →
  str_take (count_while p s) s ≠ EmptyString.
Proof. destruct s as [|c s]; simpl; [done|]. by destruct (p c). Qed.

(** An item line is a non-empty indentation, a name, and a rest that does
    not go on with a name character. *)
Lemma automodules_item_re_spec (line item : string) :
  automodules_item_re line = Some item →
  ∃ indent rest,
    line = indent +:+ item +:+ rest
    ∧ indent ≠ EmptyString ∧ all_space indent
    ∧ is_item_name item
    ∧ starts_outside is_name_char rest.
Proof.
  unfold automodules_item_re.
  destruct ((0 <? count_while is_space line)%nat) eqn:Hn; [|done].
  pose proof (take_drop_str (count_while is_space line) line) as Hline.
  pose proof (take_count_while is_space line) as Hind.
  pose proof (take_count_while_ne is_space line Hn) as Hne.
  revert Hline Hind Hne.
  generalize (str_take (count_while is_space line) line)
    (str_drop (count_while is_space line) line).
  intros indent r <- Hind Hne Hitem. exists indent.
  destruct r as [|a r]; [done|]. rewrite startswith_char in Hitem.
  destruct (ascii_dec "~" a) as [<-|_]; cbn [str_drop] in Hitem.
  - destruct r as [|c r2]; [done|].
    destruct (is_name_start c) eqn:Hc; [|done]. injection Hitem as <-.
    exists (str_drop (count_while is_name_char r2) r2).
    split; [|split; [done|split; [done|split]]].
    + f_equal. cbn [str_take Nat.add].
      by rewrite !append_String, take_drop_str.
    + exists c, (str_take (count_while is_name_char r2) r2).
      split; [by right|]. split; [done|apply take_count_while].
    + apply drop_count_while.
  - destruct (is_name_start a) eqn:Hc; [|done]. injection Hitem as <-.
    exists (str_drop (count_while is_name_char r) r).
    split; [|split; [done|split; [done|split]]].
    + f_equal. cbn [str_take Nat.add].
      by rewrite !append_String, take_drop_str.
    + exists a, (str_take (count_while is_name_char r) r).
      split; [by left|]. split; [done|apply take_count_while].
    + apply drop_count_while.
Qed.

Lemma startswith_split (p s : string) :
  startswith p s = true → s = p +:+ str_drop (String.length p) s.
Proof.
  unfold startswith. revert s.
  induction p as [|a p IH]; intros s; [by destruct s|].
  destruct s as [|b s]; simpl; [done|].
  destruct (ascii_dec a b) as [->|]; [|done].
  intros Hp. by rewrite append_String, <- IH.
Qed.

(** An option line is a non-empty indentation, the option name between
    colons, and a rest whose [strip] is the value and has no newline. *)
Lemma arg_re_spec (opt line group : string) :
  arg_re opt line = Some group →
  ∃ indent rest,
    line = indent +:+ (":" +:+ opt +:+ ":") +:+ rest
    ∧ indent ≠ EmptyString ∧ all_space indent
    ∧ group = strip rest ∧ contains LF group = false.
Proof.
  unfold arg_re.
  destruct ((0 <? count_while is_space line)%nat) eqn:Hn; [|done].
  pose proof (take_drop_str (count_while is_space line) line) as Hline.
  pose proof (take_count_while is_space line) as Hind.
  pose proof (take_count_while_ne is_space line Hn) as Hne.
  revert Hline Hind Hne.
  generalize (str_take (count_while is_space line) line)
    (str_drop (count_while is_space line) line).
  intros indent r <- Hind Hne.
  destruct (startswith _ r) eqn:Hkey; [|done]. cbn [andb].
  destruct (contains LF _) eqn:Hlf; [done|]. intros [= <-].
  exists indent, (str_drop (String.length (":" +:+ opt +:+ ":")) r).
  split; [|done]. f_equal. by apply startswith_split.
Qed.

(** A directive line is an indentation, which is the base indentation of
    the block, two dots, white space, and the name of the directive. *)
Lemma automodules_re_spec (line base : string) :
  automodules_re line = Some base →
  ∃ space rest,
    line = base +:+ ".." +:+ space +:+ "js:automodules::" +:+ rest
    ∧ all_space base ∧ space ≠ EmptyString ∧ all_space space.
Proof.
  unfold automodules_re.
  pose proof (take_drop_str (count_while is_space line) line) as Hline.
  pose proof (take_count_while is_space line) as Hind.
  revert Hline Hind.
  generalize (str_take (count_while is_space line) line)
    (str_drop (count_while is_space line) line).
  intros indent r <- Hind.
  destruct (startswith ".." r) eqn:Hdots; [|done].
  apply startswith_split in Hdots. cbn [String.length] in Hdots.
  revert Hdots. generalize (str_drop 2 r). intros r1 ->.
  destruct ((0 <? count_while is_space r1)%nat) eqn:Hk; [|done].
  pose proof (take_drop_str (count_while is_space r1) r1) as Hr1.
  pose proof (take_count_while is_space r1) as Hsp.
  pose proof (take_count_while_ne is_space r1 Hk) as Hne.
  revert Hr1 Hsp Hne.
  generalize (str_take (count_while is_space r1) r1)
    (str_drop (count_while is_space r1) r1).
  intros space r2 <- Hsp Hne.
  destruct (startswith _ r2) eqn:Hname; [|done]. cbn [andb]. intros [= <-].
  exists space, (str_drop (String.length "js:automodules::") r2).
  split; [|done]. do 3 f_equal. by apply startswith_split.
Qed.

(** The four option patterns exclude each other: their names differ in the
    first character. *)
Lemma keys_apart (a b : ascii) (p q r : string) :
  a ≠ b →
  startswith (String ":" (String a p)) r = true →
  startswith (String ":" (String b q)) r = false.
Proof.
  intros Hab (r1 & -> & (r2 & -> & _)%startswith_cons)%startswith_cons.
  unfold startswith. simpl. destruct (ascii_dec ":" ":"); [|done].
  destruct (ascii_dec b a); [|done]. by subst.
Qed.

Lemma arg_re_other (opt1 opt2 line group : string) :
  arg_re opt1 line = Some group →
  (∀ r, startswith (":" +:+ opt1 +:+ ":") r = true →
        startswith (":" +:+ opt2 +:+ ":") r = false) →
  arg_re opt2 line = None.
Proof.
  intros [Hkey _]%arg_re_Some Hother. unfold arg_re.
  by rewrite (Hother _ Hkey), andb_false_r.
Qed.

Ltac other_option :=
  eapply arg_re_other;
  [eassumption | intros r; apply (keys_apart _ _ _ _ r); discriminate].

(** The last value of an option, one line later. *)
Lemma last_option_snoc {A} (re : string → option string) (value : string → A)
    (absent : A) (earlier : list string) (line : string) :
  last_option re value absent (earlier ++ [line]) =
    match re line with
    | Some v => value v
    | None => last_option re value absent earlier
    end.
Proof.
  unfold last_option. rewrite omap_app. simpl.
  destruct (re line) as [v|]; simpl.
  - by rewrite last_snoc.
  - by rewrite app_nil_r.
Qed.

(** ** The loop of [find_automodules_in_lines] and the block structure *)

Lemma open_block_state (toctree_value : string → string) (st : Locals.t)
    (line : string) :
  Locals.in_automodules st = false →
  in_state toctree_value (open_block st line)
    ((λ base, (base, [])) <$> automodules_re line)
  ∧ Locals.documented (open_block st line) = Locals.documented st.
Proof.
  intros Hin. unfold open_block.
  destruct (automodules_re line) as [base|]; simpl; [|done].
  by repeat split.
Qed.

Lemma entries_while_staying (toctree_value : string → string) (base : string)
    (earlier : list string) (line : string) (lines' : list string) :
  stays_in_block base line = true →
  entries_by_stay toctree_value (Some (base, earlier)) (line :: lines') =
    match automodules_item_re line with
    | Some item => [entry_of toctree_value earlier item]
    | None => []
    end
    ++ entries_by_stay toctree_value (Some (base, earlier ++ [line])) lines'.
Proof. intros Hin. simpl. by rewrite Hin. Qed.

Lemma entries_outside (toctree_value : string → string)
    (block : option (string * list string)) (line : string)
    (lines' : list string) :
  match block with
  | Some (base, _) => stays_in_block base line = false
  | None => True
  end →
  entries_by_stay toctree_value block (line :: lines') =
    entries_by_stay toctree_value
      ((λ base, (base, [])) <$> automodules_re line) lines'.
Proof. destruct block as [[base earlier]|]; simpl; [|done]. by intros ->. Qed.

Ltac open_state :=
  unfold in_state, toctree_arg_re, members_arg_re, exclude_members_arg_re,
    private_members_arg_re;
  cbn [Locals.documented Locals.toctree Locals.members
       Locals.exclude_members Locals.private_members Locals.in_automodules
       Locals.base_indent].

(** One turn of the loop moves the position in the block structure by one
    line and appends the entries of that line. *)
Lemma scan_line_step (filename : option string) (st : Locals.t)
    (block : option (string * list string)) (line : string) :
  in_state (toctree_path filename) st block →
  ∃ block' new,
    in_state (toctree_path filename) (scan_line filename st line) block'
    ∧ Locals.documented (scan_line filename st line)
      = Locals.documented st ++ new
    ∧ ∀ lines',
        entries_by_stay (toctree_path filename) block (line :: lines')
        = new ++ entries_by_stay (toctree_path filename) block' lines'.
Proof.
  set (tv := toctree_path filename).
  assert (∀ st', Locals.in_automodules st' = false →
            Locals.documented st' = Locals.documented st →
            match block with
            | Some (base, _) => stays_in_block base line = false
            | None => True
            end →
            ∃ block' new,
              in_state tv (open_block st' line) block'
              ∧ Locals.documented (open_block st' line)
                = Locals.documented st ++ new
              ∧ ∀ lines', entries_by_stay tv block (line :: lines')
                          = new ++ entries_by_stay tv block' lines')
    as Houtside.
  { intros st' Hin Hdoc Hblock.
    destruct (open_block_state tv st' line Hin) as [Hst Hd].
    eexists _, []. split; [exact Hst|]. split.
    - by rewrite Hd, Hdoc, app_nil_r.
    - intros lines'. by apply entries_outside. }
  destruct block as [[base earlier]|]; simpl in_state.
  2:{ intros Hin. unfold scan_line. rewrite Hin. by apply Houtside. }
  intros (Hin & Hbase & Htoc & Hmem & Hexc & Hpriv).
  unfold scan_line. rewrite Hin.
  assert (∀ st' new,
            stays_in_block base line = true →
            match automodules_item_re line with
            | Some item => [entry_of tv earlier item]
            | None => []
            end = new →
            in_state tv st' (Some (base, earlier ++ [line])) →
            Locals.documented st' = Locals.documented st ++ new →
            ∃ block' new',
              in_state tv st' block'
              ∧ Locals.documented st' = Locals.documented st ++ new'
              ∧ ∀ lines',
                  entries_by_stay tv (Some (base, earlier)) (line :: lines')
                  = new' ++ entries_by_stay tv block' lines')
    as Hinside.
  { intros st' new Hb Hnew Hst Hdoc.
    exists (Some (base, earlier ++ [line])), new.
    split; [done|]. split; [done|]. intros lines'.
    by rewrite entries_while_staying, Hnew. }
  unfold toctree_arg_re, members_arg_re, exclude_members_arg_re,
    private_members_arg_re in *.
  destruct (arg_re "toctree" line) as [group|] eqn:Et.
  { pose proof (arg_re_colon _ _ _ Et) as Hc.
    apply (Hinside _ []).
    - unfold stays_in_block. by rewrite Hc.
    - by rewrite (colon_not_item _ Hc).
    - open_state. rewrite !last_option_snoc, Et.
      assert (arg_re "members" line = None) as -> by other_option.
      assert (arg_re "exclude-members" line = None) as -> by other_option.
      assert (arg_re "private-members" line = None) as -> by other_option.
      by repeat split.
    - simpl. by rewrite app_nil_r. }
  destruct (arg_re "members" line) as [group|] eqn:Em.
  { pose proof (arg_re_colon _ _ _ Em) as Hc.
    apply (Hinside _ []).
    - unfold stays_in_block. by rewrite Hc.
    - by rewrite (colon_not_item _ Hc).
    - open_state. rewrite !last_option_snoc, Et, Em.
      assert (arg_re "exclude-members" line = None) as -> by other_option.
      assert (arg_re "private-members" line = None) as -> by other_option.
      apply arg_re_Some in Em as [_ ->]. by repeat split.
    - simpl. by rewrite app_nil_r. }
  destruct (arg_re "exclude-members" line) as [group|] eqn:Ee.
  { pose proof (arg_re_colon _ _ _ Ee) as Hc.
    apply (Hinside _ []).
    - unfold stays_in_block. by rewrite Hc.
    - by rewrite (colon_not_item _ Hc).
    - open_state. rewrite !last_option_snoc, Et, Em, Ee.
      assert (arg_re "private-members" line = None) as -> by other_option.
      apply arg_re_Some in Ee as [_ ->]. by repeat split.
    - simpl. by rewrite app_nil_r. }
  destruct (arg_re "private-members" line) as [group|] eqn:Ep.
  { pose proof (arg_re_colon _ _ _ Ep) as Hc.
    apply (Hinside _ []).
    - unfold stays_in_block. by rewrite Hc.
    - by rewrite (colon_not_item _ Hc).
    - open_state. rewrite !last_option_snoc, Et, Em, Ee, Ep.
      apply arg_re_Some in Ep as [_ ->]. by repeat split.
    - simpl. by rewrite app_nil_r. }
  assert (in_state tv st (Some (base, earlier ++ [line]))) as Hsame.
  { open_state. rewrite !last_option_snoc, Et, Em, Ee, Ep. by repeat split. }
  destruct (startswith ":" (strip line)) eqn:Hc.
  { apply (Hinside _ []).
    - unfold stays_in_block. by rewrite Hc.
    - by rewrite (colon_not_item _ Hc).
    - done.
    - by rewrite app_nil_r. }
  destruct (automodules_item_re line) as [item|] eqn:Ei.
  { apply (Hinside _ [entry_of tv earlier item]).
    - unfold stays_in_block. by rewrite Hc, Ei.
    - done.
    - open_state. unfold in_state in Hsame.
      by destruct Hsame as (_ & ? & ? & ? & ? & ?).
    - simpl. do 2 f_equal. rewrite (item_strip _ _ Ei).
      unfold entry_of. by rewrite Htoc, Hmem, Hexc, Hpriv. }
  destruct (bool_decide (strip line = EmptyString)
            || startswith (Locals.base_indent st +:+ " ") line) eqn:Hb.
  { apply (Hinside _ []).
    - unfold stays_in_block. rewrite Hc, Ei, <- Hbase. exact Hb.
    - done.
    - done.
    - by rewrite app_nil_r. }
  apply Houtside; [done..|].
  unfold stays_in_block. rewrite Hc, Ei, <- Hbase. exact Hb.
Qed.

Lemma scan_lines (filename : option string) (lines : list string)
    (st : Locals.t) (block : option (string * list string)) :
  in_state (toctree_path filename) st block →
  Locals.documented (foldl (scan_line filename) st lines)
  = Locals.documented st
    ++ entries_by_stay (toctree_path filename) block lines.
Proof.
  revert st block. induction lines as [|line lines IH]; intros st block Hst.
  { simpl. by rewrite app_nil_r. }
  destruct (scan_line_step filename st block line Hst)
    as (block' & new & Hst' & Hdoc & Hentries).
  cbn [foldl]. rewrite (IH _ block' Hst'), Hdoc, Hentries.
  by rewrite <- app_assoc.
Qed.

Lemma last_option_ext {A} (re : string → option string)
    (value1 value2 : string → A) (absent : A) (earlier : list string) :
  (∀ v, value1 v = value2 v) →
  last_option re value1 absent earlier = last_option re value2 absent earlier.
Proof.
  intros Hv. unfold last_option. do 2 f_equal.
  induction earlier as [|line earlier IH]; [done|].
  csimpl. rewrite IH. destruct (re line) as [v|]; csimpl; by rewrite ?Hv.
Qed.

Lemma entries_by_stay_ext (value1 value2 : string → string)
    (block : option (string * list string)) (lines : list string) :
  (∀ v, value1 v = value2 v) →
  entries_by_stay value1 block lines = entries_by_stay value2 block lines.
Proof.
  intros Hv. revert block.
  induction lines as [|line lines IH]; intros block; [done|].
  cbn [entries_by_stay]. rewrite !IH.
  destruct block as [[base earlier]|]; [|done].
  destruct (stays_in_block base line); [|done]. f_equal; [|apply IH].
  destruct (automodules_item_re line); [|done].
  unfold entry_of. by rewrite (last_option_ext _ value1 value2).
Qed.

Example find_automodules_in_lines_example :
  find_automodules_in_lines
    ["Modules"; "=======";
     ".. js:automodules::";
     "   :toctree: api";
     "   :members: a, b ";
     EmptyString;
     "   lib/util and more";
     "   :private-members:";
     "   ~core";
     "Text again";
     "   not_an_item"] None None
  = [{| AutomodulesEntry.name := "lib/util";
        AutomodulesEntry.path := Some "api";
        AutomodulesEntry.members := Some "a, b";
        AutomodulesEntry.exclude_members := EmptyString;
        AutomodulesEntry.private_members := PyNone |};
     {| AutomodulesEntry.name := "~core";
        AutomodulesEntry.path := Some "api";
        AutomodulesEntry.members := Some "a, b";
        AutomodulesEntry.exclude_members := EmptyString;
        AutomodulesEntry.private_members := PyStr EmptyString |}].
Proof. reflexivity. Qed.

(** On lines that keep to their blocks the loop keeps in a block what
    belongs to it. *)
Lemma entries_by_stay_block (toctree_value : string → string)
    (block : option (string * list string)) (lines : list string) :
  keeps_to_blocks (fst <$> block) lines = true →
  entries_by_stay toctree_value block lines
  = entries_by_block toctree_value block lines.
Proof.
  revert block. induction lines as [|line lines IH]; intros block; [done|].
  assert (keeps_to_blocks (automodules_re line) lines = true →
          entries_by_stay toctree_value
            ((λ base, (base, [])) <$> automodules_re line) lines
          = entries_by_block toctree_value
              ((λ base, (base, [])) <$> automodules_re line) lines)
    as Houtside.
  { intros Hk. apply IH. by destruct (automodules_re line). }
  destruct block as [[base earlier]|]; cbn; [|exact Houtside].
  unfold stays_in_block.
  destruct (in_block base line) eqn:Hin.
  - unfold in_block in Hin. rewrite <- !orb_assoc, Hin, !orb_true_r.
    intros Hk. by rewrite (IH (Some (base, earlier ++ [line]))).
  - unfold in_block in Hin. rewrite <- !orb_assoc, Hin, !orb_false_r.
    intros [[Hc Hi]%andb_prop Hk]%andb_prop.
    apply negb_true_iff in Hc. apply bool_decide_eq_true in Hi.
    rewrite Hc, Hi. cbn. by apply Houtside.
Qed.

(** C6 (as the code has it): on lines that keep to their blocks, the
    entries are those of the item lines inside the blocks, one entry for
    each, in the order of the lines; an entry carries the values of the
    options given earlier in its block, the defaults where an option is
    absent, and as its path the text after [:toctree:] taken relative to
    the directory of [filename] when a file name is given; without a file
    name the path is that text itself.  A block is made of the lines under
    a directive line that are blank or indented by more than it. *)
Theorem find_automodules_in_lines_blocks (lines : list string)
    (module filename : option string) :
  keeps_to_blocks None lines = true →
  find_automodules_in_lines lines module filename
  = entries_by_block (toctree_path filename) None lines
  ∧ (py_bool_str filename = false →
     find_automodules_in_lines lines module filename
     = entries_by_block id None lines)
  ∧ (∀ toctree_value item,
       entry_of toctree_value [] item
       = {| AutomodulesEntry.name := item;
            AutomodulesEntry.path := Some "_automodules";
            AutomodulesEntry.members := None;
            AutomodulesEntry.exclude_members := EmptyString;
            AutomodulesEntry.private_members := PyNone |}).
Proof.
  intros Hkeeps.
  assert (∀ toctree_value,
            entries_by_stay toctree_value None lines
            = entries_by_block toctree_value None lines) as Hblocks.
  { intros toctree_value. by apply entries_by_stay_block. }
  assert (find_automodules_in_lines lines module filename
          = entries_by_block (toctree_path filename) None lines) as Hfind.
  { unfold find_automodules_in_lines.
    by rewrite (scan_lines filename lines locals_init None), <- Hblocks. }
  split; [done|]. split; [|done].
  intros Hfile. rewrite Hfind, <- !Hblocks. apply entries_by_stay_ext.
  intros v. unfold toctree_path. by rewrite Hfile.
Qed.

Lemma find_automodules_in_lines_blocks_witness :
  find_automodules_in_lines
    [".. js:automodules::"; "   :toctree: api"; "   mod"; "Text"; " para"]
    None None
  = entries_by_block id None
      [".. js:automodules::"; "   :toctree: api"; "   mod"; "Text"; " para"].
Proof.
  apply (find_automodules_in_lines_blocks
           [".. js:automodules::"; "   :toctree: api"; "   mod"; "Text";
            " para"] None None).
  - reflexivity.
  - reflexivity.
Defined.

(** C6 as it is worded fails when a file name is given: the entry does not
    carry the text that the pattern took from the [:toctree:] line. *)
Lemma find_automodules_in_lines_counterexample :
  toctree_arg_re "   :toctree: api" = Some "api"
  ∧ find_automodules_in_lines
      [".. js:automodules::"; "   :toctree: api"; "   mod"] None
      (Some "docs/index.rst")
    = [{| AutomodulesEntry.name := "mod";
          AutomodulesEntry.path := Some "docs/api";
          AutomodulesEntry.members := None;
          AutomodulesEntry.exclude_members := EmptyString;
          AutomodulesEntry.private_members := PyNone |}]
  ∧ find_automodules_in_lines
      [".. js:automodules::"; "   :toctree: api"; "   mod"] None
      (Some "docs/index.rst")
    ≠ entries_by_block id None
        [".. js:automodules::"; "   :toctree: api"; "   mod"].
Proof. split; [reflexivity|]. split; [reflexivity|]. by vm_compute. Qed.

(** Lines that do not keep to their block: under a directive indented by
    three spaces, a line indented by one space ends the block, and so does
    a field at the left margin; the loop, which tests for items and for
    the colon first, reads them and the line behind the field as part of
    the block. *)
Example find_automodules_in_lines_stray_lines :
  keeps_to_blocks None
    ["   .. js:automodules::"; "      mod1"; " para"] = false
  ∧ AutomodulesEntry.name
      <$> find_automodules_in_lines
            ["   .. js:automodules::"; "      mod1"; " para"] None None
    = ["mod1"; "para"]
  ∧ AutomodulesEntry.name
      <$> entries_by_block id None
            ["   .. js:automodules::"; "      mod1"; " para"]
    = ["mod1"]
  ∧ AutomodulesEntry.name
      <$> find_automodules_in_lines
            [".. js:automodules::"; "   mod1"; ":orphan:"; "   mod2"]
            None None
    = ["mod1"; "mod2"]
  ∧ AutomodulesEntry.name
      <$> entries_by_block id None
            [".. js:automodules::"; "   mod1"; ":orphan:"; "   mod2"]
    = ["mod1"].
Proof. repeat split; reflexivity. Qed.

(** The argument [module] is not used. *)
Lemma find_automodules_in_lines_module (lines : list string)
    (module1 module2 filename : option string) :
  find_automodules_in_lines lines module1 filename
  = find_automodules_in_lines lines module2 filename.
Proof. reflexivity. Qed.

(** * More of the package: properties *)

(** ** [get_rst_suffix] *)

Lemma first_rst_suffix_None (app : Sphinx.t) (suffixes : list string) :
  first_rst_suffix app suffixes = None
  ↔ Forall (λ s, ¬ supports_rst app s) suffixes.
Proof.
  induction suffixes as [|s suffixes IH]; simpl.
  - split; [constructor|done].
  - rewrite Forall_cons. unfold supports_rst at 1.
    destruct (decide _) as [Hs|Hs]; [|tauto].
    split; [done|]. by intros [? _].
Qed.

Lemma first_rst_suffix_Some (app : Sphinx.t) (suffixes : list string)
    (suffix : string) :
  first_rst_suffix app suffixes = Some suffix
  ↔ ∃ before after,
      suffixes = before ++ suffix :: after
      ∧ Forall (λ s, ¬ supports_rst app s) before
      ∧ supports_rst app suffix.
Proof.
  induction suffixes as [|s suffixes IH]; simpl.
  - split; [done|]. intros (before & after & E & _). by destruct before.
  - destruct (decide _) as [Hs|Hs].
    + split.
      * intros [= ->]. exists [], suffixes. by repeat split.
      * intros ([|b before] & after & E & Hb & Hsuf); simplify_eq/=; [done|].
        by apply Forall_cons in Hb as [? _].
    + rewrite IH. split.
      * intros (before & after & -> & Hb & Hsuf).
        exists (s :: before), after. repeat split; [|done]. by constructor.
      * intros ([|b before] & after & E & Hb & Hsuf); simplify_eq/=; [done|].
        apply Forall_cons in Hb as [_ Hb]. by exists before, after.
Qed.

(** X1: [get_rst_suffix] gives the first configured suffix that has no
    registered parser or whose parser supports reStructuredText, and [None]
    exactly when every configured suffix has a parser that does not. *)
Theorem get_rst_suffix_first (app : Sphinx.t) :
  (∀ suffix,
     get_rst_suffix app = Some suffix
     ↔ ∃ before after,
         Sphinx.source_suffix app = before ++ suffix :: after
         ∧ Forall (λ s, ¬ supports_rst app s) before
         ∧ supports_rst app suffix)
  ∧ (get_rst_suffix app = None
     ↔ ∀ suffix, suffix ∈ Sphinx.source_suffix app →
         ∃ supported, Sphinx.source_parsers app !! suffix = Some supported
                      ∧ "restructuredtext" ∉ supported).
Proof.
  split; [intros suffix; apply first_rst_suffix_Some|].
  unfold get_rst_suffix. rewrite first_rst_suffix_None, Forall_forall.
  unfold supports_rst, get_supported_format.
  split; intros Hall suffix Hin; specialize (Hall suffix Hin).
  - destruct (Sphinx.source_parsers app !! suffix) as [supported|].
    + by exists supported.
    + destruct Hall. by left.
  - by destruct Hall as (supported & -> & ?).
Qed.

Lemma get_rst_suffix_first_witness : get_rst_suffix (markdown_app []) = None.
Proof.
  apply (get_rst_suffix_first (markdown_app [])).
  intros suffix Hin. apply list_elem_of_singleton in Hin as ->.
  exists ["markdown"]. split; [reflexivity|].
  intros Hin. apply list_elem_of_singleton in Hin. discriminate Hin.
Defined.

(** ** [find_automodules_in_lines] *)

Lemma find_automodules_in_lines_by_stay (lines : list string)
    (module filename : option string) :
  find_automodules_in_lines lines module filename
  = entries_by_stay (toctree_path filename) None lines.
Proof.
  unfold find_automodules_in_lines.
  by rewrite (scan_lines filename lines locals_init None).
Qed.

(** X2: lines in front of the first directive line change nothing. *)
Theorem find_automodules_in_lines_before_directive
    (before lines : list string) (module filename : option string) :
  Forall (λ line, automodules_re line = None) before →
  find_automodules_in_lines (before ++ lines) module filename
  = find_automodules_in_lines lines module filename.
Proof.
  intros Hb. rewrite !find_automodules_in_lines_by_stay.
  induction Hb as [|line before Hline _ IH]; [done|].
  cbn [app entries_by_stay]. by rewrite Hline.
Qed.

Lemma find_automodules_in_lines_before_directive_witness :
  find_automodules_in_lines
    (["Title"; "   not_yet"] ++ [".. js:automodules::"; "   mod"]) None None
  = find_automodules_in_lines [".. js:automodules::"; "   mod"] None None.
Proof.
  apply (find_automodules_in_lines_before_directive
           ["Title"; "   not_yet"] [".. js:automodules::"; "   mod"]).
  repeat constructor.
Defined.

Lemma last_option_cases {A} (re : string → option string)
    (value : string → A) (absent : A) (earlier : list string) :
  last_option re value absent earlier = absent
  ∨ ∃ line v, line ∈ earlier ∧ re line = Some v
              ∧ last_option re value absent earlier = value v.
Proof.
  induction earlier as [|line earlier IH] using rev_ind; [by left|].
  rewrite last_option_snoc. destruct (re line) as [v|] eqn:E.
  - right. exists line, v. split; [|done]. apply elem_of_app. right. by left.
  - destruct IH as [IH|(l & v & Hl & Hv & IH)]; [by left|right].
    exists l, v. split; [|done]. apply elem_of_app. by left.
Qed.

Lemma entries_by_stay_elem (toctree_value : string → string)
    (lines : list string) (block : option (string * list string))
    (entry : AutomodulesEntry.t) :
  entry ∈ entries_by_stay toctree_value block lines →
  ∃ earlier line item,
    line ∈ lines ∧ automodules_item_re line = Some item
    ∧ entry = entry_of toctree_value earlier item.
Proof.
  revert block. induction lines as [|line lines IH]; intros block.
  { intros Hin. by apply elem_of_nil in Hin. }
  assert (∀ block', entry ∈ entries_by_stay toctree_value block' lines →
            ∃ earlier line' item,
              line' ∈ line :: lines ∧ automodules_item_re line' = Some item
              ∧ entry = entry_of toctree_value earlier item) as Hrest.
  { intros block' (earlier & line' & item & Hl & Hi & He)%IH.
    exists earlier, line', item. split; [by right|done]. }
  cbn [entries_by_stay]. destruct block as [[base earlier]|]; [|apply Hrest].
  destruct (stays_in_block base line); [|apply Hrest].
  intros [Hin|Hin]%elem_of_app; [|by eapply Hrest].
  destruct (automodules_item_re line) as [item|] eqn:Hi.
  - apply list_elem_of_singleton in Hin as ->.
    exists earlier, line, item. split; [by left|done].
  - by apply elem_of_nil in Hin.
Qed.

(** X3: every entry found carries a path, its [private_members] is [None]
    or a string (the initial [False] of the local variable never gets into
    an entry), its name is a name the item pattern accepts, and its option
    values have no white space around them. *)
Theorem find_automodules_in_lines_entries (lines : list string)
    (module filename : option string) :
  Forall (λ entry,
            is_Some (AutomodulesEntry.path entry)
            ∧ AutomodulesEntry.private_members entry ≠ PyFalse
            ∧ is_item_name (AutomodulesEntry.name entry)
            ∧ (∀ v, AutomodulesEntry.members entry = Some v → strip v = v)
            ∧ strip (AutomodulesEntry.exclude_members entry)
              = AutomodulesEntry.exclude_members entry)
    (find_automodules_in_lines lines module filename).
Proof.
  rewrite find_automodules_in_lines_by_stay. apply Forall_forall.
  intros entry (earlier & line & item & _ & Hitem & ->)%entries_by_stay_elem.
  unfold entry_of. cbn.
  split; [done|]. split; [|split; [|split]].
  - destruct (last_option_cases private_members_arg_re PyStr PyNone earlier)
      as [->|(l & v & _ & _ & ->)]; done.
  - by destruct (automodules_item_re_spec _ _ Hitem)
      as (indent & rest & _ & _ & _ & Hname & _).
  - intros v.
    destruct (last_option_cases members_arg_re (λ v, Some v) None earlier)
      as [->|(l & v' & _ & Hv & ->)]; [done|].
    intros [= <-]. by apply arg_re_Some in Hv as [_ ?].
  - destruct (last_option_cases exclude_members_arg_re id EmptyString earlier)
      as [->|(l & v & _ & Hv & ->)]; [done|].
    by apply arg_re_Some in Hv as [_ ?].
Qed.

(** ** [find_automodules_in_files] *)

(** X4: when every file is there, the result is the entries of the files
    one after the other, in the order of the file names; when one is
    missing, the call raises for the first missing one, whatever the files
    behind it are. *)
Theorem find_automodules_in_files_result (filenames : list string)
    (w : World.t) :
  (Forall (λ filename, is_Some (World.files w !! filename)) filenames →
   find_automodules_in_files filenames w
   = Ok (filenames ≫= entries_of_file w))
  ∧ (∀ present missing behind,
       filenames = present ++ missing :: behind →
       Forall (λ filename, is_Some (World.files w !! filename)) present →
       World.files w !! missing = None →
       find_automodules_in_files filenames w
       = Raise (FileNotFoundError missing)).
Proof.
  split.
  - induction 1 as [|filename filenames [text Htext] _ IH]; [done|].
    cbn [find_automodules_in_files]. rewrite Htext, IH. cbn.
    unfold entries_of_file at 2. by rewrite Htext.
  - intros present missing behind -> Hpresent Hmissing.
    induction Hpresent as [|filename present [text Htext] _ IH]; cbn.
    + by rewrite Hmissing.
    + by rewrite Htext, IH.
Qed.

Lemma find_automodules_in_files_result_witness :
  find_automodules_in_files ["a.rst"; "b.rst"; "c.rst"]
    (example_world {[ "a.rst" := ".. js:automodules::" ]})
  = Raise (FileNotFoundError "b.rst").
Proof.
  apply (proj2 (find_automodules_in_files_result ["a.rst"; "b.rst"; "c.rst"]
                  (example_world {[ "a.rst" := ".. js:automodules::" ]}))
           ["a.rst"] "b.rst" ["c.rst"]).
  - reflexivity.
  - repeat constructor. by eexists.
  - reflexivity.
Defined.

(** ** Writing the stubs *)

Section stubs.
Context `{Host}.

Lemma generate_stub_skipped (suffix : string) (overwrite : bool)
    (entry : AutomodulesEntry.t) (path : string) (w : World.t)
    (module : Obj) :
  ¬ not_skipped entry module →
  generate_stub suffix overwrite entry path w module = w.
Proof.
  unfold not_skipped, generate_stub. by destruct (substring_of _ _).
Qed.

(** What one turn of the loop over the modules does to the world. *)
Lemma generate_stub_effect (suffix : string) (overwrite : bool)
    (entry : AutomodulesEntry.t) (path : string) (w : World.t)
    (module : Obj) :
  not_skipped entry module →
  let w' := generate_stub suffix overwrite entry path w module in
  World.dirs w' = World.dirs w
  ∧ World.generated_automodules_docs w'
    = World.generated_automodules_docs w ++ [stub_doc suffix path module]
  ∧ ((World.files w' = World.files w
      ∧ is_Some (World.files w !! stub_filename suffix path module))
     ∨ (World.files w'
        = <[stub_filename suffix path module := stub_content entry module]>
            (World.files w)
        ∧ (World.files w !! stub_filename suffix path module = None
           ∨ overwrite = true))).
Proof.
  unfold not_skipped, generate_stub, stub_filename, stub_content, stub_doc.
  intros ->. cbn zeta.
  destruct (World.files w !! _) as [old|] eqn:Hold.
  - destruct (decide _); [by repeat split; try left|].
    destruct overwrite; repeat split; try done.
    + right. split; [done|by right].
    + by left.
  - repeat split; try done. right. split; [done|by left].
Qed.

(** With [overwrite] set, a turn leaves the stub file with the rendered
    text, whether it writes or not. *)
Lemma generate_stub_overwrite (suffix : string) (entry : AutomodulesEntry.t)
    (path : string) (w : World.t) (module : Obj) :
  not_skipped entry module →
  World.files (generate_stub suffix true entry path w module)
  = <[stub_filename suffix path module := stub_content entry module]>
      (World.files w).
Proof.
  unfold not_skipped, generate_stub, stub_filename, stub_content.
  intros ->. cbn zeta.
  destruct (World.files w !! _) as [old|] eqn:Hold; [|done].
  destruct (decide _) as [->|]; [|done]. cbn. by rewrite insert_id.
Qed.

(** X5: over the modules of an entry, the stubs recorded are those of the
    modules that are not skipped, one for each, in the order of the
    modules, behind what was recorded before. *)
Theorem generate_stubs_recorded (suffix : string) (overwrite : bool)
    (entry : AutomodulesEntry.t) (path : string) (modules : list Obj)
    (w : World.t) :
  World.generated_automodules_docs
    (foldl (generate_stub suffix overwrite entry path) w modules)
  = World.generated_automodules_docs w
    ++ (stub_doc suffix path <$> filter (not_skipped entry) modules).
Proof.
  revert w. induction modules as [|module modules IH]; intros w.
  { cbn. by rewrite app_nil_r. }
  cbn [foldl]. rewrite IH, filter_cons.
  destruct (decide (not_skipped entry module)) as [Hm|Hm].
  - destruct (generate_stub_effect suffix overwrite entry path w module Hm)
      as (_ & -> & _).
    by rewrite <- app_assoc.
  - by rewrite generate_stub_skipped.
Qed.

(** X6: over the modules of an entry, a file that is not the stub file of
    one of the modules that are not skipped keeps its state. *)
Theorem generate_stubs_frame (suffix : string) (overwrite : bool)
    (entry : AutomodulesEntry.t) (path : string) (modules : list Obj)
    (w : World.t) (filename : string) :
  (∀ module, module ∈ modules → not_skipped entry module →
     stub_filename suffix path module ≠ filename) →
  World.files (foldl (generate_stub suffix overwrite entry path) w modules)
    !! filename
  = World.files w !! filename.
Proof.
  revert w. induction modules as [|module modules IH]; intros w Hother.
  { done. }
  cbn [foldl]. rewrite IH by (intros m Hm; apply Hother; by right).
  destruct (decide (not_skipped entry module)) as [Hm|Hm].
  - destruct (generate_stub_effect suffix overwrite entry path w module Hm)
      as (_ & _ & [[-> _]|[-> _]]); [done|].
    apply lookup_insert_ne, Hother; [by left|done].
  - by rewrite generate_stub_skipped.
Qed.

End stubs.

Lemma generate_stubs_frame_witness :
  World.files
    (foldl (generate_stub (H:=example_host) ".rst" true
              (example_entry EmptyString) "/project/_automodules")
       (example_world {[ "/project/index.rst" := "text" ]})
       [example_module])
    !! "/project/index.rst"
  = World.files (example_world {[ "/project/index.rst" := "text" ]})
      !! "/project/index.rst".
Proof.
  apply (generate_stubs_frame (H:=example_host) ".rst" true
           (example_entry EmptyString) "/project/_automodules"
           [example_module]).
  intros module Hm _. apply list_elem_of_singleton in Hm as ->.
  discriminate.
Defined.

Section pipeline.
Context `{Host}.

(** What holds before the loop over the entries and is kept by making a
    directory and by a turn of the loop over the modules holds after it. *)
Lemma generate_entries_invariant (P : World.t → Prop) (app : Sphinx.t)
    (suffix : string) (overwrite : bool) :
  (∀ path w, P w → P (ensuredir path w)) →
  (∀ entry path w module,
     P w → P (generate_stub suffix overwrite entry path w module)) →
  ∀ entries w w',
    P w → generate_entries app suffix overwrite entries w = Ok w' → P w'.
Proof.
  intros Hdir Hstub entries.
  induction entries as [|entry entries IH]; intros w w' Hw; cbn.
  { by intros [= <-]. }
  unfold generate_entry. destruct (AutomodulesEntry.path entry) as [p|]; [|done].
  cbn. apply IH.
  generalize (Sphinx.resolve_name app (AutomodulesEntry.name entry)).
  intros modules. generalize (ensuredir (os_path_abspath p) w) (Hdir (os_path_abspath p) w Hw).
  induction modules as [|module modules IHm]; intros w1 Hw1; [done|].
  cbn [foldl]. apply IHm, Hstub, Hw1.
Qed.

Lemma generate_automodules_docs_invariant (P0 P : World.t → Prop)
    (sources : list string) (suffix : string) (base_path : option string)
    (app : Sphinx.t) (overwrite : bool) (encoding : string) (w w' : World.t) :
  (∀ msg w, P0 w → P0 (logger INFO msg w)) →
  (∀ w, P0 w → P (set_generated [] w)) →
  (∀ path w, P w → P (ensuredir path w)) →
  (∀ entry path w module,
     P w → P (generate_stub suffix overwrite entry path w module)) →
  P0 w →
  generate_automodules_docs sources suffix base_path app overwrite encoding w
  = Ok w' →
  P w'.
Proof.
  intros Hlog Hreset Hdir Hstub Hw. unfold generate_automodules_docs.
  destruct (find_automodules_in_files _ _) as [items|]; [|done]. cbn.
  apply (generate_entries_invariant P); [done..|].
  apply Hreset, Hlog, Hw.
Qed.

Lemma generate_stub_grows (suffix : string) (overwrite : bool)
    (entry : AutomodulesEntry.t) (path : string) (w : World.t)
    (module : Obj) (filename : string) :
  is_Some (World.files w !! filename) →
  is_Some (World.files (generate_stub suffix overwrite entry path w module)
             !! filename).
Proof.
  intros Hf. destruct (decide (not_skipped entry module)) as [Hm|Hm].
  - destruct (generate_stub_effect suffix overwrite entry path w module Hm)
      as (_ & _ & [[-> _]|[-> _]]); [done|].
    rewrite lookup_insert. by case_decide.
  - by rewrite generate_stub_skipped.
Qed.

(** X7: [process_automodules] never removes a file or a directory: what
    was there before a run that returns is there after it. *)
Theorem process_automodules_keeps_files (app : Sphinx.t) (w w' : World.t) :
  process_automodules app w = Ok w' →
  (∀ filename, is_Some (World.files w !! filename) →
               is_Some (World.files w' !! filename))
  ∧ World.dirs w ⊆ World.dirs w'.
Proof.
  unfold process_automodules. case_bool_decide; [by intros [= <-]|].
  destruct (get_rst_suffix app) as [suffix|]; [|by intros [= <-]].
  intros Hgen.
  pose (P := λ w1, (∀ filename, is_Some (World.files w !! filename) →
                                is_Some (World.files w1 !! filename))
                   ∧ World.dirs w ⊆ World.dirs w1).
  change (P w').
  eapply (generate_automodules_docs_invariant P P);
    [| | | | |exact Hgen]; unfold P.
  - done.
  - done.
  - intros path w1 [Hf Hd]. split; [done|]. cbn. set_solver.
  - intros entry path w1 module [Hf Hd]. split.
    + intros filename Hw. by apply generate_stub_grows, Hf.
    + destruct (decide (not_skipped entry module)) as [Hm|Hm].
      * by destruct (generate_stub_effect suffix true entry path w1 module Hm)
          as (-> & _).
      * by rewrite generate_stub_skipped.
  - done.
Qed.

(** X8: without [overwrite], [generate_automodules_docs] changes the text
    of no file that was there before. *)
Theorem generate_automodules_docs_no_overwrite (sources : list string)
    (suffix : string) (base_path : option string) (app : Sphinx.t)
    (encoding : string) (w w' : World.t) :
  generate_automodules_docs sources suffix base_path app false encoding w
  = Ok w' →
  ∀ filename text,
    World.files w !! filename = Some text →
    World.files w' !! filename = Some text.
Proof.
  intros Hgen.
  pose (P := λ w1, ∀ filename text,
                     World.files w !! filename = Some text →
                     World.files w1 !! filename = Some text).
  change (P w').
  eapply (generate_automodules_docs_invariant P P);
    [| | | | |exact Hgen]; unfold P; try done.
  intros entry path w1 module Hw1 filename text Hf.
  destruct (decide (not_skipped entry module)) as [Hm|Hm].
  - destruct (generate_stub_effect suffix false entry path w1 module Hm)
      as (_ & _ & [[-> _]|[-> [Hnone|?]]]); [by apply Hw1| |done].
    rewrite lookup_insert_ne; [by apply Hw1|].
    intros E. rewrite <- E in Hf. apply Hw1 in Hf. congruence.
  - rewrite generate_stub_skipped by done. by apply Hw1.
Qed.

(** The files are all that [find_automodules_in_files] reads of the
    world. *)
Lemma find_automodules_in_files_reads (filenames : list string)
    (w1 w2 : World.t) :
  World.files w1 = World.files w2 →
  find_automodules_in_files filenames w1
  = find_automodules_in_files filenames w2.
Proof.
  intros Hfiles. induction filenames as [|filename filenames IH]; [done|].
  cbn. by rewrite Hfiles, IH.
Qed.

(** The records that the loop over the entries appends. *)
Lemma generate_entries_docs (app : Sphinx.t) (suffix : string)
    (overwrite : bool) (entries : list AutomodulesEntry.t) (w w' : World.t) :
  generate_entries app suffix overwrite entries w = Ok w' →
  World.generated_automodules_docs w'
  = World.generated_automodules_docs w
    ++ (entries ≫= entry_stubs app suffix).
Proof.
  revert w. induction entries as [|entry entries IH]; intros w; cbn.
  { intros [= <-]. by rewrite app_nil_r. }
  unfold generate_entry, entry_stubs.
  destruct (AutomodulesEntry.path entry) as [p|]; [|done].
  cbn. intros Hrest. rewrite (IH _ Hrest), app_assoc. f_equal.
  generalize (Sphinx.resolve_name app (AutomodulesEntry.name entry)).
  intros modules.
  change (World.generated_automodules_docs w)
    with (World.generated_automodules_docs (ensuredir (os_path_abspath p) w)).
  generalize (ensuredir (os_path_abspath p) w). intros w1. revert w1.
  induction modules as [|module modules IHm]; intros w1.
  { cbn. by rewrite app_nil_r. }
  cbn [foldl]. rewrite IHm, filter_cons.
  destruct (decide (not_skipped entry module)) as [Hm|Hm].
  - destruct (generate_stub_effect suffix overwrite entry (os_path_abspath p)
                w1 module Hm) as (_ & -> & _).
    by rewrite fmap_cons, <- app_assoc.
  - by rewrite generate_stub_skipped.
Qed.

(** X9: after [generate_automodules_docs] every record of
    [generated_automodules_docs] is the record of a stub whose file is
    there, and the list holds the records of the stubs of the entries
    found in the sources, without the doubles and in the order of their
    text, entry after entry, and nothing else: what the list held before
    the call is gone. *)
Theorem generate_automodules_docs_recorded (sources : list string)
    (suffix : string) (base_path : option string) (app : Sphinx.t)
    (overwrite : bool) (encoding : string) (w w' : World.t) :
  generate_automodules_docs sources suffix base_path app overwrite encoding w
  = Ok w' →
  Forall (recorded_stub suffix w') (World.generated_automodules_docs w')
  ∧ ∃ items,
      find_automodules_in_files (based_sources base_path sources) w
      = Ok items
      ∧ World.generated_automodules_docs w'
        = sorted str_entry (remove_dups items) ≫= entry_stubs app suffix.
Proof.
  intros Hgen. split.
  - eapply (generate_automodules_docs_invariant (λ _, True)
              (λ w1, Forall (recorded_stub suffix w1)
                       (World.generated_automodules_docs w1)));
      [| | | | |exact Hgen]; try done.
    intros entry path w1 module Hw1.
    assert (Forall (recorded_stub suffix
                      (generate_stub suffix overwrite entry path w1 module))
              (World.generated_automodules_docs w1)) as Hold.
    { eapply Forall_impl; [exact Hw1|].
      intros [[[filename p] name] sfx] (Hf & Hn & Hs).
      split; [|done]. by apply generate_stub_grows. }
    destruct (decide (not_skipped entry module)) as [Hm|Hm].
    + destruct (generate_stub_effect suffix overwrite entry path w1 module Hm)
        as (_ & Hdocs & Hfiles).
      rewrite Hdocs. apply Forall_app_2; [done|]. apply Forall_singleton.
      split; [|done]. fold (stub_filename suffix path module).
      destruct Hfiles as [[-> ?]|[-> _]]; [done|].
      by rewrite lookup_insert_eq.
    + by rewrite generate_stub_skipped in Hold |- *.
  - unfold generate_automodules_docs in Hgen.
    rewrite (find_automodules_in_files_reads _ _ w) in Hgen by done.
    destruct (find_automodules_in_files _ w) as [items|] eqn:Hitems;
      [|done].
    exists items. split; [done|].
    unfold mbind, result_bind in Hgen.
    by rewrite (generate_entries_docs _ _ _ _ _ _ Hgen).
Qed.
End pipeline.

Lemma process_automodules_keeps_files_witness :
  is_Some
    (World.files
       (world_after (process_automodules (H:=example_host) rst_app rst_world)
          rst_world)
     !! "/project/index.rst").
Proof.
  apply (process_automodules_keeps_files (H:=example_host) rst_app rst_world
           (world_after
              (process_automodules (H:=example_host) rst_app rst_world)
              rst_world)).
  - vm_compute. reflexivity.
  - by eexists.
Defined.

Lemma generate_automodules_docs_no_overwrite_witness :
  World.files
    (world_after
       (generate_automodules_docs (H:=example_host) ["index.rst"] ".rst"
          (Some "/project") rst_app false "utf-8" rst_world)
       rst_world)
    !! "/project/index.rst"
  = World.files rst_world !! "/project/index.rst".
Proof.
  apply (generate_automodules_docs_no_overwrite (H:=example_host)
           ["index.rst"] ".rst" (Some "/project") rst_app "utf-8" rst_world).
  - vm_compute. reflexivity.
  - reflexivity.
Defined.

Lemma generate_automodules_docs_recorded_witness :
  Forall
    (recorded_stub ".rst"
       (world_after
          (generate_automodules_docs (H:=example_host) ["index.rst"] ".rst"
             (Some "/project") rst_app true "utf-8" rst_world)
          rst_world))
    (World.generated_automodules_docs
       (world_after
          (generate_automodules_docs (H:=example_host) ["index.rst"] ".rst"
             (Some "/project") rst_app true "utf-8" rst_world)
          rst_world))
  ∧ ∃ items,
      find_automodules_in_files (based_sources (Some "/project") ["index.rst"])
        rst_world
      = Ok items
      ∧ World.generated_automodules_docs
          (world_after
             (generate_automodules_docs (H:=example_host) ["index.rst"] ".rst"
                (Some "/project") rst_app true "utf-8" rst_world)
             rst_world)
        = sorted (str_entry (Host:=example_host)) (remove_dups items)
          ≫= entry_stubs (H:=example_host) rst_app ".rst".
Proof.
  apply (generate_automodules_docs_recorded (H:=example_host)
           ["index.rst"] ".rst" (Some "/project") rst_app true "utf-8"
           rst_world).
  vm_compute. reflexivity.
Defined.

Example process_automodules_example :
  World.generated_automodules_docs
    (world_after (process_automodules (H:=example_host) rst_app rst_world)
       rst_world)
  = [("/project/api/util.rst", "/project/api", "util", ".rst")].
Proof. vm_compute. reflexivity. Qed.

(** A file after a sequence of writes holds the text of the last write to
    it. *)
Lemma lookup_foldl_insert {A} (name_of text_of : A → string)
    (l : list A) (files : gmap string string) (filename : string) :
  foldl (λ fs x, <[name_of x := text_of x]> fs) files l !! filename
  = match last (filter (λ x, name_of x = filename) l) with
    | Some x => Some (text_of x)
    | None => files !! filename
    end.
Proof.
  revert files. induction l as [|x l IH]; intros files; [done|].
  cbn [foldl]. rewrite IH, filter_cons.
  destruct (decide (name_of x = filename)) as [<-|Hne].
  - rewrite last_cons.
    destruct (last (filter _ l)); [done|]. by rewrite lookup_insert_eq.
  - destruct (last (filter _ l)); [done|]. by rewrite lookup_insert_ne.
Qed.

Section again.
Context `{Host}.

Lemma generate_stubs_overwrite (suffix : string) (entry : AutomodulesEntry.t)
    (path : string) (modules : list Obj) (w : World.t) :
  World.files (foldl (generate_stub suffix true entry path) w modules)
  = foldl (λ fs module,
             <[stub_filename suffix path module
               := stub_content entry module]> fs)
      (World.files w) (filter (not_skipped entry) modules).
Proof.
  revert w. induction modules as [|module modules IH]; intros w; [done|].
  cbn [foldl]. rewrite IH, filter_cons.
  destruct (decide (not_skipped entry module)) as [Hm|Hm].
  - cbn [foldl]. by rewrite generate_stub_overwrite.
  - by rewrite generate_stub_skipped.
Qed.

(** X10: with [overwrite] set, going over the modules of an entry a second
    time leaves every file as the first time left it. *)
Theorem generate_stubs_again (suffix : string) (entry : AutomodulesEntry.t)
    (path : string) (modules : list Obj) (w : World.t) :
  World.files
    (foldl (generate_stub suffix true entry path)
       (foldl (generate_stub suffix true entry path) w modules) modules)
  = World.files (foldl (generate_stub suffix true entry path) w modules).
Proof.
  rewrite (generate_stubs_overwrite _ _ _ _ (foldl _ w modules)).
  rewrite generate_stubs_overwrite. apply map_eq. intros filename.
  rewrite !lookup_foldl_insert.
  by destruct (last (filter _ (filter (not_skipped entry) modules))).
Qed.
End again.

(** ** [_formal_params] *)

Lemma formal_params_loop (params : list Param.t) (formals : list string)
    (used_names : gset string) :
  foldl formal_params_step (formals, used_names) params
  = (formals ++ (formal_text <$> first_of_each_name used_names params),
     list_to_set (formal_name <$> params) ∪ used_names).
Proof.
  revert formals used_names.
  induction params as [|param params IH]; intros formals used_names.
  { cbn. rewrite app_nil_r. f_equal. set_solver. }
  cbn [foldl first_of_each_name formal_params_step].
  destruct (decide (formal_name param ∉ used_names)) as [Hnew|Hold].
  - rewrite IH. csimpl. rewrite <- app_assoc. f_equal. set_solver.
  - rewrite IH. f_equal. apply dec_stable in Hold. set_solver.
Qed.

Lemma first_of_each_name_sublist (seen : gset string) (params : list Param.t) :
  first_of_each_name seen params `sublist_of` params.
Proof.
  revert seen. induction params as [|param params IH]; intros seen; [done|].
  cbn. destruct (decide _); [by apply sublist_skip|by apply sublist_cons].
Qed.

Lemma first_of_each_name_names (seen : gset string) (params : list Param.t) :
  NoDup (formal_name <$> first_of_each_name seen params)
  ∧ (∀ n, n ∈ formal_name <$> first_of_each_name seen params → n ∉ seen)
  ∧ (∀ param, param ∈ params →
       formal_name param ∈ seen
       ∨ formal_name param ∈ formal_name <$> first_of_each_name seen params).
Proof.
  revert seen. induction params as [|param params IH]; intros seen.
  { cbn. split; [constructor|]. split; intros ? Hin; by apply elem_of_nil in Hin. }
  cbn [first_of_each_name].
  destruct (decide (formal_name param ∉ seen)) as [Hnew|Hold].
  - destruct (IH ({[formal_name param]} ∪ seen)) as (Hnd & Hfresh & Hall).
    csimpl. split; [|split].
    + constructor; [|done]. intros Hin%Hfresh. set_solver.
    + intros n [->|Hin%Hfresh]%elem_of_cons; [done|set_solver].
    + intros p [->|Hp]%elem_of_cons; [right; by left|].
      destruct (Hall p Hp) as [Hs|Hk]; [|right; by right].
      apply elem_of_union in Hs as [->%elem_of_singleton|Hs];
        [right; by left|by left].
  - destruct (IH seen) as (Hnd & Hfresh & Hall).
    split; [done|]. split; [done|].
    intros p [->|Hp]%elem_of_cons; [left; by apply dec_stable|by apply Hall].
Qed.

Lemma first_of_each_name_first (seen : gset string) (params : list Param.t)
    (param : Param.t) :
  param ∈ first_of_each_name seen params →
  ∃ before behind,
    params = before ++ param :: behind
    ∧ formal_name param ∉ formal_name <$> before.
Proof.
  revert seen. induction params as [|p params IH]; intros seen.
  { intros Hin. by apply elem_of_nil in Hin. }
  cbn [first_of_each_name].
  destruct (decide (formal_name p ∉ seen)) as [Hnew|Hold].
  - intros [->|Hin]%elem_of_cons.
    + exists [], params. split; [done|]. apply not_elem_of_nil.
    + pose proof Hin as Hin'. apply IH in Hin as (before & behind & -> & Hb).
      exists (p :: before), behind. split; [done|]. csimpl.
      apply not_elem_of_cons. split; [|done].
      destruct (first_of_each_name_names ({[formal_name p]} ∪ seen)
                  (before ++ param :: behind)) as (_ & Hfresh & _).
      intros E. apply (Hfresh (formal_name param)); [|set_solver].
      apply list_elem_of_fmap. by exists param.
  - intros Hin. pose proof Hin as Hin'.
    apply IH in Hin as (before & behind & -> & Hb).
    exists (p :: before), behind. split; [done|]. csimpl.
    apply not_elem_of_cons. split; [|done].
    destruct (first_of_each_name_names seen (before ++ param :: behind))
      as (_ & Hfresh & _).
    intros E. apply dec_stable in Hold.
    apply (Hfresh (formal_name param)); [|by rewrite E].
    apply list_elem_of_fmap. by exists param.
Qed.

(** X11: parameters written into the directive are returned as they are.
    Without them the result lists, between parentheses and separated by
    commas, one parameter for each name, in the order of the parameters:
    the first parameter of that name, with its default when it has one.  A
    property [p.sub] counts as [p], a variadic parameter gets three dots in
    front. *)
Theorem formal_params_listed (_explicit_formal_params : string)
    (params : list Param.t) :
  (_explicit_formal_params ≠ EmptyString →
   _formal_params _explicit_formal_params params = _explicit_formal_params)
  ∧ ∃ listed,
      _formal_params EmptyString params
      = "(" +:+ join ", " (formal_text <$> listed) +:+ ")"
      ∧ listed `sublist_of` params
      ∧ NoDup (formal_name <$> listed)
      ∧ (∀ param, param ∈ params →
           formal_name param ∈ formal_name <$> listed)
      ∧ (∀ param, param ∈ listed →
           ∃ before behind,
             params = before ++ param :: behind
             ∧ formal_name param ∉ formal_name <$> before).
Proof.
  split.
  - unfold _formal_params. by destruct _explicit_formal_params.
  - exists (first_of_each_name ∅ params).
    destruct (first_of_each_name_names ∅ params) as (Hnd & _ & Hall).
    split; [|split; [|split; [|split]]].
    + unfold _formal_params. cbn [py_bool_str].
      by rewrite formal_params_loop.
    + apply first_of_each_name_sublist.
    + done.
    + intros param Hp. destruct (Hall param Hp) as [Hs|Hk]; [set_solver|done].
    + intros param. apply first_of_each_name_first.
Qed.

Lemma formal_params_listed_witness :
  _formal_params "(a, b)" [] = "(a, b)".
Proof.
  apply (formal_params_listed "(a, b)" []). discriminate.
Defined.

(** ** Lists of names in options *)

Lemma split_no_sep (sep : ascii) (s : string) :
  contains sep s = false → split sep s = [s].
Proof.
  induction s as [|c s IH]; [done|]. cbn [contains split].
  intros [Hc Hs]%orb_false_iff. apply bool_decide_eq_false in Hc.
  rewrite decide_False by done. by rewrite IH.
Qed.

Lemma split_app_sep (sep : ascii) (a b : string) :
  contains sep a = false →
  split sep (a +:+ String sep b) = a :: split sep b.
Proof.
  induction a as [|c a IH].
  - intros _. rewrite append_empty. cbn [split]. by rewrite decide_True.
  - cbn [contains]. intros [Hc Ha]%orb_false_iff.
    apply bool_decide_eq_false in Hc. rewrite append_String. cbn [split].
    rewrite decide_False by done. by rewrite IH.
Qed.

Lemma strip_after_space (s : string) : strip (String " " s) = strip s.
Proof. reflexivity. Qed.

(** Splitting at the commas and stripping undoes joining with a comma and
    a space. *)
Lemma split_join_names (names : list string) :
  names ≠ [] →
  Forall (λ n, contains "," n = false ∧ strip n = n) names →
  strip <$> split "," (join ", " names) = names.
Proof.
  intros Hne Hnames.
  assert (strip <$> split "," (join ", " names) = names
          ∧ strip <$> split "," (String " " (join ", " names)) = names)
    as [? _]; [|done].
  induction Hnames as [|n names [Hc Hs] Hnames IH]; [done|]. clear Hne.
  destruct names as [|n2 names].
  - cbn [join]. split.
    + by rewrite split_no_sep, list_fmap_singleton, Hs.
    + rewrite split_no_sep by (cbn; by rewrite Hc).
      by rewrite list_fmap_singleton, strip_after_space, Hs.
  - destruct IH as [_ IH]; [done|].
    change (join ", " (n :: n2 :: names))
      with (n +:+ String "," (String " " (join ", " (n2 :: names)))).
    split.
    + rewrite split_app_sep by done. by rewrite fmap_cons, Hs, IH.
    + rewrite <- append_String, split_app_sep by (cbn; by rewrite Hc).
      by rewrite fmap_cons, strip_after_space, Hs, IH.
Qed.

Lemma join_names_not_empty (names : list string) :
  names ≠ [] → Forall plain_name names → join ", " names ≠ EmptyString.
Proof.
  intros Hne Hnames. destruct Hnames as [|n names [Hn _] _]; [done|].
  destruct n as [|c n]; [done|]. by destruct names.
Qed.

(** X12: the converter of the [members] option gives back a list of names
    that was written with commas and spaces: names that are not empty and
    have no comma in them and no white space around them.  An absent or
    empty option gives [None], and the converter never gives the empty
    list. *)
Theorem members_option_names (names : list string) :
  (names ≠ [] → Forall plain_name names →
   members_option (Some (join ", " names)) = Some names)
  ∧ members_option None = None
  ∧ members_option (Some EmptyString) = None
  ∧ ∀ members, members_option members ≠ Some [].
Proof.
  split; [|split; [done|split; [done|]]].
  - intros Hne Hnames. unfold members_option.
    pose proof (join_names_not_empty names Hne Hnames) as Hj.
    destruct (join ", " names) as [|c s] eqn:E; [done|].
    cbn [py_bool_str default from_option id]. rewrite <- E. f_equal.
    apply split_join_names; [done|].
    eapply Forall_impl; [exact Hnames|]. by intros n (_ & ? & ?).
  - intros members. unfold members_option.
    destruct (py_bool_str members); [|done]. intros [= E].
    apply fmap_nil_inv in E. by apply split_not_nil in E.
Qed.

Lemma members_option_names_witness :
  members_option (Some (join ", " ["foo"; "*"; "bar"]))
  = Some ["foo"; "*"; "bar"].
Proof.
  apply (members_option_names ["foo"; "*"; "bar"]).
  - discriminate.
  - repeat constructor; discriminate.
Defined.

(** X13: [_members_to_exclude] gives back, as a set, a list of names that
    was written with commas and spaces. *)
Theorem members_to_exclude_names (names : list string) :
  names ≠ [] → Forall plain_name names →
  _members_to_exclude (Some (join ", " names)) = list_to_set names.
Proof.
  intros Hne Hnames. rewrite members_to_exclude_eq.
  cbn [default from_option id]. rewrite split_join_names; [done..|].
  eapply Forall_impl; [exact Hnames|]. by intros n (_ & ? & ?).
Qed.

Lemma members_to_exclude_names_witness :
  _members_to_exclude (Some (join ", " ["foo"; "bar"]))
  = list_to_set ["foo"; "bar"].
Proof.
  apply (members_to_exclude_names ["foo"; "bar"]).
  - discriminate.
  - repeat constructor; discriminate.
Defined.

(** ** [unwrapped], once more *)

(** X14: unwrapping a text that is unwrapped already changes nothing. *)
Theorem unwrapped_unwrapped (text : string) :
  unwrapped (unwrapped text) = unwrapped text.
Proof. apply unwrapped_id, unwrapped_single_line. Qed.

(** ** [_prepare_see_alsos] *)

(** A reference that holds [@link] is taken at one of the synonyms: the
    loop over them does not end without a break. *)
Lemma external_reference_link (ref : string) :
  is_link ref → is_Some (external_reference ref link_synonmys).
Proof.
  unfold is_link, link_synonmys. intros Hlink. cbn [external_reference].
  destruct (substring_of "@linkplain" ref); [by eexists|].
  destruct (substring_of "@linkcode" ref); [by eexists|].
  rewrite Hlink. by eexists.
Qed.

Lemma see_alsos_loop (see_alsos : list (option string))
    (map_see_alsos : SeeAlsos.t) :
  SeeAlsos.internal (foldl see_alsos_step map_see_alsos see_alsos)
  = SeeAlsos.internal map_see_alsos
    ++ filter (λ ref, ¬ is_link ref) (omap id see_alsos)
  ∧ length (SeeAlsos.external (foldl see_alsos_step map_see_alsos see_alsos))
    = length (SeeAlsos.external map_see_alsos)
      + length (filter is_link (omap id see_alsos)).
Proof.
  revert map_see_alsos.
  induction see_alsos as [|ref see_alsos IH]; intros map_see_alsos.
  { cbn. by rewrite app_nil_r, Nat.add_0_r. }
  cbn [foldl]. destruct (IH (see_alsos_step map_see_alsos ref)) as [-> ->].
  destruct ref as [ref|]; [|done]. cbn [see_alsos_step].
  change (omap id (Some ref :: see_alsos)) with (ref :: omap id see_alsos).
  rewrite !filter_cons.
  change (default EmptyString (last link_synonmys)) with "@link".
  destruct (decide (is_link ref)) as [Hlink|Hlink].
  - rewrite decide_False by tauto. unfold is_link in Hlink. rewrite Hlink.
    destruct (external_reference_link ref Hlink) as [reference ->].
    cbn. split; [done|]. rewrite length_app. cbn. lia.
  - rewrite decide_True by done. unfold is_link in Hlink.
    apply not_true_is_false in Hlink. rewrite Hlink. cbn.
    by rewrite <- app_assoc.
Qed.

(** X15: the references are divided in two: those without [@link] are
    the internal ones, as they are and in their order; every reference
    with [@link] gives one external one; an empty [@see] ([None]) gives
    nothing. *)
Theorem prepare_see_alsos_divides (see_alsos : list (option string)) :
  SeeAlsos.internal (_prepare_see_alsos see_alsos)
  = filter (λ ref, ¬ is_link ref) (omap id see_alsos)
  ∧ length (SeeAlsos.external (_prepare_see_alsos see_alsos))
    = length (filter is_link (omap id see_alsos)).
Proof.
  unfold _prepare_see_alsos.
  by destruct (see_alsos_loop see_alsos
                 {| SeeAlsos.internal := []; SeeAlsos.external := [] |})
    as [-> ->].
Qed.

Lemma contains_app (c : ascii) (a b : string) :
  contains c (a +:+ b) = contains c a || contains c b.
Proof.
  induction a as [|d a IH]; [done|].
  rewrite append_String. cbn [contains]. by rewrite IH, orb_assoc.
Qed.

Lemma startswith_no_char (c : ascii) (p s : string) :
  contains c s = false → startswith (String c p) s = false.
Proof.
  unfold startswith. destruct s as [|d s]; [done|]. cbn.
  intros [Hd _]%orb_false_iff. apply bool_decide_eq_false in Hd.
  destruct (ascii_dec c d); [by subst|done].
Qed.

Lemma substring_of_no_char (c : ascii) (p s : string) :
  contains c s = false → substring_of (String c p) s = false.
Proof.
  induction s as [|d s IH]; [done|]. intros Hs.
  cbn [substring_of]. rewrite (startswith_no_char c p _ Hs).
  cbn in Hs. apply orb_false_iff in Hs as [_ Hs]. by apply IH.
Qed.

Lemma split_str_no_char (c : ascii) (p s : string) :
  contains c s = false → split_str_from 0 (String c p) s = [s].
Proof.
  induction s as [|d s IH]; [done|]. intros Hs.
  cbn [split_str_from]. rewrite (startswith_no_char c p _ Hs).
  cbn in Hs. apply orb_false_iff in Hs as [_ Hs]. by rewrite IH.
Qed.

Lemma str_take_app (a b : string) : str_take (String.length a) (a +:+ b) = a.
Proof.
  induction a as [|c a IH]; [by destruct b|].
  rewrite append_String. cbn. by rewrite IH.
Qed.

Lemma inner_braces (s : string) : inner (String "{" (s +:+ "}")) = s.
Proof.
  unfold inner. cbn [String.length str_drop]. rewrite length_append.
  cbn [String.length].
  replace (S (String.length s + 1) - 2) with (String.length s) by lia.
  apply str_take_app.
Qed.

Lemma startswith_app (p s : string) : startswith p (p +:+ s) = true.
Proof.
  unfold startswith. induction p as [|c p IH]; [by destruct s|].
  rewrite append_String. cbn. by destruct (ascii_dec c c).
Qed.

Lemma substring_of_app (pre p post : string) :
  substring_of p (pre +:+ p +:+ post) = true.
Proof.
  induction pre as [|c pre IH].
  - rewrite append_empty. destruct (p +:+ post) eqn:E; cbn [substring_of];
      by rewrite <- E, startswith_app.
  - rewrite append_String. cbn [substring_of]. by rewrite IH, orb_true_r.
Qed.

Lemma split_str_skip (sep a b : string) :
  split_str_from (String.length a) sep (a +:+ b) = split_str_from 0 sep b.
Proof.
  induction a as [|c a IH]; [done|]. by rewrite append_String.
Qed.

(** One separator that starts with a character the text around it does
    not have cuts the text in two. *)
Lemma split_str_once (c : ascii) (t pre post : string) :
  contains c pre = false → contains c post = false →
  split_str (String c t) (pre +:+ String c t +:+ post) = [pre; post].
Proof.
  unfold split_str. intros Hpre Hpost. induction pre as [|d pre IH].
  - rewrite append_empty, append_String. cbn [split_str_from].
    rewrite <- append_String, startswith_app. cbn [String.length Nat.sub].
    by rewrite Nat.sub_0_r, split_str_skip, split_str_no_char.
  - cbn in Hpre. apply orb_false_iff in Hpre as [Hd Hpre].
    rewrite append_String. cbn [split_str_from].
    unfold startswith at 1. cbn [String.prefix].
    apply bool_decide_eq_false in Hd.
    destruct (ascii_dec c d) as [->|_]; [done|]. by rewrite IH.
Qed.

Lemma substring_of_at (c d : ascii) (t r : string) :
  c ≠ d → contains c r = false →
  substring_of (String c t) (String d (String c r))
  = startswith (String c t) (String c r).
Proof.
  intros Hcd Hr. cbn [substring_of].
  rewrite (substring_of_no_char c t r Hr), orb_false_r.
  unfold startswith at 1. cbn [String.prefix].
  by destruct (ascii_dec c d).
Qed.

(** The reference taken from a link with the tag [tag], once the loop over
    the synonyms has come to it. *)
Lemma link_reference (t url : string) :
  contains "@" t = false → contains "@" url = false → strip url = url →
  strip (inner (join EmptyString
                  (split_str (String "@" t)
                     ("{" +:+ String "@" t +:+ " " +:+ url +:+ "}"))))
  = url.
Proof.
  intros Ht Hurl Hstrip. rewrite split_str_once.
  - cbn [join]. rewrite append_empty.
    change ("{" +:+ " " +:+ url +:+ "}")
      with (String "{" (String " " url +:+ "}")).
    by rewrite inner_braces, strip_after_space.
  - done.
  - rewrite append_String, append_empty. cbn [contains].
    by rewrite contains_app, Hurl.
Qed.

(** X16: an inline link, written with any of the three tags between
    braces, gives its target as the external reference, when the target
    has no at sign in it and no white space around it. *)
Theorem prepare_see_alsos_link (tag url : string) :
  tag ∈ link_synonmys → contains "@" url = false → strip url = url →
  _prepare_see_alsos [Some ("{" +:+ tag +:+ " " +:+ url +:+ "}")]
  = {| SeeAlsos.internal := []; SeeAlsos.external := [url] |}.
Proof.
  intros Htag Hurl Hstrip.
  assert (∀ code, contains "@" code = false →
            contains "@" (code +:+ " " +:+ url +:+ "}") = false) as Hbehind.
  { intros code Hcode. rewrite !contains_app, Hcode, Hurl. reflexivity. }
  assert (∀ synonym code,
            contains "@" code = false →
            substring_of (String "@" synonym)
              (String "{" (String "@" (code +:+ " " +:+ url +:+ "}")))
            = startswith (String "@" synonym)
                (String "@" (code +:+ " " +:+ url +:+ "}"))) as Hat.
  { intros synonym code Hcode. apply substring_of_at; [done|]. by apply Hbehind. }
  unfold _prepare_see_alsos. cbn [foldl see_alsos_step].
  change (default EmptyString (last link_synonmys)) with "@link".
  unfold link_synonmys in *. cbn [external_reference].
  apply elem_of_cons in Htag as [->|Htag];
    [|apply elem_of_cons in Htag as [->|Htag];
      [|apply list_elem_of_singleton in Htag as ->]].
  - change ("{" +:+ "@linkplain" +:+ " " +:+ url +:+ "}")
      with (String "{" (String "@" ("linkplain" +:+ " " +:+ url +:+ "}")))
      at 1 2.
    rewrite !Hat by reflexivity.
    assert (startswith "@link" (String "@" ("linkplain" +:+ " " +:+ url +:+ "}"))
            = true) as -> by reflexivity.
    assert (startswith "@linkplain"
              (String "@" ("linkplain" +:+ " " +:+ url +:+ "}")) = true)
      as -> by reflexivity.
    cbn [negb]. by rewrite link_reference.
  - change ("{" +:+ "@linkcode" +:+ " " +:+ url +:+ "}")
      with (String "{" (String "@" ("linkcode" +:+ " " +:+ url +:+ "}")))
      at 1 2 3.
    rewrite !Hat by reflexivity.
    assert (startswith "@link" (String "@" ("linkcode" +:+ " " +:+ url +:+ "}"))
            = true) as -> by reflexivity.
    assert (startswith "@linkplain"
              (String "@" ("linkcode" +:+ " " +:+ url +:+ "}")) = false)
      as -> by reflexivity.
    assert (startswith "@linkcode"
              (String "@" ("linkcode" +:+ " " +:+ url +:+ "}")) = true)
      as -> by reflexivity.
    cbn [negb]. by rewrite link_reference.
  - change ("{" +:+ "@link" +:+ " " +:+ url +:+ "}")
      with (String "{" (String "@" ("link" +:+ " " +:+ url +:+ "}")))
      at 1 2 3 4.
    rewrite !Hat by reflexivity.
    assert (startswith "@link" (String "@" ("link" +:+ " " +:+ url +:+ "}"))
            = true) as -> by reflexivity.
    assert (startswith "@linkplain"
              (String "@" ("link" +:+ " " +:+ url +:+ "}")) = false)
      as -> by reflexivity.
    assert (startswith "@linkcode"
              (String "@" ("link" +:+ " " +:+ url +:+ "}")) = false)
      as -> by reflexivity.
    cbn [negb]. by rewrite link_reference.
Qed.

Lemma prepare_see_alsos_link_witness :
  _prepare_see_alsos [Some ("{" +:+ "@link" +:+ " " +:+ "Foo#bar" +:+ "}")]
  = {| SeeAlsos.internal := []; SeeAlsos.external := ["Foo#bar"] |}.
Proof.
  apply (prepare_see_alsos_link "@link" "Foo#bar").
  - unfold link_synonmys. rewrite !elem_of_cons. right. right. by left.
  - reflexivity.
  - reflexivity.
Defined.

(** ** [_default_options] *)

Lemma default_options_step_other (config : gmap string config_value)
    (extendable : list string) (options_active : gmap string option_value)
    (name name' : string) :
  name ≠ name' →
  default_options_step config extendable options_active name !! name'
  = options_active !! name'.
Proof.
  intros Hne. unfold default_options_step.
  destruct (config !! name) as [val|]; [|done].
  destruct (options_active !! name) as [active|].
  - destruct val, active; try done.
    case_decide; [by rewrite lookup_insert_ne|done].
  - destruct (turns_on val); [by rewrite lookup_insert_ne|done].
Qed.

Lemma default_options_step_same (config : gmap string config_value)
    (extendable : list string) (options_active : gmap string option_value)
    (name : string) :
  default_options_step config extendable options_active name !! name
  = match options_active !! name with
    | Some active =>
        Some match config !! name, active with
             | Some (CfgStr text), OptList names =>
                 if decide (name ∈ extendable)
                 then OptList (names ++ (strip <$> split "," text))
                 else active
             | _, _ => active
             end
    | None =>
        config !! name ≫= λ val, if turns_on val then Some OptNone else None
    end.
Proof.
  unfold default_options_step.
  destruct (config !! name) as [val|] eqn:Hval.
  - destruct (options_active !! name) as [active|] eqn:Hactive.
    + destruct val, active; rewrite ?Hactive; try done.
      case_decide; [by rewrite lookup_insert_eq|done].
    + cbn. destruct (turns_on val); [by rewrite lookup_insert_eq|done].
  - by destruct (options_active !! name).
Qed.

(** X17: an option that the directive does not have is turned on, with
    the value [None], when the configured default of its name is [True],
    [None], the text [1] or the number one; with any other default, a
    text with names among them, and without a default it stays away. *)
Theorem default_options_absent (config : gmap string config_value)
    (_options : gmap string option_value) (name : string) :
  name ∈ ["members"; "private-members"] → _options !! name = None →
  _default_options config _options !! name
  = config !! name ≫= λ val, if turns_on val then Some OptNone else None.
Proof.
  intros Hname Hnone. unfold _default_options. cbn [foldl].
  apply elem_of_cons in Hname as [->|Hname].
  - rewrite default_options_step_other by done.
    by rewrite default_options_step_same, Hnone.
  - apply list_elem_of_singleton in Hname as ->.
    rewrite default_options_step_same.
    by rewrite default_options_step_other, Hnone by done.
Qed.

Lemma default_options_absent_witness :
  _default_options {[ "members" := CfgStr "a, b" ]} ∅ !! "members" = None
  ∧ _default_options {[ "private-members" := CfgInt 1 ]} ∅
      !! "private-members"
    = Some OptNone.
Proof.
  split.
  - rewrite (default_options_absent {[ "members" := CfgStr "a, b" ]} ∅
               "members"); [reflexivity| |reflexivity].
    by left.
  - rewrite (default_options_absent {[ "private-members" := CfgInt 1 ]} ∅
               "private-members"); [reflexivity| |reflexivity].
    right. by left.
Defined.

(** X18: an option that the directive has is kept, with its value; only
    a list of names of [members] is made longer, by the stripped names of
    a default that is a text, which come behind its own. *)
Theorem default_options_present (config : gmap string config_value)
    (_options : gmap string option_value) (name : string)
    (active : option_value) :
  _options !! name = Some active →
  _default_options config _options !! name
  = Some match config !! name, active with
         | Some (CfgStr text), OptList names =>
             if decide (name = "members")
             then OptList (names ++ (strip <$> split "," text))
             else active
         | _, _ => active
         end.
Proof.
  intros Hactive. unfold _default_options. cbn [foldl].
  destruct (decide (name = "private-members")) as [->|Hp].
  - rewrite default_options_step_same.
    rewrite default_options_step_other, Hactive by done.
    by destruct (config !! "private-members") as [[]|], active.
  - rewrite default_options_step_other by done.
    destruct (decide (name = "members")) as [->|Hm].
    + rewrite default_options_step_same, Hactive.
      by destruct (config !! "members") as [[]|], active.
    + rewrite default_options_step_other, Hactive by done.
      destruct (config !! name) as [[]|], active; try done;
        by rewrite decide_False.
Qed.

Lemma default_options_present_witness :
  _default_options {[ "members" := CfgStr "c , d" ]}
    {[ "members" := OptList ["a"; "b"] ]} !! "members"
  = Some (OptList ["a"; "b"; "c"; "d"]).
Proof.
  rewrite (default_options_present {[ "members" := CfgStr "c , d" ]}
             {[ "members" := OptList ["a"; "b"] ]} "members"
             (OptList ["a"; "b"])); reflexivity.
Defined.

(** X19: the options other than [members] and [private-members] are left
    as they are, whatever the configured defaults. *)
Theorem default_options_others (config : gmap string config_value)
    (_options : gmap string option_value) (name : string) :
  name ∉ ["members"; "private-members"] →
  _default_options config _options !! name = _options !! name.
Proof.
  intros Hname. unfold _default_options. cbn [foldl].
  apply not_elem_of_cons in Hname as [Hm Hname].
  apply not_elem_of_cons in Hname as [Hp _].
  by rewrite !default_options_step_other.
Qed.

Lemma default_options_others_witness :
  _default_options {[ "exclude-members" := CfgBool true ]} ∅
    !! "exclude-members"
  = None.
Proof.
  rewrite (default_options_others {[ "exclude-members" := CfgBool true ]} ∅
             "exclude-members"); [reflexivity|].
  rewrite !not_elem_of_cons. repeat split; try discriminate.
  apply not_elem_of_nil.
Defined.

(** ** [_fields], once more *)

Lemma bind_filter_nil {A B} (P : A → Prop) `{!∀ x, Decision (P x)}
    (f : A → list B) (l : list A) :
  (∀ x, ¬ P x → f x = []) → filter P l ≫= f = l ≫= f.
Proof.
  intros Hf. induction l as [|x l IH]; [done|].
  rewrite filter_cons. destruct (decide (P x)) as [HP|HP].
  - by rewrite !bind_cons, IH.
  - by rewrite bind_cons, (Hf x HP), IH.
Qed.

Lemma silent_param (rst_escape : string → string) (param : Doclet.t) :
  ¬ worth_saying param →
  _param_formatter param = None
  ∧ _param_type_formatter rst_escape param = None.
Proof.
  unfold worth_saying, _param_formatter, _param_type_formatter.
  intros Hsilent.
  destruct (py_bool_str (Doclet.type param)); [tauto|].
  destruct (py_bool_str (Some (Doclet.description param))); [tauto|done].
Qed.

(** X20: a parameter or property that has neither a type nor a
    description gives no field: the fields are those of the object
    without these parameters and properties. *)
Theorem fields_without_silent (rst_escape : string → string)
    (obj : FieldsOf.t) :
  _fields rst_escape (without_silent obj) = _fields rst_escape obj.
Proof.
  unfold _fields, FIELD_TYPES. rewrite !bind_cons.
  assert (∀ a, a = params ∨ a = properties →
            getattr (without_silent obj) a
            = filter worth_saying (getattr obj a)) as Hfilter.
  { intros a [->| ->]; unfold getattr, without_silent; cbn.
    - by destruct (FieldsOf.params obj).
    - by destruct (FieldsOf.properties obj). }
  rewrite !Hfilter by tauto.
  rewrite !bind_filter_nil; [done|..]; intros param Hsilent;
    destruct (silent_param rst_escape param Hsilent) as [E1 E2];
    cbn beta; by rewrite ?E1, ?E2.
Qed.

(** ** [_members_to_include], once more *)

Lemma py_index_first (x : string) (l : list string) (i : nat) :
  py_index x l = Some i → x ∉ take i l.
Proof.
  revert i. induction l as [|y l IH]; intros i; simpl; [done|].
  destruct (decide (y = x)) as [->|Hne].
  - intros [= <-]. apply not_elem_of_nil.
  - destruct (py_index x l) as [j|]; [|done]. intros [= <-]. simpl.
    apply not_elem_of_cons. split; [done|]. by apply IH.
Qed.

(** X21: with the placeholder in the list, and no member named like the
    placeholder, every member of the object is returned, once, also when
    the list names a member more than once or names what is no member. *)
Theorem members_to_include_wildcard_all (obj : Obj) (include : list string) :
  "*" ∈ include → (∀ m, m ∈ members obj → name m ≠ "*") →
  ∃ r, _members_to_include obj (Some include) = Some r
       ∧ r ≡ₚ members obj.
Proof.
  intros [i Hi]%py_index_elem_of Hstar.
  rewrite (members_to_include_expand obj include i Hi Hstar).
  eexists. split; [done|].
  rewrite <- sorted_by_first_position; [apply sorted_Permutation|].
  intros m Hm. rewrite !elem_of_app.
  destruct (decide (name m ∈ include)) as [Hl|Hl].
  - apply py_index_Some in Hi as [Hi _].
    rewrite <- (take_drop_middle _ _ _ Hi), elem_of_app, elem_of_cons in Hl.
    rewrite Nat.add_1_r.
    destruct Hl as [?|[E|?]]; [by left| |by right; right].
    by apply Hstar in E.
  - right; left. apply list_elem_of_fmap. exists m. split; [done|].
    rewrite sorted_Permutation. by apply list_elem_of_filter.
Qed.

Lemma members_to_include_wildcard_all_witness :
  ∃ r, _members_to_include example_class (Some ["foo"; "*"; "foo"; "nil"])
       = Some r
       ∧ r ≡ₚ members example_class.
Proof.
  apply (members_to_include_wildcard_all example_class
           ["foo"; "*"; "foo"; "nil"]).
  - right. by left.
  - intros m Hm. simpl in Hm. rewrite !elem_of_cons in Hm.
    destruct Hm as [->|[->|[->|[->|Hm]]]]; try discriminate.
    by apply elem_of_nil in Hm.
Defined.

(** X22: with the placeholder once in the list, a member that is itself
    named like the placeholder makes the call fail: its name is looked up
    in the list from which the placeholder has been taken out
    ([ValueError] of [include.index], here [None]). *)
Theorem members_to_include_placeholder_member (obj : Obj)
    (include : list string) (i : nat) (m : Member) :
  py_index "*" include = Some i → "*" ∉ drop (i + 1) include →
  m ∈ members obj → name m = "*" →
  _members_to_include obj (Some include) = None.
Proof.
  intros Hi Hdrop Hm Hname. unfold _members_to_include.
  assert ("*" ∈ include) as Hin by (apply py_index_elem_of; by rewrite Hi).
  destruct include as [|n include]; [by apply elem_of_nil in Hin|].
  cbn [py_bool_list negb default from_option id].
  case_decide as Hset; [|by rewrite elem_of_list_to_set in Hset].
  rewrite Hi. cbn [mbind option_bind].
  unfold sort_by_key. rewrite (mapM_None_2 _ _); [done|].
  apply Exists_exists. exists m. split.
  - apply list_elem_of_filter. split; [|done].
    rewrite Hname, elem_of_union. by left.
  - rewrite Hname. apply py_index_None. rewrite !elem_of_app.
    intros [Htake|[Hrest|Hbehind]].
    + by apply (py_index_first _ _ _ Hi).
    + apply list_elem_of_fmap in Hrest as (m' & E & Hm').
      rewrite sorted_Permutation in Hm'.
      apply list_elem_of_filter in Hm' as [Hm' _]. apply Hm'.
      by rewrite <- E, elem_of_list_to_set.
    + done.
Qed.

Lemma members_to_include_placeholder_member_witness :
  _members_to_include
    {| obj_name := "C";
       members := [mk Attribute "a" ["C#"; "a"]; mk Attribute "*" ["C#"; "*"]] |}
    (Some ["a"; "*"])
  = None.
Proof.
  apply (members_to_include_placeholder_member _ ["a"; "*"] 1
           (mk Attribute "*" ["C#"; "*"])).
  - reflexivity.
  - apply not_elem_of_nil.
  - right. by left.
  - reflexivity.
Defined.

(** ** [render_toc] *)

Lemma select_docs_listed (modules : list string) (excluded : option_value)
    (docs : list (string * string * string * string)) :
  excluded ≠ OptNone →
  select_docs modules excluded docs
  = Returns (filter (listed_stub modules excluded) docs).
Proof.
  intros Hexcluded. induction docs as [|doc docs IH]; [done|].
  cbn [select_docs]. rewrite IH, filter_cons.
  destruct (py_in doc.1.2 excluded) as [b|] eqn:Hin;
    [|by destruct excluded].
  destruct (decide (listed_stub modules excluded doc)) as [[Hm Hb]|Hno].
  - rewrite decide_True by done. rewrite Hin in Hb. by injection Hb as ->.
  - destruct (decide (doc.1.2 ∈ modules)) as [Hm|Hm]; [|done].
    destruct b; [done|]. destruct Hno. by split.
Qed.

Section render_toc_proofs.
Variable normpath : string → string.
Variable renderers_prefix : string.
Variable translated : string → string.

Lemma toc_loop (found_docs : list string) (dirname tree_prefix : string)
    (docs : list (string * string * string * string))
    (warnings : list (string * string)) (docnames : list string) :
  foldl (toc_step normpath renderers_prefix translated found_docs dirname
           tree_prefix)
    (warnings, docnames) docs
  = (warnings
     ++ (stub_warning renderers_prefix translated
         <$> filter (λ doc, ¬ found_stub normpath found_docs dirname
                              tree_prefix doc) docs),
     docnames
     ++ ((λ doc, stub_docname normpath dirname tree_prefix doc.1.2)
         <$> filter (found_stub normpath found_docs dirname tree_prefix)
               docs)).
Proof.
  revert warnings docnames.
  induction docs as [|[[[path dirpath] name] suffix] docs IH];
    intros warnings docnames.
  { cbn. by rewrite !app_nil_r. }
  cbn [foldl toc_step]. rewrite !filter_cons.
  assert (found_stub normpath found_docs dirname tree_prefix
            (path, dirpath, name, suffix)
          ↔ normpath (os_path_join dirname (os_path_join tree_prefix name))
            ∈ found_docs) as Hiff by done.
  destruct (decide (normpath
                      (os_path_join dirname (os_path_join tree_prefix name))
                    ∉ found_docs)) as [Hfound|Hfound].
  - rewrite IH, decide_True, decide_False by tauto.
    by rewrite fmap_cons, <- app_assoc.
  - apply dec_stable in Hfound.
    rewrite IH, decide_False, decide_True by tauto.
    by rewrite fmap_cons, <- app_assoc.
Qed.

(** X23: with a [toctree] option, when at least one listed stub has a
    document in the build environment, the toctree holds the documents of
    the generated stubs of the modules that the content names, without
    the excluded ones and without those that have no document in the
    build environment, in the order in which the stubs were generated; its
    entries are these documents in sorted order, without titles; and
    there is one call of [logger.warning] for each stub without a
    document. *)
Theorem render_toc_toctree (app : Sphinx.t)
    (docs : list (string * string * string * string))
    (self : AutoModulesRenderer.t) (text : string) :
  AutoModulesRenderer._options self !! "toctree" = Some (OptStr text) →
  excluded_of self ≠ OptNone →
  let dirname := os_path_dirname (AutoModulesRenderer.docname self) in
  let listed :=
    filter (listed_stub (modules_of app self) (excluded_of self)) docs in
  let found :=
    filter (found_stub normpath (Sphinx.found_docs app) dirname (strip text))
      listed in
  found ≠ [] →
  ∃ tocnode,
    render_toc normpath renderers_prefix translated app (Some docs) self
    = (stub_warning renderers_prefix translated
       <$> filter (λ doc, ¬ found_stub normpath (Sphinx.found_docs app)
                            dirname (strip text) doc) listed,
       Returns [automodulestoctree EmptyString EmptyString tocnode])
    ∧ Toctree.includefiles tocnode
      = (λ doc, stub_docname normpath dirname (strip text) doc.1.2) <$> found
    ∧ (Toctree.entries tocnode).*2 ≡ₚ Toctree.includefiles tocnode
    ∧ StronglySorted py_le (Toctree.entries tocnode).*2
    ∧ Forall (λ entry, entry.1 = None) (Toctree.entries tocnode)
    ∧ Toctree.maxdepth tocnode = (-1)%Z
    ∧ Toctree.glob tocnode = None.
Proof.
  intros Htoctree Hexcluded dirname listed found Hfound.
  unfold render_toc. fold (excluded_of self) (modules_of app self).
  rewrite select_docs_listed by done. fold listed. rewrite Htoctree.
  fold dirname. rewrite toc_loop. fold found. rewrite !app_nil_l.
  remember ((λ doc, stub_docname normpath dirname (strip text) doc.1.2)
            <$> found) as docnames eqn:E.
  destruct docnames as [|docn docnames].
  { symmetry in E. by apply fmap_nil_inv in E. }
  eexists. split; [done|].
  cbn [Toctree.includefiles Toctree.entries Toctree.maxdepth Toctree.glob].
  assert (∀ l : list string,
            ((λ docn, (@None string, docn)) <$> l).*2 = l) as Hentries.
  { intros l. rewrite <- list_fmap_compose. apply list_fmap_id. }
  rewrite Hentries. repeat split.
  - apply sorted_Permutation.
  - apply (sorted_StronglySorted id).
  - apply Forall_fmap, Forall_forall. by intros ? _.
Qed.

(** X24: without a [toctree] option the call fails with [KeyError], and
    nothing is logged, whatever stubs there are. *)
Theorem render_toc_no_toctree (app : Sphinx.t)
    (docs : list (string * string * string * string))
    (self : AutoModulesRenderer.t) :
  AutoModulesRenderer._options self !! "toctree" = None →
  excluded_of self ≠ OptNone →
  render_toc normpath renderers_prefix translated app (Some docs) self
  = ([], Raises (KeyError "toctree")).
Proof.
  intros Htoctree Hexcluded.
  unfold render_toc. fold (excluded_of self) (modules_of app self).
  rewrite select_docs_listed by done. by rewrite Htoctree.
Qed.

(** X25: with a [toctree] option, when no listed stub has a document in
    the build environment, as when the content names no module, the call
    fails: [tocnode] is read without having been assigned
    ([UnboundLocalError]), after one call of [logger.warning] for each
    listed stub. *)
Theorem render_toc_nothing_found (app : Sphinx.t)
    (docs : list (string * string * string * string))
    (self : AutoModulesRenderer.t) (text : string) :
  AutoModulesRenderer._options self !! "toctree" = Some (OptStr text) →
  excluded_of self ≠ OptNone →
  let dirname := os_path_dirname (AutoModulesRenderer.docname self) in
  let listed :=
    filter (listed_stub (modules_of app self) (excluded_of self)) docs in
  filter (found_stub normpath (Sphinx.found_docs app) dirname (strip text))
    listed = [] →
  render_toc normpath renderers_prefix translated app (Some docs) self
  = (stub_warning renderers_prefix translated <$> listed,
     Raises (UnboundLocalError "tocnode")).
Proof.
  intros Htoctree Hexcluded dirname listed Hfound.
  unfold render_toc. fold (excluded_of self) (modules_of app self).
  rewrite select_docs_listed by done. fold listed. rewrite Htoctree.
  fold dirname. rewrite toc_loop, Hfound, !app_nil_l. cbn [fmap list_fmap].
  do 2 f_equal. apply filter_all. intros doc Hdoc Hin.
  assert (doc ∈ filter (found_stub normpath (Sphinx.found_docs app) dirname
                          (strip text)) listed) as Hdoc'
    by by apply list_elem_of_filter.
  rewrite Hfound in Hdoc'. by apply elem_of_nil in Hdoc'.
Qed.
End render_toc_proofs.

Lemma render_toc_toctree_witness :
  ∃ tocnode,
    render_toc id "Sphinx-js [Renderers]: " id toc_app (Some toc_docs)
      (toc_renderer {[ "toctree" := OptStr " api " ]})
    = ([], Returns [automodulestoctree EmptyString EmptyString tocnode])
    ∧ Toctree.includefiles tocnode = ["api/util"]
    ∧ (Toctree.entries tocnode).*2 ≡ₚ Toctree.includefiles tocnode
    ∧ StronglySorted py_le (Toctree.entries tocnode).*2
    ∧ Forall (λ entry, entry.1 = None) (Toctree.entries tocnode)
    ∧ Toctree.maxdepth tocnode = (-1)%Z
    ∧ Toctree.glob tocnode = None.
Proof.
  destruct (render_toc_toctree id "Sphinx-js [Renderers]: " id toc_app
              toc_docs (toc_renderer {[ "toctree" := OptStr " api " ]})
              " api ")
    as (tocnode & Hnode & Hfiles & Hentries).
  - reflexivity.
  - vm_compute. discriminate.
  - vm_compute. discriminate.
  - exists tocnode. split; [exact Hnode|]. split; [exact Hfiles|].
    exact Hentries.
Defined.

Lemma render_toc_no_toctree_witness :
  render_toc id "Sphinx-js [Renderers]: " id toc_app (Some toc_docs)
    (toc_renderer ∅)
  = ([], Raises (KeyError "toctree")).
Proof.
  apply (render_toc_no_toctree id "Sphinx-js [Renderers]: " id toc_app
           toc_docs (toc_renderer ∅)).
  - reflexivity.
  - vm_compute. discriminate.
Defined.

Lemma render_toc_nothing_found_witness :
  render_toc id "Sphinx-js [Renderers]: " id toc_app (Some toc_docs)
    (toc_renderer {[ "toctree" := OptStr "modules" ]})
  = ([("Sphinx-js [Renderers]: ", "automodule: stub file not found util.")],
     Raises (UnboundLocalError "tocnode")).
Proof.
  etrans.
  - apply (render_toc_nothing_found id "Sphinx-js [Renderers]: " id toc_app
             toc_docs (toc_renderer {[ "toctree" := OptStr "modules" ]})
             "modules").
    + reflexivity.
    + vm_compute. discriminate.
    + reflexivity.
  - vm_compute. reflexivity.
Defined.
